(** * 3dModelsBrowser: the catalog-build pipeline

    A shallow embedding of [scripts/extract-model-data.js] (the extractor:
    the directory crawl, config classification, release inheritance, stable
    ids, cover-image resolution), of [scripts/build-nextjs-app.js] (the
    incremental cache and the image materializer) and of the computations
    of the gallery page [pages/index.js], followed by the properties of the
    pipeline and of the page.

    Conventions.
    - JavaScript strings are [string], sequences of 8-bit characters with
      ASCII's case mapping; a string is falsy exactly when it is empty.  An
      optional object property is an [option]; [None] stands for an absent
      (or null) property.
    - Node's [path] and [fs] modules, [crypto]'s MD5 and [JSON.stringify] are
      not code of the repository: they are interfaces ([PathModule],
      [FileSystem]) or section variables, and every result holds for any
      implementation of them.  Concrete instances ([posix], [toyFs]) are used
      to run the code on examples.
    - The catalog file and the build-cache file are kept as values of their
      own ([Catalog.t], [BuildCache.t]) and not inside the modelled file
      system; console and log output is not modelled. *)

From Stdlib Require Import Ascii String.
From stdpp Require Import base option list gmap strings.

Local Open Scope bool_scope.

(** ** JavaScript string primitives *)

Module JsString.

(** [s.startsWith(p)] *)
Fixpoint startsWith (s p : string) {struct p} : bool :=
  match p, s with
  | EmptyString, _ => true
  | String _ _, EmptyString => false
  | String c p', String d s' => Ascii.eqb c d && startsWith s' p'
  end.

(** [s.includes(sub)] *)
Fixpoint includes (s sub : string) : bool :=
  startsWith s sub ||
  match s with
  | EmptyString => false
  | String _ s' => includes s' sub
  end.

(** a string in a boolean context *)
Definition truthy (s : string) : bool := negb (String.eqb s "").

(** an optional string property in a boolean context *)
Definition truthy_opt (o : option string) : bool :=
  match o with
  | Some s => truthy s
  | None => false
  end.

Definition is_upper (c : ascii) : bool :=
  let n := nat_of_ascii c in (65 <=? n)%nat && (n <=? 90)%nat.

Definition is_lower (c : ascii) : bool :=
  let n := nat_of_ascii c in (97 <=? n)%nat && (n <=? 122)%nat.

Definition is_digit (c : ascii) : bool :=
  let n := nat_of_ascii c in (48 <=? n)%nat && (n <=? 57)%nat.

Definition is_space (c : ascii) : bool :=
  let n := nat_of_ascii c in ((9 <=? n)%nat && (n <=? 13)%nat) || (n =? 32)%nat.

Definition lower_char (c : ascii) : ascii :=
  if is_upper c then ascii_of_nat (nat_of_ascii c + 32) else c.

Fixpoint map_chars (f : ascii -> ascii) (s : string) : string :=
  match s with
  | EmptyString => EmptyString
  | String c s' => String (f c) (map_chars f s')
  end.

(** [s.toLowerCase()], on ASCII text: the letters A-Z are mapped, every
    other character, those above 127 included, is kept *)
Definition toLowerCase (s : string) : string := map_chars lower_char s.

(** [s.replace(/[^a-z0-9]/g, '-')] *)
Definition dash_non_alnum (s : string) : string :=
  map_chars (fun c => if is_lower c || is_digit c then c else "-"%char) s.

(** [s.replace(/[^a-z0-9]/g, '')] *)
Fixpoint strip_non_alnum (s : string) : string :=
  match s with
  | EmptyString => EmptyString
  | String c s' =>
      if is_lower c || is_digit c then String c (strip_non_alnum s')
      else strip_non_alnum s'
  end.

(** [s.trim() !== ''], on ASCII text: tab, line feed, vertical tab, form
    feed, carriage return and space are the white space *)
Fixpoint not_blank (s : string) : bool :=
  match s with
  | EmptyString => false
  | String c s' => negb (is_space c) || not_blank s'
  end.

(** [s.split(sep)] for a one-character separator: never the empty list *)
Fixpoint split (sep : ascii) (s : string) : list string :=
  match s with
  | EmptyString => [EmptyString]
  | String c s' =>
      if Ascii.eqb c sep then EmptyString :: split sep s'
      else match split sep s' with
           | seg :: rest => String c seg :: rest
           | [] => [String c EmptyString]
           end
  end.

End JsString.

Import JsString.

(** ** The host interfaces *)

(** Node's [path] module, for the platform the scripts run on. *)
Class PathModule := {
  sep : ascii;
  dirname : string -> string;
  basename : string -> string;
  (** [path.basename(p, ext)] *)
  basename_ext : string -> string -> string;
  extname : string -> string;
  join : string -> string -> string;
  relative : string -> string -> string;
}.

(** Node's [fs] module, as far as the scripts use it.  [None] is a thrown
    exception. *)
Class FileSystem (FS : Type) := {
  existsSync : FS -> string -> bool;
  readdirSync : FS -> string -> option (list string);
  (** [fs.statSync(p).isDirectory()], called on existing paths only *)
  isDirectory : FS -> string -> bool;
  copyFileSync : FS -> string -> string -> option FS;
  writeFileSync : FS -> string -> string -> option FS;
  mkdirSync : FS -> string -> option FS;
}.

(** ** The data model *)

Record Attr := { key : string; value : string }.

Global Instance Attr_eq_dec : EqDecision Attr.
Proof. solve_decision. Defined.

(** [modelmeta.name]: the code tells a null name ([!== null]) from a missing
    one. *)
Inductive NameField :=
| NameUndefined
| NameNull
| NameString (s : string).

Module ScanCfg.
(** [attributes_include] is [scancfg.attributes && scancfg.attributes.include],
    [tags_include] is [scancfg.tags && scancfg.tags.include]. *)
Record t := {
  attributes_include : option (list Attr);
  tags_include : option (list string);
}.
End ScanCfg.

Module ModelMeta.
Record t := {
  name : NameField;
  notes : option string;
  tags : option (list string);
  collections : option (list string);
  attributes : option (list Attr);
  cover : option string;
}.
End ModelMeta.

Module Config.
Record t := {
  scancfg : option ScanCfg.t;
  modelmeta : option ModelMeta.t;
}.
End Config.

Module Model.
Record t := {
  id : string;
  name : string;
  notes : string;
  tags : list string;
  collections : list string;
  attributes : list Attr;
  sourcePath : string;
  relativeSourcePath : string;
  dateAdded : string;
  directoryCollection : option string;
  image : option string;
  release : option string;
  subscription : option string;
}.

Definition set_image (v : option string) (m : t) : t :=
  {| id := id m; name := name m; notes := notes m; tags := tags m;
     collections := collections m; attributes := attributes m;
     sourcePath := sourcePath m; relativeSourcePath := relativeSourcePath m;
     dateAdded := dateAdded m; directoryCollection := directoryCollection m;
     image := v; release := release m; subscription := subscription m |}.

Definition set_dateAdded (v : string) (m : t) : t :=
  {| id := id m; name := name m; notes := notes m; tags := tags m;
     collections := collections m; attributes := attributes m;
     sourcePath := sourcePath m; relativeSourcePath := relativeSourcePath m;
     dateAdded := v; directoryCollection := directoryCollection m;
     image := image m; release := release m; subscription := subscription m |}.

Definition set_tags (v : list string) (m : t) : t :=
  {| id := id m; name := name m; notes := notes m; tags := v;
     collections := collections m; attributes := attributes m;
     sourcePath := sourcePath m; relativeSourcePath := relativeSourcePath m;
     dateAdded := dateAdded m; directoryCollection := directoryCollection m;
     image := image m; release := release m; subscription := subscription m |}.

Definition set_attributes (v : list Attr) (m : t) : t :=
  {| id := id m; name := name m; notes := notes m; tags := tags m;
     collections := collections m; attributes := v;
     sourcePath := sourcePath m; relativeSourcePath := relativeSourcePath m;
     dateAdded := dateAdded m; directoryCollection := directoryCollection m;
     image := image m; release := release m; subscription := subscription m |}.

Definition set_release (v : option string) (m : t) : t :=
  {| id := id m; name := name m; notes := notes m; tags := tags m;
     collections := collections m; attributes := attributes m;
     sourcePath := sourcePath m; relativeSourcePath := relativeSourcePath m;
     dateAdded := dateAdded m; directoryCollection := directoryCollection m;
     image := image m; release := v; subscription := subscription m |}.

Definition set_subscription (v : option string) (m : t) : t :=
  {| id := id m; name := name m; notes := notes m; tags := tags m;
     collections := collections m; attributes := attributes m;
     sourcePath := sourcePath m; relativeSourcePath := relativeSourcePath m;
     dateAdded := dateAdded m; directoryCollection := directoryCollection m;
     image := image m; release := release m; subscription := v |}.
End Model.

Module ScanStats.
Record t := {
  directoriesScanned : nat;
  totalFilesFound : nat;
  configFilesFound : nat;
  releaseConfigsFound : nat;
  scanDurationSeconds : string;
}.
End ScanStats.

Module Catalog.
Record t := {
  models : list Model.t;
  lastUpdated : string;
  totalCount : nat;
  scanStats : ScanStats.t;
}.

Definition set_models (v : list Model.t) (c : t) : t :=
  {| models := v; lastUpdated := lastUpdated c; totalCount := totalCount c;
     scanStats := scanStats c |}.
End Catalog.

Module CacheEntry.
Record t := {
  hash : string;
  lastProcessed : string;
  imagePath : option string;
}.

Definition set_imagePath (v : option string) (e : t) : t :=
  {| hash := hash e; lastProcessed := lastProcessed e; imagePath := v |}.
End CacheEntry.

(** The build-cache file.  [models] is the plain object [cache.models],
    read as the map of its own keys: the ids the cache holds an entry for.
    For an id that names an inherited property and has no entry, the code
    reads the inherited value, whose [hash] is undefined, so that the model
    counts as changed, as it does here for an id without entry.  Writing
    the key [__proto__] is the one write that adds no entry (it replaces
    the object's prototype): the map stands for the object as long as no id
    is [__proto__]. *)
Module BuildCache.
Record t := {
  models : gmap string CacheEntry.t;
  lastBuild : option string;
}.
End BuildCache.

(** ** scripts/extract-model-data.js *)

(** What [releaseConfigs.set(filePath, ...)] stores. *)
Record ReleaseInfo := { config : Config.t; dirPath : string }.

(** The readings of the wall clock one extraction run takes. *)
Record ExtractClock := {
  (** [new Date().toISOString()] while the [i]-th config file is processed *)
  dateAddedAt : nat -> string;
  lastUpdatedNow : string;
  scanTime : string;
}.

(** What the directory crawl ([findOrynt3dConfigFilesRecursively]) hands to
    the two passes: the config files in the order found, and its counters.
    A run starts from this result; the crawl that produces it is
    [findOrynt3dConfigFilesRecursively] further down, with [scanOf]. *)
Record Scan := {
  configFiles : list string;
  totalDirectoriesScanned : nat;
  totalFilesFound : nat;
}.

(** The outcome of the second pass. *)
Record Processed := {
  models : list Model.t;
  successCount : nat;
  errorCount : nat;
}.

Inductive Classification := Release | IsModel | Ignored.

(** [Map.prototype.set] on an insertion-ordered map: an existing key keeps
    its place. *)
Fixpoint map_set {V : Type} (k : string) (v : V) (m : list (string * V))
  : list (string * V) :=
  match m with
  | [] => [(k, v)]
  | (k', v') :: m' =>
      if String.eqb k k' then (k, v) :: m' else (k', v') :: map_set k v m'
  end.

Definition imageExtensions : list string :=
  [".png"; ".jpg"; ".jpeg"; ".webp"; ".gif"]%string.

Definition imageDirs : list string :=
  ["images"; "thumbnails"; "preview"; "previews"]%string.

(** [imageExtensions.includes(ext)] *)
Definition isImageExt (ext : string) : bool :=
  existsb (String.eqb ext) imageExtensions.

(** [startsWith('/images/') || startsWith('http')] *)
Definition webFriendly (p : string) : bool :=
  startsWith p "/images/" || startsWith p "http".

Definition placeholderPath : string := "/images/placeholder-model.png".

Section Extract.
Context {PM : PathModule} {FS : Type} {FSys : FileSystem FS}.

(** [ORYNT3D_DIRECTORY], the scan root *)
Variable ORYNT3D_DIRECTORY : string.
(** [crypto.createHash('md5').update(s).digest('hex')] *)
Variable md5hex : string -> string.
(** [JSON.parse(fs.readFileSync(filePath, 'utf8'))]; [None] when either
    throws *)
Variable readConfig : string -> option Config.t.

Definition sepStr : string := String sep EmptyString.

Definition isReleaseKey (attr : Attr) : bool :=
  String.eqb (key attr) "release" || String.eqb (key attr) "subscription".

Definition isReleaseConfig (config : Config.t) : bool :=
  match Config.scancfg config, Config.modelmeta config with
  | Some sc, Some _ =>
      match ScanCfg.attributes_include sc with
      | Some incl => existsb isReleaseKey incl
      | None => false
      end
  | _, _ => false
  end.

Definition isValidModelConfig (config : Config.t) : bool :=
  match Config.modelmeta config with
  | Some mm =>
      match ModelMeta.name mm with
      | NameNull => truthy_opt (ModelMeta.cover mm)
      | _ => true
      end
  | None => false
  end.

(** The branch [processModelConfigs] takes on a parsed document. *)
Definition classify (config : Config.t) : Classification :=
  if isReleaseConfig config then Release
  else if isValidModelConfig config then IsModel
  else Ignored.

Definition analyzeConfigFiles (configFiles : list string)
  : list (string * ReleaseInfo) :=
  foldl (fun releaseConfigs filePath =>
           match readConfig filePath with
           | Some config =>
               if isReleaseConfig config
               then map_set filePath
                      {| config := config; dirPath := dirname filePath |}
                      releaseConfigs
               else releaseConfigs
           | None => releaseConfigs
           end)
        [] configFiles.

(** the test of [findApplicableReleaseConfigs] *)
Definition appliesTo (releaseDir modelDir : string) : bool :=
  String.eqb modelDir releaseDir || startsWith modelDir (releaseDir +:+ sepStr).

Definition findApplicableReleaseConfigs
    (releaseConfigs : list (string * ReleaseInfo)) (modelConfigPath : string)
  : list Config.t :=
  let modelDir := dirname modelConfigPath in
  foldl (fun applicableConfigs entry =>
           let releaseInfo := snd entry in
           if appliesTo (dirPath releaseInfo) modelDir
           then applicableConfigs ++ [config releaseInfo]
           else applicableConfigs)
        [] releaseConfigs.

Definition generateStableId (name configPath : string) : string :=
  let relativePath := relative ORYNT3D_DIRECTORY configPath in
  let sourceToHash := name +:+ "-" +:+ relativePath in
  let hash := String.substring 0 8 (md5hex sourceToHash) in
  let normalizedName := dash_non_alnum (toLowerCase name) in
  normalizedName +:+ "-" +:+ hash.

(** the listing [findCoverImage] starts from; [None] when [readdirSync]
    throws *)
Definition listModelDir (fs : FS) (modelDir : string) : option (list string) :=
  if existsSync fs modelDir then readdirSync fs modelDir else Some [].

Definition isPng (file : string) : bool :=
  String.eqb (toLowerCase (extname file)) ".png".

Definition isPreferredPng (file : string) : bool :=
  isPng file &&
  (startsWith (toLowerCase file) "fn" || includes (toLowerCase file) "preview").

Definition isImageFile (file : string) : bool :=
  isImageExt (toLowerCase (extname file)).

(** PRIORITY 3 of [findCoverImage] *)
Definition findConfiguredCover (fs : FS) (modelDir : string)
    (coverFilename : option string) : option string :=
  match coverFilename with
  | Some cover =>
      if truthy cover then
        if existsSync fs (join modelDir cover) then Some (join modelDir cover)
        else if truthy (extname cover) then None
        else
          match find (fun ext => existsSync fs (join modelDir (cover +:+ ext)))
                     imageExtensions with
          | Some ext => Some (join modelDir (cover +:+ ext))
          | None => None
          end
      else None
  | None => None
  end.

(** PRIORITY 5 of [findCoverImage]: the loop over [imageDirs] *)
Fixpoint findInImageDirs (fs : FS) (modelDir : string) (dirs : list string)
  : option string :=
  match dirs with
  | [] => None
  | imageDir :: rest =>
      let imageDirPath := join modelDir imageDir in
      if existsSync fs imageDirPath && isDirectory fs imageDirPath then
        match readdirSync fs imageDirPath with
        | Some subdirFiles =>
            match find isImageFile subdirFiles with
            | Some file => Some (join imageDirPath file)
            | None => findInImageDirs fs modelDir rest
            end
        | None => findInImageDirs fs modelDir rest
        end
      else findInImageDirs fs modelDir rest
  end.

Definition findCoverImage (fs : FS) (modelDir : string)
    (coverFilename : option string) : option string :=
  match listModelDir fs modelDir with
  | None => None
  | Some files =>
      match find isPreferredPng files with
      | Some file => Some (join modelDir file)
      | None =>
      match find isPng files with
      | Some file => Some (join modelDir file)
      | None =>
      match findConfiguredCover fs modelDir coverFilename with
      | Some imagePath => Some imagePath
      | None =>
      match find isImageFile files with
      | Some file => Some (join modelDir file)
      | None => findInImageDirs fs modelDir imageDirs
      end end end end
  end.

(** [loadExistingDataFile]: [prior] is the parsed catalog file, [None]
    when it is missing or unreadable. *)
Definition loadExistingDataFile (prior : option Catalog.t) : gmap string string :=
  match prior with
  | Some existingData =>
      foldl (fun (existingModels : gmap string string) model =>
               match Model.image model with
               | Some img =>
                   if truthy (Model.id model) && truthy img
                   then <[Model.id model := img]> existingModels
                   else existingModels
               | None => existingModels
               end)
            ∅ (Catalog.models existingData)
  | None => ∅
  end.

(** the fallback name: the last non-blank segment of the relative
    directory, else the directory's base name *)
Definition fallbackName (configPath : string) : string :=
  let modelDir := dirname configPath in
  let relativePath := relative ORYNT3D_DIRECTORY configPath in
  let dirStructure := split sep (dirname relativePath) in
  let meaningfulSegments := filter (fun segment => Is_true (not_blank segment)) dirStructure in
  match last meaningfulSegments with
  | Some segment => segment
  | None => basename modelDir
  end.

(** [modelConfig.modelmeta.name || modelName] *)
Definition resolvedName (mm : ModelMeta.t) (configPath : string) : string :=
  match ModelMeta.name mm with
  | NameString s => if truthy s then s else fallbackName configPath
  | _ => fallbackName configPath
  end.

(** the search of the file system [processModelConfig] makes when no web
    path was preserved: with the configured cover first, then without *)
Definition resolveFromDisk (fs : FS) (modelDir : string) (cover : option string)
  : option string :=
  let coverImage :=
    if truthy_opt cover then findCoverImage fs modelDir cover else None in
  if truthy_opt coverImage then coverImage else findCoverImage fs modelDir None.

(** the image an entry starts with: the preserved web path, else what the
    file system offers *)
Definition initialImage (existingModels : gmap string string) (fs : FS)
    (modelId modelDir : string) (cover : option string) : option string :=
  let preserved :=
    match existingModels !! modelId with
    | Some existingImagePath =>
        if webFriendly existingImagePath then Some existingImagePath else None
    | None => None
    end in
  if truthy_opt preserved then preserved
  else
    let coverImage := resolveFromDisk fs modelDir cover in
    if truthy_opt coverImage then coverImage else preserved.

Definition applyReleaseAttr (modelData : Model.t) (attr : Attr) : Model.t :=
  let modelData :=
    if String.eqb (key attr) "release"
    then Model.set_release (Some (value attr)) modelData
    else if String.eqb (key attr) "subscription"
    then Model.set_subscription (Some (value attr)) modelData
    else modelData in
  if existsb (fun existing => String.eqb (key existing) (key attr))
             (Model.attributes modelData)
  then modelData
  else Model.set_attributes
         (Model.attributes modelData ++ [{| key := key attr; value := value attr |}])
         modelData.

Definition applyReleaseTag (modelData : Model.t) (tag : string) : Model.t :=
  if existsb (String.eqb tag) (Model.tags modelData) then modelData
  else Model.set_tags (Model.tags modelData ++ [tag]) modelData.

Definition applyReleaseConfig (modelData : Model.t) (releaseConfig : Config.t)
  : Model.t :=
  let modelData :=
    match Config.scancfg releaseConfig with
    | Some sc =>
        match ScanCfg.attributes_include sc with
        | Some incl => foldl applyReleaseAttr modelData incl
        | None => modelData
        end
    | None => modelData
    end in
  match Config.scancfg releaseConfig with
  | Some sc =>
      match ScanCfg.tags_include sc with
      | Some incl => foldl applyReleaseTag modelData incl
      | None => modelData
      end
  | None => modelData
  end.

(** [None] is a thrown exception (an empty config path, a missing
    [modelmeta]). *)
Definition processModelConfig (existingModels : gmap string string) (fs : FS)
    (now : string) (modelConfig : Config.t) (configPath : string)
    (releaseConfigs : list Config.t) : option Model.t :=
  if negb (truthy configPath) then None
  else
    match Config.modelmeta modelConfig with
    | None => None
    | Some mm =>
        let modelDir := dirname configPath in
        let relativePath := relative ORYNT3D_DIRECTORY configPath in
        let dirStructure := split sep (dirname relativePath) in
        let modelId := generateStableId (resolvedName mm configPath) configPath in
        let modelData :=
          {| Model.id := modelId;
             Model.name := resolvedName mm configPath;
             Model.notes := default ""%string (ModelMeta.notes mm);
             Model.tags := default [] (ModelMeta.tags mm);
             Model.collections := default [] (ModelMeta.collections mm);
             Model.attributes := default [] (ModelMeta.attributes mm);
             Model.sourcePath := configPath;
             Model.relativeSourcePath := relativePath;
             Model.dateAdded := now;
             Model.directoryCollection :=
               match head dirStructure with
               | Some d => if truthy d then Some d else None
               | None => None
               end;
             Model.image :=
               initialImage existingModels fs modelId modelDir (ModelMeta.cover mm);
             Model.release := None;
             Model.subscription := None |} in
        Some (foldl applyReleaseConfig modelData releaseConfigs)
    end.

(** one turn of the loop of [processModelConfigs] *)
Definition processModelConfigs_step
    (releaseConfigs : list (string * ReleaseInfo))
    (existingModels : gmap string string) (fs : FS) (clock : ExtractClock)
    (i : nat) (filePath : string) (acc : Processed) : Processed :=
  match readConfig filePath with
  | None =>
      {| models := models acc; successCount := successCount acc;
         errorCount := S (errorCount acc) |}
  | Some config =>
      if isReleaseConfig config then acc
      else if isValidModelConfig config then
        match processModelConfig existingModels fs (dateAddedAt clock i) config
                filePath (findApplicableReleaseConfigs releaseConfigs filePath) with
        | Some modelData =>
            {| models := models acc ++ [modelData];
               successCount := S (successCount acc);
               errorCount := errorCount acc |}
        | None =>
            {| models := models acc; successCount := successCount acc;
               errorCount := S (errorCount acc) |}
        end
      else acc
  end.

Fixpoint processModelConfigs_loop
    (releaseConfigs : list (string * ReleaseInfo))
    (existingModels : gmap string string) (fs : FS) (clock : ExtractClock)
    (i : nat) (configFiles : list string) (acc : Processed) : Processed :=
  match configFiles with
  | [] => acc
  | filePath :: rest =>
      processModelConfigs_loop releaseConfigs existingModels fs clock (S i) rest
        (processModelConfigs_step releaseConfigs existingModels fs clock i filePath acc)
  end.

Definition processModelConfigs
    (releaseConfigs : list (string * ReleaseInfo))
    (existingModels : gmap string string) (fs : FS) (clock : ExtractClock)
    (configFiles : list string) : Processed :=
  processModelConfigs_loop releaseConfigs existingModels fs clock 0 configFiles
    {| models := []; successCount := 0; errorCount := 0 |}.

(** [mainExtractModelData], from the crawl's result on: [None] is
    [process.exit(1)] for a missing scan root. *)
Definition mainExtractModelData (fs : FS) (prior : option Catalog.t)
    (scan : Scan) (clock : ExtractClock) : option Catalog.t :=
  if negb (existsSync fs ORYNT3D_DIRECTORY) then None
  else
    let existingModels := loadExistingDataFile prior in
    let releaseConfigs := analyzeConfigFiles (configFiles scan) in
    let result :=
      processModelConfigs releaseConfigs existingModels fs clock (configFiles scan) in
    Some {| Catalog.models := models result;
            Catalog.lastUpdated := lastUpdatedNow clock;
            Catalog.totalCount := length (models result);
            Catalog.scanStats :=
              {| ScanStats.directoriesScanned := totalDirectoriesScanned scan;
                 ScanStats.totalFilesFound := totalFilesFound scan;
                 ScanStats.configFilesFound := length (configFiles scan);
                 ScanStats.releaseConfigsFound := length releaseConfigs;
                 ScanStats.scanDurationSeconds := scanTime clock |} |}.

End Extract.

(** ** scripts/build-nextjs-app.js *)

(** The object [calculateModelHash] serializes. *)
Record HashSource := {
  hs_name : string;
  hs_notes : string;
  hs_tags : list string;
  hs_collections : list string;
  hs_attributes : list Attr;
  hs_sourcePath : string;
  hs_release : option string;
  hs_subscription : option string;
}.

(** The readings of the wall clock one build run takes. *)
Record BuildClock := {
  (** [new Date().toISOString()] when the [i]-th model is categorized *)
  lastProcessedAt : nat -> string;
  lastBuildNow : string;
}.

(** The result of [categorizeModels].  The arrays [newModels] and
    [unchangedModels] hold the very objects of [data.models]; an object is
    named here by its index in [data.models]. *)
Record Categorized := {
  newModels : list nat;
  unchangedModels : list nat;
  cat_cache : gmap string CacheEntry.t;
}.

(** A call of [copyFileSync] made for the image of model [copy_id]. *)
Record Copy := {
  copy_id : string;
  copy_source : string;
  copy_target : string;
}.

(** The state the loop of [processModelImages] works on.  [st_copies] lists
    the [copyFileSync] calls made for model images, in order, whether they
    returned or threw. *)
Record ImageState (FS : Type) := {
  st_fs : FS;
  st_models : list Model.t;
  st_cache : gmap string CacheEntry.t;
  st_copies : list Copy;
  copiedCount : nat;
  placeholderCount : nat;
  updatedCount : nat;
  st_errorCount : nat;
}.
Arguments st_fs {FS} _.
Arguments st_models {FS} _.
Arguments st_cache {FS} _.
Arguments st_copies {FS} _.
Arguments copiedCount {FS} _.
Arguments placeholderCount {FS} _.
Arguments updatedCount {FS} _.
Arguments st_errorCount {FS} _.

Record BuildResult (FS : Type) := {
  br_fs : FS;
  br_data : Catalog.t;
  br_cache : BuildCache.t;
  br_copies : list Copy;
}.
Arguments br_fs {FS} _.
Arguments br_data {FS} _.
Arguments br_cache {FS} _.
Arguments br_copies {FS} _.

(** [data.models.findIndex(m => m.id === id)] *)
Fixpoint findIndex (id : string) (models : list Model.t) : option nat :=
  match models with
  | [] => None
  | m :: rest =>
      if String.eqb (Model.id m) id then Some 0
      else S <$> findIndex id rest
  end.

Definition commonCoverNames : list string :=
  ["cover"; "thumbnail"; "preview"; "main"]%string.

Section Build.
Context {PM : PathModule} {FS : Type} {FSys : FileSystem FS}.

(** [PUBLIC_IMAGES_DIR] *)
Variable PUBLIC_IMAGES_DIR : string.
(** [path.join(__dirname, '../example configs/placeholder-model.png')] *)
Variable EXAMPLE_PLACEHOLDER : string.
Variable md5hex : string -> string.
(** [JSON.stringify] on the object of [calculateModelHash] *)
Variable JSON_stringify : HashSource -> string.

Definition hashSource (model : Model.t) : HashSource :=
  {| hs_name := Model.name model;
     hs_notes := Model.notes model;
     hs_tags := Model.tags model;
     hs_collections := Model.collections model;
     hs_attributes := Model.attributes model;
     hs_sourcePath := Model.sourcePath model;
     hs_release := Model.release model;
     hs_subscription := Model.subscription model |}.

Definition calculateModelHash (model : Model.t) : string :=
  md5hex (JSON_stringify (hashSource model)).

(** [model.image && !model.image.startsWith('/images/') &&
     !model.image.startsWith('http')]: the test of [categorizeModels], and,
    with the two prefixes in the other order, of [processModelImages] *)
Definition hasRawImage (model : Model.t) : bool :=
  match Model.image model with
  | Some img =>
      truthy img && negb (startsWith img "/images/") && negb (startsWith img "http")
  | None => false
  end.

(** [model.image === '/images/placeholder-model.png'] *)
Definition hasPlaceholder (model : Model.t) : bool :=
  match Model.image model with
  | Some img => String.eqb img placeholderPath
  | None => false
  end.

(** the condition of [categorizeModels] *)
Definition isChanged (cache : gmap string CacheEntry.t) (model : Model.t) : bool :=
  match cache !! Model.id model with
  | None => true
  | Some cachedModel =>
      negb (String.eqb (CacheEntry.hash cachedModel) (calculateModelHash model))
      || hasRawImage model
      || hasPlaceholder model
  end.

Definition categorize_step (clock : BuildClock) (i : nat) (model : Model.t)
    (acc : Categorized) : Categorized :=
  if isChanged (cat_cache acc) model then
    {| newModels := newModels acc ++ [i];
       unchangedModels := unchangedModels acc;
       cat_cache :=
         <[Model.id model :=
             {| CacheEntry.hash := calculateModelHash model;
                CacheEntry.lastProcessed := lastProcessedAt clock i;
                CacheEntry.imagePath := None |}]> (cat_cache acc) |}
  else
    {| newModels := newModels acc;
       unchangedModels := unchangedModels acc ++ [i];
       cat_cache := cat_cache acc |}.

Fixpoint categorize_loop (clock : BuildClock) (i : nat) (models : list Model.t)
    (acc : Categorized) : Categorized :=
  match models with
  | [] => acc
  | model :: rest =>
      categorize_loop clock (S i) rest (categorize_step clock i model acc)
  end.

Definition categorizeModels (clock : BuildClock) (models : list Model.t)
    (cache : gmap string CacheEntry.t) : Categorized :=
  categorize_loop clock 0 models
    {| newModels := []; unchangedModels := []; cat_cache := cache |}.

(** the loop over [imageDirs] in [findAlternativeImage] *)
Fixpoint findAlternativeInImageDirs (fs : FS) (modelDir : string)
    (dirs : list string) : option string :=
  match dirs with
  | [] => None
  | imageDir :: rest =>
      let imageDirPath := join modelDir imageDir in
      if existsSync fs imageDirPath && isDirectory fs imageDirPath then
        match readdirSync fs imageDirPath with
        | Some subdirFiles =>
            match find isImageFile subdirFiles with
            | Some file => Some (join imageDirPath file)
            | None => findAlternativeInImageDirs fs modelDir rest
            end
        | None => findAlternativeInImageDirs fs modelDir rest
        end
      else findAlternativeInImageDirs fs modelDir rest
  end.

(** the file whose base name and the model name contain one another *)
Definition matchesModelName (normalizedModelName file : string) : bool :=
  let ext := toLowerCase (extname file) in
  isImageExt ext &&
  (let baseName := strip_non_alnum (toLowerCase (basename_ext file ext)) in
   includes baseName normalizedModelName || includes normalizedModelName baseName).

Definition matchesCoverName (coverName file : string) : bool :=
  let ext := toLowerCase (extname file) in
  isImageExt ext && includes (toLowerCase (basename_ext file ext)) coverName.

(** the loop over [commonCoverNames] *)
Fixpoint findCommonCover (files : list string) (names : list string)
  : option string :=
  match names with
  | [] => None
  | coverName :: rest =>
      match find (matchesCoverName coverName) files with
      | Some file => Some file
      | None => findCommonCover files rest
      end
  end.

Definition findAlternativeImage (fs : FS) (modelDir modelName : string)
  : option string :=
  if negb (existsSync fs modelDir) then None
  else
    match readdirSync fs modelDir with
    | None => None
    | Some files =>
        match find isPng files with
        | Some file => Some (join modelDir file)
        | None =>
        match (if truthy modelName
               then find (matchesModelName
                            (strip_non_alnum (toLowerCase modelName))) files
               else None) with
        | Some file => Some (join modelDir file)
        | None =>
        match findCommonCover files commonCoverNames with
        | Some file => Some (join modelDir file)
        | None =>
        match find isImageFile files with
        | Some file => Some (join modelDir file)
        | None => findAlternativeInImageDirs fs modelDir imageDirs
        end end end end
    end.

(** the placeholder asset [processModelImages] sets up first; a failure is
    logged and ignored *)
Definition ensurePlaceholder (fs : FS) : FS :=
  let placeholderImage := join PUBLIC_IMAGES_DIR "placeholder-model.png" in
  if existsSync fs placeholderImage then fs
  else
    default fs
      (if existsSync fs EXAMPLE_PLACEHOLDER
       then copyFileSync fs EXAMPLE_PLACEHOLDER placeholderImage
       else writeFileSync fs placeholderImage "Placeholder Image Data").

(** [data.models[modelIndex].image = v] *)
Definition assignImage (modelIndex : nat) (v : string) (models : list Model.t)
  : list Model.t :=
  match models !! modelIndex with
  | Some m => <[modelIndex := Model.set_image (Some v) m]> models
  | None => models
  end.

(** [if (buildCache.models[id]) buildCache.models[id].imagePath = v] *)
Definition recordImagePath (id v : string) (cache : gmap string CacheEntry.t)
  : gmap string CacheEntry.t :=
  match cache !! id with
  | Some e => <[id := CacheEntry.set_imagePath (Some v) e]> cache
  | None => cache
  end.

Definition usePlaceholder (modelIndex : nat) (st : ImageState FS) : ImageState FS :=
  {| st_fs := st_fs st;
     st_models := assignImage modelIndex placeholderPath (st_models st);
     st_cache := st_cache st;
     st_copies := st_copies st;
     copiedCount := copiedCount st;
     placeholderCount := S (placeholderCount st);
     updatedCount := S (updatedCount st);
     st_errorCount := st_errorCount st |}.

(** a copy of [source] to the publish directory for model [id]; an
    exception of [copyFileSync] lands in the [catch] of the loop body *)
Definition copyImage (modelIndex : nat) (id source : string) (st : ImageState FS)
  : ImageState FS :=
  let filename := "model-" +:+ id +:+ "-" +:+ basename source in
  let targetPath := join PUBLIC_IMAGES_DIR filename in
  match copyFileSync (st_fs st) source targetPath with
  | Some fs' =>
      {| st_fs := fs';
         st_models := assignImage modelIndex ("/images/" +:+ filename) (st_models st);
         st_cache := recordImagePath id ("/images/" +:+ filename) (st_cache st);
         st_copies := st_copies st ++
           [{| copy_id := id; copy_source := source; copy_target := targetPath |}];
         copiedCount := S (copiedCount st);
         placeholderCount := placeholderCount st;
         updatedCount := S (updatedCount st);
         st_errorCount := st_errorCount st |}
  | None =>
      {| st_fs := st_fs st;
         st_models := assignImage modelIndex placeholderPath (st_models st);
         st_cache := st_cache st;
         st_copies := st_copies st ++
           [{| copy_id := id; copy_source := source; copy_target := targetPath |}];
         copiedCount := copiedCount st;
         placeholderCount := S (placeholderCount st);
         updatedCount := S (updatedCount st);
         st_errorCount := S (st_errorCount st) |}
  end.

(** one turn of the loop of [processModelImages], for the object at index
    [idx] of [data.models] *)
Definition processModelImages_step (idx : nat) (st : ImageState FS)
  : ImageState FS :=
  match st_models st !! idx with
  | None => st
  | Some model =>
      match findIndex (Model.id model) (st_models st) with
      | None => st
      | Some modelIndex =>
          if hasRawImage model then
            let img := default ""%string (Model.image model) in
            if existsSync (st_fs st) img then
              copyImage modelIndex (Model.id model) img st
            else if truthy (Model.sourcePath model) then
              let modelDir := dirname (Model.sourcePath model) in
              match findAlternativeImage (st_fs st) modelDir (Model.name model) with
              | Some alternativeImage =>
                  if truthy alternativeImage
                  then copyImage modelIndex (Model.id model) alternativeImage st
                  else usePlaceholder modelIndex st
              | None => usePlaceholder modelIndex st
              end
            else usePlaceholder modelIndex st
          else if negb (truthy_opt (Model.image model)) then
            usePlaceholder modelIndex st
          else st
      end
  end.

Definition processModelImages (fs : FS) (data : Catalog.t)
    (modelsToProcess : list nat) (buildCache : gmap string CacheEntry.t)
  : ImageState FS :=
  foldl (fun st idx => processModelImages_step idx st)
        {| st_fs := ensurePlaceholder fs;
           st_models := Catalog.models data;
           st_cache := buildCache;
           st_copies := [];
           copiedCount := 0;
           placeholderCount := 0;
           updatedCount := 0;
           st_errorCount := 0 |}
        modelsToProcess.

(** [buildNextjsApp], on the parsed data file and build cache (the data
    file exists: the default catalog [ensureDataFileExists] writes otherwise
    is not modelled).  Steps 4 and 5 (the Next.js build and the embedding of
    the data into next.config.js) do not touch the catalog and are left
    out.  [None] is [process.exit(1)]. *)
Definition buildNextjsApp (fs : FS) (data : Catalog.t) (buildCache : BuildCache.t)
    (clock : BuildClock) : option (BuildResult FS) :=
  let cat := categorizeModels clock (Catalog.models data) (BuildCache.models buildCache) in
  fs1 ← (if existsSync fs PUBLIC_IMAGES_DIR then Some fs
         else mkdirSync fs PUBLIC_IMAGES_DIR);
  let st :=
    match newModels cat with
    | [] =>
        {| st_fs := fs1; st_models := Catalog.models data;
           st_cache := cat_cache cat; st_copies := [];
           copiedCount := 0; placeholderCount := 0; updatedCount := 0;
           st_errorCount := 0 |}
    | _ :: _ => processModelImages fs1 data (newModels cat) (cat_cache cat)
    end in
  Some {| br_fs := st_fs st;
          br_data := Catalog.set_models (st_models st) data;
          br_cache := {| BuildCache.models := st_cache st;
                         BuildCache.lastBuild := Some (lastBuildNow clock) |};
          br_copies := st_copies st |}.

End Build.

(** ** The whole pipeline *)

Section Pipeline.
Context {PM : PathModule} {FS : Type} {FSys : FileSystem FS}.
Variable ORYNT3D_DIRECTORY PUBLIC_IMAGES_DIR EXAMPLE_PLACEHOLDER : string.
Variable md5hex : string -> string.
Variable JSON_stringify : HashSource -> string.
Variable readConfig : string -> option Config.t.

(** One run of the extractor followed by one run of the build script on
    the catalog the extractor wrote (deploy.js, steps 1 and 2, when the
    extraction succeeds). *)
Definition extractThenBuild (fs : FS) (prior : option Catalog.t)
    (buildCache : BuildCache.t) (scan : Scan) (eclock : ExtractClock)
    (bclock : BuildClock) : option (BuildResult FS) :=
  data ← mainExtractModelData ORYNT3D_DIRECTORY md5hex readConfig fs prior scan eclock;
  buildNextjsApp PUBLIC_IMAGES_DIR EXAMPLE_PLACEHOLDER md5hex JSON_stringify
    fs data buildCache bclock.

End Pipeline.

(** ** Concrete hosts, to run the code on examples *)

(** A model of Node's [path.posix] on the paths of the examples. *)
Module Posix.

Definition slash : ascii := "/"%char.

Definition isSlash (o : option ascii) : bool :=
  match o with
  | Some c => Ascii.eqb c slash
  | None => false
  end.

(** the backwards scan of [posix.dirname]: indices [i], ..., [1] *)
Fixpoint dirname_scan (path : string) (i : nat) (matchedSlash : bool)
  : option nat :=
  match i with
  | O => None
  | S i' =>
      if isSlash (String.get i path) then
        if matchedSlash then dirname_scan path i' true else Some i
      else dirname_scan path i' false
  end.

Definition dirname (path : string) : string :=
  if String.eqb path "" then "."%string
  else
    let hasRoot := isSlash (String.get 0 path) in
    match dirname_scan path (String.length path - 1) true with
    | None => if hasRoot then "/"%string else "."%string
    | Some e =>
        if hasRoot && Nat.eqb e 1 then "//"%string
        else String.substring 0 e path
    end.

Fixpoint join_segments (segs : list string) : string :=
  match segs with
  | [] => EmptyString
  | [seg] => seg
  | seg :: rest => seg +:+ "/" +:+ join_segments rest
  end.

(** resolve "." and ".." over the segments read so far (kept reversed) *)
Fixpoint normalize_segments (absolute : bool) (segs rev_acc : list string)
  : list string :=
  match segs with
  | [] => rev rev_acc
  | seg :: rest =>
      if String.eqb seg "" || String.eqb seg "." then
        normalize_segments absolute rest rev_acc
      else if String.eqb seg ".." then
        match rev_acc with
        | top :: below =>
            if String.eqb top ".."
            then normalize_segments absolute rest (seg :: rev_acc)
            else normalize_segments absolute rest below
        | [] =>
            if absolute then normalize_segments absolute rest []
            else normalize_segments absolute rest [seg]
        end
      else normalize_segments absolute rest (seg :: rev_acc)
  end.

Definition normalize (path : string) : string :=
  if String.eqb path "" then "."%string
  else
    let absolute := isSlash (String.get 0 path) in
    let trailing := isSlash (String.get (String.length path - 1) path) in
    let body := join_segments (normalize_segments absolute (split slash path) []) in
    let body :=
      if String.eqb body "" then (if absolute then ""%string else "."%string)
      else if trailing then body +:+ "/" else body in
    if absolute then "/" +:+ body else body.

Definition join (a b : string) : string :=
  if String.eqb a "" then normalize b
  else if String.eqb b "" then normalize a
  else normalize (a +:+ "/" +:+ b).

(** the last segment, trailing slashes dropped *)
Definition basename (path : string) : string :=
  default ""%string
    (last (List.filter (fun seg => negb (String.eqb seg "")) (split slash path))).

Fixpoint endsWith_from (s suffix : string) (n : nat) : bool :=
  match n, s with
  | O, _ => String.eqb s suffix
  | S n', String _ s' => endsWith_from s' suffix n'
  | S _, EmptyString => false
  end.

Definition basename_ext (path ext : string) : string :=
  let b := basename path in
  let k := String.length b - String.length ext in
  if negb (String.eqb ext "") && (String.length ext <=? String.length b)%nat
     && endsWith_from b ext k
  then String.substring 0 k b
  else b.

(** the index of the last dot of [s], counted from [i] *)
Fixpoint last_dot (s : string) (i : nat) (found : option nat) : option nat :=
  match s with
  | EmptyString => found
  | String c s' =>
      last_dot s' (S i) (if Ascii.eqb c "."%char then Some i else found)
  end.

Definition extname (path : string) : string :=
  let b := basename path in
  if String.eqb b ".." then ""%string
  else
    match last_dot b 0 None with
    | Some (S i) => String.substring (S i) (String.length b - S i) b
    | _ => ""%string
    end.

Fixpoint drop_common (xs ys : list string) : list string * list string :=
  match xs, ys with
  | x :: xs', y :: ys' =>
      if String.eqb x y then drop_common xs' ys' else (xs, ys)
  | _, _ => (xs, ys)
  end.

(** [relative] between two absolute paths *)
Definition relative (from to : string) : string :=
  let segs p := List.filter (fun seg => negb (String.eqb seg ""))
                  (split slash (normalize p)) in
  let '(up, down) := drop_common (segs from) (segs to) in
  join_segments (((fun _ => ".."%string) <$> up) ++ down).

End Posix.

Definition posix : PathModule :=
  {| sep := Posix.slash;
     dirname := Posix.dirname;
     basename := Posix.basename;
     basename_ext := Posix.basename_ext;
     extname := Posix.extname;
     join := Posix.join;
     relative := Posix.relative |}.

(** A small file system: the regular files, and the directories with their
    listings. *)
Module ToyFs.

Record t := {
  files : list string;
  dirs : list (string * list string);
}.

Fixpoint listing (p : string) (ds : list (string * list string))
  : option (list string) :=
  match ds with
  | [] => None
  | (d, l) :: rest => if String.eqb d p then Some l else listing p rest
  end.

Definition isDir (fs : t) (p : string) : bool :=
  match listing p (dirs fs) with Some _ => true | None => false end.

Definition isFile (fs : t) (p : string) : bool :=
  existsb (String.eqb p) (files fs).

Definition exists_ (fs : t) (p : string) : bool := isFile fs p || isDir fs p.

Fixpoint addEntry (d name : string) (ds : list (string * list string))
  : list (string * list string) :=
  match ds with
  | [] => []
  | (d', l) :: rest =>
      if String.eqb d' d
      then (d', if existsb (String.eqb name) l then l else l ++ [name]) :: rest
      else (d', l) :: addEntry d name rest
  end.

(** create or overwrite the regular file [p]; its directory must exist *)
Definition putFile (fs : t) (p : string) : option t :=
  if isDir fs (Posix.dirname p) && negb (isDir fs p) then
    Some {| files := if isFile fs p then files fs else files fs ++ [p];
            dirs := addEntry (Posix.dirname p) (Posix.basename p) (dirs fs) |}
  else None.

Definition copy (fs : t) (src dst : string) : option t :=
  if isFile fs src then putFile fs dst else None.

Definition mkdir (fs : t) (p : string) : option t :=
  if exists_ fs p then None
  else Some {| files := files fs;
               dirs := addEntry (Posix.dirname p) (Posix.basename p) (dirs fs)
                       ++ [(p, [])] |}.

End ToyFs.

Definition toyFs : FileSystem ToyFs.t :=
  {| existsSync := ToyFs.exists_;
     readdirSync := fun fs p => ToyFs.listing p (ToyFs.dirs fs);
     isDirectory := ToyFs.isDir;
     copyFileSync := ToyFs.copy;
     writeFileSync := fun fs p _ => ToyFs.putFile fs p;
     mkdirSync := ToyFs.mkdir |}.

(** A stand-in for the digest on examples: the text itself, padded. *)
Definition toyDigest (s : string) : string := s +:+ "00000000".

(** A stand-in for [JSON.stringify] on examples. *)
Definition toyStringify (h : HashSource) : string :=
  hs_name h +:+ "|" +:+ hs_notes h +:+ "|" +:+ hs_sourcePath h +:+ "|"
  +:+ default ""%string (hs_release h) +:+ "|"
  +:+ default ""%string (hs_subscription h) +:+ "|"
  +:+ foldr (fun t acc => t +:+ "," +:+ acc) ""%string (hs_tags h) +:+ "|"
  +:+ foldr (fun t acc => t +:+ "," +:+ acc) ""%string (hs_collections h) +:+ "|"
  +:+ foldr (fun a acc => key a +:+ "=" +:+ value a +:+ "," +:+ acc) ""%string
        (hs_attributes h).

(** ** Notions the properties are stated with *)

(** The test of [findApplicableReleaseConfigs], read on segments: split on
    the separator, the segments of [releaseDir] are the leading segments of
    [modelDir]. *)
Definition leadingSegments {PM : PathModule} (releaseDir modelDir : string) : Prop :=
  split sep releaseDir `prefix_of` split sep modelDir.

Global Instance leadingSegments_dec {PM : PathModule} (releaseDir modelDir : string) :
  Decision (leadingSegments releaseDir modelDir).
Proof. unfold leadingSegments. apply _. Defined.

(** Where the segments of a path lead from the directory [dir], given by the
    names on the way from the root to it: an empty segment and "." stay,
    ".." goes up (and stays at the root), a name goes down. *)
Fixpoint walk (segs dir : list string) : list string :=
  match segs with
  | [] => dir
  | seg :: rest =>
      if String.eqb seg "" || String.eqb seg "." then walk rest dir
      else if String.eqb seg ".." then walk rest (removelast dir)
      else walk rest (dir ++ [seg])
  end.

(** the directory the path [p] names when relative paths start at [cwd]: a
    path that begins with the separator starts at the root *)
Definition leadsTo {PM : PathModule} (cwd : list string) (p : string) : list string :=
  walk (split sep p) (if startsWith p (String sep EmptyString) then [] else cwd).

(** [releaseDir] is a path-ancestor of, or equal to, [modelDir] (spec 4.3):
    wherever relative paths start, the directory [releaseDir] names lies on
    the way from the root to the directory [modelDir] names.  A root is an
    ancestor of every directory, and "." of every directory below it. *)
Definition isAncestorOrEqual {PM : PathModule} (releaseDir modelDir : string) : Prop :=
  ∀ cwd : list string, leadsTo cwd releaseDir `prefix_of` leadsTo cwd modelDir.

(** a segment that names a child *)
Definition plainName (seg : string) : Prop :=
  seg ≠ ""%string ∧ seg ≠ "."%string ∧ seg ≠ ".."%string.

(** a directory path in normal form that is neither a root nor ".": one or
    more names joined by the separator, after at most one leading
    separator *)
Definition plainDir {PM : PathModule} (p : string) : Prop :=
  ∃ names : list string,
    names ≠ [] ∧ Forall plainName names
    ∧ (split sep p = names ∨ split sep p = ""%string :: names).

(** what holds of every entry of the release map the first pass builds *)
Definition releaseEntryOk {PM : PathModule} (readConfig : string -> option Config.t)
    (entry : string * ReleaseInfo) : Prop :=
  dirPath (snd entry) = dirname (fst entry)
  ∧ readConfig (fst entry) = Some (config (snd entry))
  ∧ isReleaseConfig (config (snd entry)) = true.

(** [split]'s inverse: [segs.join(sep)] *)
Fixpoint unsplit (sep : ascii) (segs : list string) : string :=
  match segs with
  | [] => EmptyString
  | [seg] => seg
  | seg :: rest => seg +:+ String sep (unsplit sep rest)
  end.

(** the attributes, and the tags, the applicable release configs offer *)
Definition releaseAttrs (releaseConfigs : list Config.t) : list Attr :=
  rc ← releaseConfigs;
  default [] (Config.scancfg rc ≫= ScanCfg.attributes_include).

Definition releaseTags (releaseConfigs : list Config.t) : list string :=
  rc ← releaseConfigs;
  default [] (Config.scancfg rc ≫= ScanCfg.tags_include).

(** a model entry without the four fields the release merge writes *)
Definition unmerged (m : Model.t) : Model.t :=
  Model.set_tags [] (Model.set_attributes []
    (Model.set_release None (Model.set_subscription None m))).

(** What a run of appends-if-absent does to a list: [own] stays in front,
    and what is appended is new to [own], free of repetition and taken from
    [offered]; [f] is what elements are compared by. *)
Definition MergedInto {A K : Type} (f : A -> K) (own offered merged : list A) : Prop :=
  ∃ extra : list A,
    merged = own ++ extra
    ∧ (∀ x, x ∈ extra -> f x ∉ f <$> own)
    ∧ NoDup (f <$> extra)
    ∧ (∀ x, x ∈ extra -> x ∈ offered)
    ∧ (∀ k, k ∈ f <$> merged <-> k ∈ f <$> own ∨ k ∈ f <$> offered).

(** the release test in the specification's words: the include list of the
    scan attributes exists and holds an entry keyed release or subscription *)
Definition hasReleaseEntry (config : Config.t) : Prop :=
  ∃ (sc : ScanCfg.t) (incl : list Attr) (attr : Attr),
    Config.scancfg config = Some sc
    ∧ ScanCfg.attributes_include sc = Some incl
    ∧ attr ∈ incl
    ∧ (key attr = "release"%string ∨ key attr = "subscription"%string).

Section ExtractNotions.
Context {PM : PathModule} {FS : Type} {FSys : FileSystem FS}.
Variable ORYNT3D_DIRECTORY : string.
Variable md5hex : string -> string.
Variable readConfig : string -> option Config.t.

(** what the second pass adds to the catalog for the [i]-th config file *)
Definition entryOf (releaseConfigs : list (string * ReleaseInfo))
    (existingModels : gmap string string) (fs : FS) (clock : ExtractClock)
    (i : nat) (filePath : string) : option Model.t :=
  match readConfig filePath with
  | Some config =>
      if isReleaseConfig config then None
      else if isValidModelConfig config then
        processModelConfig ORYNT3D_DIRECTORY md5hex existingModels fs
          (dateAddedAt clock i) config filePath
          (findApplicableReleaseConfigs releaseConfigs filePath)
      else None
  | None => None
  end.

Fixpoint entriesFrom (releaseConfigs : list (string * ReleaseInfo))
    (existingModels : gmap string string) (fs : FS) (clock : ExtractClock)
    (i : nat) (configFiles : list string) : list Model.t :=
  match configFiles with
  | [] => []
  | filePath :: rest =>
      option_list (entryOf releaseConfigs existingModels fs clock i filePath)
      ++ entriesFrom releaseConfigs existingModels fs clock (S i) rest
  end.

(** the id and the image the extractor gives the model of a config file *)
Definition idFor (filePath : string) : string :=
  match readConfig filePath with
  | Some config =>
      match Config.modelmeta config with
      | Some mm =>
          generateStableId ORYNT3D_DIRECTORY md5hex
            (resolvedName ORYNT3D_DIRECTORY mm filePath) filePath
      | None => ""%string
      end
  | None => ""%string
  end.

Definition coverFor (filePath : string) : option string :=
  match readConfig filePath with
  | Some config =>
      match Config.modelmeta config with
      | Some mm => ModelMeta.cover mm
      | None => None
      end
  | None => None
  end.

Definition imageFor (existingModels : gmap string string) (fs : FS)
    (filePath : string) : option string :=
  initialImage existingModels fs (idFor filePath) (dirname filePath)
    (coverFor filePath).



End ExtractNotions.

(** *** The cover search, level by level *)

(** [x] is the first element of [l], in order, that satisfies [P] *)
Definition FirstIn {A : Type} (P : A -> Prop) (l : list A) (x : A) : Prop :=
  ∃ l1 l2 : list A, l = l1 ++ x :: l2 ∧ P x ∧ ∀ y, y ∈ l1 -> ¬ P y.

Definition NoneIn {A : Type} (P : A -> Prop) (l : list A) : Prop :=
  ∀ y, y ∈ l -> ¬ P y.

Section CoverNotions.
Context {PM : PathModule} {FS : Type} {FSys : FileSystem FS}.

(** the extension of [file], case-insensitively, is [ext] *)
Definition hasExtension (ext file : string) : Prop :=
  toLowerCase (extname file) = ext.

Definition pngFile (file : string) : Prop := hasExtension ".png" file.

(** a .png whose name, case-insensitively, starts with fn or contains
    preview *)
Definition preferredPng (file : string) : Prop :=
  pngFile file
  ∧ ((∃ r, toLowerCase file = "fn" +:+ r)
     ∨ (∃ a b, toLowerCase file = a +:+ "preview" +:+ b)).

Definition imageFile (file : string) : Prop :=
  ∃ ext, ext ∈ imageExtensions ∧ hasExtension ext file.

(** a cover name is configured: present and not empty *)
Definition coverConfigured (cover : option string) (c : string) : Prop :=
  cover = Some c ∧ c ≠ ""%string.

(** level 3 finds nothing: neither the configured name nor, when it has no
    extension, the name with an image extension appended exists *)
Definition noConfiguredCover (fs : FS) (modelDir : string) (cover : option string)
  : Prop :=
  ∀ c, coverConfigured cover c ->
       existsSync fs (join modelDir c) = false
       ∧ (extname c = ""%string ->
          ∀ ext, ext ∈ imageExtensions ->
                 existsSync fs (join modelDir (c +:+ ext)) = false).

(** the child [d] of the model directory is a directory listed as [sub] *)
Definition listedImageDir (fs : FS) (modelDir d : string) (sub : list string) : Prop :=
  existsSync fs (join modelDir d) = true
  ∧ isDirectory fs (join modelDir d) = true
  ∧ readdirSync fs (join modelDir d) = Some sub.

Definition imageDirWithImage (fs : FS) (modelDir d : string) : Prop :=
  ∃ sub f, listedImageDir fs modelDir d sub ∧ f ∈ sub ∧ imageFile f.

End CoverNotions.

(** *** The materializer *)

(** the indices, counted from [i], of the models that satisfy [f] *)
Fixpoint indicesWhere (f : Model.t -> bool) (i : nat) (models : list Model.t)
  : list nat :=
  match models with
  | [] => []
  | m :: rest => (if f m then [i] else []) ++ indicesWhere f (S i) rest
  end.

(** an image value that is a web path: present, and starting with the
    publish prefix /images/ or with http *)
Definition webShaped (image : option string) : Prop :=
  ∃ v, image = Some v ∧ webFriendly v = true.

(** no image value: the property is absent or the empty string *)
Definition imageless (image : option string) : Prop :=
  truthy_opt image = false.

(** What one turn of the materializer's loop may do to the state: give the
    model at index [j] a web path as its image, keep every cached hash, and
    make at most one copy, for model [id], only when [raw] is set. *)
Definition ImageEffect {FS : Type} (j : nat) (id : string) (raw : bool)
    (st st' : ImageState FS) : Prop :=
  ∃ v : string,
    webFriendly v = true
    ∧ st_models st' = match st_models st !! j with
                      | Some m => <[j := Model.set_image (Some v) m]> (st_models st)
                      | None => st_models st
                      end
    ∧ (∀ k, CacheEntry.hash <$> st_cache st' !! k = CacheEntry.hash <$> st_cache st !! k)
    ∧ (st_copies st' = st_copies st
       ∨ (raw = true ∧ ∃ c, st_copies st' = st_copies st ++ [c] ∧ copy_id c = id)).

(** [l] is [l0] after the models at the indices [processed] went through
    the materializer: those have a web path as image, the others are as
    they were, and nothing but the image field ever differs. *)
Definition Materialized (processed : list nat) (l0 l : list Model.t) : Prop :=
  length l = length l0
  ∧ ∀ j m0, l0 !! j = Some m0 ->
      ∃ m', l !! j = Some m'
            ∧ m' = Model.set_image (Model.image m') m0
            ∧ (j ∈ processed -> webShaped (Model.image m'))
            ∧ (j ∉ processed -> m' = m0).

(** The changed-test as the specification words it: no cache entry for the
    id, or a cached hash other than the model's, or an image value that is
    not a web path, or the placeholder as image. *)
Definition changedAsStated (cachedHash : option string) (modelHash : string)
    (image : option string) : Prop :=
  cachedHash = None
  ∨ (∃ h, cachedHash = Some h ∧ h ≠ modelHash)
  ∨ ¬ webShaped image
  ∨ image = Some placeholderPath.

(** The changed-test of the code: for the third case the image has to be
    there, a non-empty string that starts neither with /images/ nor with
    http. *)
Definition changedWhen (cachedHash : option string) (modelHash : string)
    (image : option string) : Prop :=
  cachedHash = None
  ∨ (∃ h, cachedHash = Some h ∧ h ≠ modelHash)
  ∨ (∃ v, image = Some v ∧ v ≠ ""%string
          ∧ startsWith v "/images/" = false ∧ startsWith v "http" = false)
  ∨ image = Some placeholderPath.

(** In state [st] every model with id [id] has the image [img], and no copy
    was made for that id. *)
Definition KeepsImage {FS : Type} (id img : string) (st : ImageState FS) : Prop :=
  (∀ j m, st_models st !! j = Some m -> Model.id m = id -> Model.image m = Some img)
  ∧ (∀ c, c ∈ st_copies st -> copy_id c ≠ id).

(** the scan statistics without the timing field *)
Definition scanCounts (s : ScanStats.t) : nat * nat * nat * nat :=
  (ScanStats.directoriesScanned s, ScanStats.totalFilesFound s,
   ScanStats.configFilesFound s, ScanStats.releaseConfigsFound s).

(** ** Example inputs *)

Module Example.

Definition root : string := "/data".
Definition releasePath : string := "/data/Collection1/config.orynt3d".
Definition goblinPath : string := "/data/Collection1/Goblin/config.orynt3d".
Definition orcPath : string := "/data/Collection1/Orc/config.orynt3d".

Definition noMeta : ModelMeta.t :=
  {| ModelMeta.name := NameNull; ModelMeta.notes := None;
     ModelMeta.tags := None; ModelMeta.collections := None;
     ModelMeta.attributes := None; ModelMeta.cover := None |}.

(** a release config: release Winter2024, tags winter and orc *)
Definition releaseDoc : Config.t :=
  {| Config.scancfg :=
       Some {| ScanCfg.attributes_include :=
                 Some [{| key := "release"; value := "Winter2024" |}];
               ScanCfg.tags_include := Some ["winter"; "orc"]%string |};
     Config.modelmeta := Some noMeta |}.

(** the same scan section in a document without a [modelmeta] section *)
Definition releaseOnlyDoc : Config.t :=
  {| Config.scancfg := Config.scancfg releaseDoc; Config.modelmeta := None |}.

(** a release-shaped document that also names a model *)
Definition namedReleaseDoc : Config.t :=
  {| Config.scancfg := Config.scancfg releaseDoc;
     Config.modelmeta :=
       Some {| ModelMeta.name := NameString "Goblin"; ModelMeta.notes := None;
               ModelMeta.tags := None; ModelMeta.collections := None;
               ModelMeta.attributes := None; ModelMeta.cover := None |} |}.

Definition goblinMeta : ModelMeta.t :=
  {| ModelMeta.name := NameString "Goblin";
     ModelMeta.notes := Some "a goblin"%string;
     ModelMeta.tags := Some ["orc"; "small"]%string;
     ModelMeta.collections := None;
     ModelMeta.attributes := Some [{| key := "release"; value := "Mine" |}];
     ModelMeta.cover := Some "cover.png"%string |}.

Definition goblinDoc : Config.t :=
  {| Config.scancfg := None; Config.modelmeta := Some goblinMeta |}.

(** a model without any image on disk *)
Definition orcMeta : ModelMeta.t :=
  {| ModelMeta.name := NameString "Orc"; ModelMeta.notes := None;
     ModelMeta.tags := None; ModelMeta.collections := None;
     ModelMeta.attributes := None; ModelMeta.cover := None |}.

Definition orcDoc : Config.t :=
  {| Config.scancfg := None; Config.modelmeta := Some orcMeta |}.

Definition readConfig (p : string) : option Config.t :=
  if String.eqb p releasePath then Some releaseDoc
  else if String.eqb p goblinPath then Some goblinDoc
  else if String.eqb p orcPath then Some orcDoc
  else None.

Definition scan : Scan :=
  {| configFiles := [releasePath; goblinPath; orcPath];
     totalDirectoriesScanned := 4;
     totalFilesFound := 4 |}.

Definition fs0 : ToyFs.t :=
  {| ToyFs.files :=
       [releasePath; goblinPath; "/data/Collection1/Goblin/cover.png"; orcPath]%string;
     ToyFs.dirs :=
       [("/data", ["Collection1"]);
        ("/data/Collection1", ["config.orynt3d"; "Goblin"; "Orc"]);
        ("/data/Collection1/Goblin", ["config.orynt3d"; "cover.png"]);
        ("/data/Collection1/Orc", ["config.orynt3d"]);
        ("/site/public", [])]%string |}.

Definition publicImages : string := "/site/public/images".
Definition examplePlaceholder : string := "/site/example configs/placeholder-model.png".

Definition clockAt (t : string) : ExtractClock :=
  {| dateAddedAt := fun _ => t; lastUpdatedNow := t; scanTime := "0.01" |}.

Definition buildClockAt (t : string) : BuildClock :=
  {| lastProcessedAt := fun _ => t; lastBuildNow := t |}.

(** a model directory that holds nothing but thumbnail.jpg *)
Definition thumbFs : ToyFs.t :=
  {| ToyFs.files := ["/m/thumbnail.jpg"]%string;
     ToyFs.dirs := [("/m", ["thumbnail.jpg"])]%string |}.

(** a catalog entry without image, and a cache that already knows it *)
Definition bareModel : Model.t :=
  {| Model.id := "orc-1a2b3c4d"; Model.name := "Orc"; Model.notes := "";
     Model.tags := []; Model.collections := []; Model.attributes := [];
     Model.sourcePath := orcPath;
     Model.relativeSourcePath := "Collection1/Orc/config.orynt3d";
     Model.dateAdded := "2024-01-01"; Model.directoryCollection := Some "Collection1"%string;
     Model.image := None; Model.release := None; Model.subscription := None |}.

Definition bareCatalog : Catalog.t :=
  {| Catalog.models := [bareModel]; Catalog.lastUpdated := "2024-01-01";
     Catalog.totalCount := 1;
     Catalog.scanStats :=
       {| ScanStats.directoriesScanned := 4; ScanStats.totalFilesFound := 4;
          ScanStats.configFilesFound := 3; ScanStats.releaseConfigsFound := 1;
          ScanStats.scanDurationSeconds := "0.01" |} |}.

Definition warmCache : BuildCache.t :=
  {| BuildCache.models :=
       {[ Model.id bareModel :=
            {| CacheEntry.hash := toyDigest (toyStringify (hashSource bareModel));
               CacheEntry.lastProcessed := "2024-01-01";
               CacheEntry.imagePath := None |} ]};
     BuildCache.lastBuild := Some "2024-01-01"%string |}.

(** the catalog the first run over the example tree leaves behind *)
Definition catalog1 : Catalog.t :=
  {| Catalog.models :=
       [ {| Model.id := "goblin-Goblin-C"; Model.name := "Goblin";
            Model.notes := "a goblin"; Model.tags := ["orc"; "small"; "winter"]%string;
            Model.collections := [];
            Model.attributes := [{| key := "release"; value := "Mine" |}];
            Model.sourcePath := goblinPath;
            Model.relativeSourcePath := "Collection1/Goblin/config.orynt3d";
            Model.dateAdded := "t1";
            Model.directoryCollection := Some "Collection1"%string;
            Model.image := Some "/images/model-goblin-Goblin-C-cover.png"%string;
            Model.release := Some "Winter2024"%string;
            Model.subscription := None |};
         {| Model.id := "orc-Orc-Coll"; Model.name := "Orc"; Model.notes := "";
            Model.tags := ["winter"; "orc"]%string; Model.collections := [];
            Model.attributes := [{| key := "release"; value := "Winter2024" |}];
            Model.sourcePath := orcPath;
            Model.relativeSourcePath := "Collection1/Orc/config.orynt3d";
            Model.dateAdded := "t1";
            Model.directoryCollection := Some "Collection1"%string;
            Model.image := Some placeholderPath;
            Model.release := Some "Winter2024"%string;
            Model.subscription := None |} ];
     Catalog.lastUpdated := "t1";
     Catalog.totalCount := 2;
     Catalog.scanStats :=
       {| ScanStats.directoriesScanned := 4; ScanStats.totalFilesFound := 4;
          ScanStats.configFilesFound := 3; ScanStats.releaseConfigsFound := 1;
          ScanStats.scanDurationSeconds := "0.01" |} |}.

(** the first run's catalog, had the Goblin's image been left a raw path *)
Definition catalogRaw : Catalog.t :=
  Catalog.set_models
    (Model.set_image (Some "/backup/goblin.png"%string) <$> Catalog.models catalog1)
    catalog1.

Definition emptyCache : BuildCache.t :=
  {| BuildCache.models := ∅; BuildCache.lastBuild := None |}.

End Example.


(** ** Further code of the repository *)

(** *** scripts/extract-model-data.js: the directory crawl *)

Definition CONFIG_FILENAME : string := "config.orynt3d".

(** An entry [fs.readdirSync(dir, { withFileTypes: true })] reports: a
    regular file, a directory, or anything else (a link, a socket).  A
    directory carries what [readdirSync] reports for it in turn, [None]
    when that call throws. *)
#[warnings="-register-all"]
Inductive Dirent :=
| DirentFile (name : string)
| DirentDirectory (name : string) (items : option (list Dirent))
| DirentOther (name : string).

(** induction over a tree of entries, with the entries of a listed directory
    covered *)
Section DirentInduction.
Variable P : Dirent -> Prop.
Hypothesis Hfile : ∀ name, P (DirentFile name).
Hypothesis Hother : ∀ name, P (DirentOther name).
Hypothesis Hdir : ∀ name listing,
  (∀ items, listing = Some items -> Forall P items) ->
  P (DirentDirectory name listing).

Fixpoint Dirent_nested_ind (item : Dirent) : P item :=
  match item with
  | DirentFile name => Hfile name
  | DirentOther name => Hother name
  | DirentDirectory name listing =>
      Hdir name listing
        (match listing as o return ∀ items, o = Some items -> Forall P items with
         | Some items0 =>
             fun items Heq =>
               eq_ind items0 (Forall P)
                 ((fix go (l : list Dirent) : Forall P l :=
                     match l with
                     | [] => Forall_nil_2 P
                     | x :: l' => Forall_cons_2 P x l' (Dirent_nested_ind x) (go l')
                     end) items0)
                 items (Some_inj _ _ Heq)
         | None => fun items Heq => match Some_ne_None _ (eq_sym Heq) with end
         end)
  end.

End DirentInduction.

(** the counters [totalDirectoriesScanned] and [totalFilesFound] *)
Record Counters := {
  dirsScanned : nat;
  filesFound : nat;
}.

Section Crawl.
Context {PM : PathModule}.

(** one turn of the loop over [items], for the entry [item] of [dir]; the
    state is [results] and the two counters *)
Fixpoint crawlItem (dir : string) (st : list string * Counters) (item : Dirent)
  : list string * Counters :=
  match item with
  | DirentDirectory name listing =>
      let fullPath := join dir name in
      let entered := {| dirsScanned := S (dirsScanned st.2);
                        filesFound := filesFound st.2 |} in
      let sub :=
        match listing with
        | Some items => foldl (crawlItem fullPath) ([], entered) items
        | None => ([], entered)
        end in
      (st.1 ++ sub.1, sub.2)
  | DirentFile name =>
      let fullPath := join dir name in
      (if String.eqb name CONFIG_FILENAME then st.1 ++ [fullPath] else st.1,
       {| dirsScanned := dirsScanned st.2; filesFound := S (filesFound st.2) |})
  | DirentOther _ => st
  end.

(** [findOrynt3dConfigFilesRecursively(dir)], where [listing] is what
    [readdirSync] reports for [dir] *)
Definition findOrynt3dConfigFilesRecursively (dir : string)
    (listing : option (list Dirent)) (counters : Counters)
  : list string * Counters :=
  let entered := {| dirsScanned := S (dirsScanned counters);
                    filesFound := filesFound counters |} in
  match listing with
  | Some items => foldl (crawlItem dir) ([], entered) items
  | None => ([], entered)
  end.

(** what [mainExtractModelData] hands on after the crawl: the counters are
    reset before it *)
Definition scanOf (root : string) (listing : option (list Dirent)) : Scan :=
  let found :=
    findOrynt3dConfigFilesRecursively root listing
      {| dirsScanned := 0; filesFound := 0 |} in
  {| configFiles := found.1;
     totalDirectoriesScanned := dirsScanned found.2;
     totalFilesFound := filesFound found.2 |}.

(** the crawl from [dir], listed as [items], comes to the directory [dir'],
    listed as [items']: every directory on the way could be read *)
Inductive Reaches : string -> list Dirent -> string -> list Dirent -> Prop :=
| Reaches_here (dir : string) (items : list Dirent) : Reaches dir items dir items
| Reaches_down (dir : string) (items : list Dirent) (name : string)
    (sub : list Dirent) (dir' : string) (items' : list Dirent) :
    DirentDirectory name (Some sub) ∈ items ->
    Reaches (join dir name) sub dir' items' ->
    Reaches dir items dir' items'.

End Crawl.

(** what a turn of the crawl's loop, for [item], adds to [results] and to
    the counters *)
Definition crawlAdds {PM : PathModule} (dir : string) (item : Dirent)
    (found : list string) (dirs files : nat) : Prop :=
  ∀ st, crawlItem dir st item
        = (st.1 ++ found,
           {| dirsScanned := dirsScanned st.2 + dirs;
              filesFound := filesFound st.2 + files |}).

(** *** Notions for the extractor *)

(** the value of the last attribute keyed [k] *)
Definition lastValueOf (k : string) (attrs : list Attr) : option string :=
  value <$> last (filter (fun a => key a = k) attrs).

Section FileNotions.
Variable readConfig : string -> option Config.t.

(** the file parses to a document the second pass takes for a model *)
Definition isModelFile (filePath : string) : bool :=
  match readConfig filePath with
  | Some config =>
      match classify config with
      | IsModel => true
      | _ => false
      end
  | None => false
  end.

(** the second pass adds an entry for the file *)
Definition isCatalogued (filePath : string) : bool :=
  isModelFile filePath && truthy filePath.

(** the second pass counts an error for the file: it cannot be read or
    parsed, or it is a model document under an empty path *)
Definition isFailure (filePath : string) : bool :=
  match readConfig filePath with
  | Some _ => isModelFile filePath && negb (truthy filePath)
  | None => true
  end.

End FileNotions.

(** what the prior catalog's entry [model] has [loadExistingDataFile]
    remember under the id [k] *)
Definition remembered (k : string) (model : Model.t) : option string :=
  match Model.image model with
  | Some img =>
      if String.eqb (Model.id model) k && truthy (Model.id model) && truthy img
      then Some img else None
  | None => None
  end.

(** every character of [s] satisfies [p] *)
Fixpoint all_chars (p : ascii -> bool) (s : string) : bool :=
  match s with
  | EmptyString => true
  | String c s' => p c && all_chars p s'
  end.

(** a character of ASCII *)
Definition is_ascii (c : ascii) : bool := (nat_of_ascii c <? 128)%nat.

(** The character of the id's slug that stands for the character [c] of the
    name: a capital letter A-Z gives its small letter, a small letter a-z
    and a digit 0-9 give themselves, every other character gives a dash. *)
Definition slugChar (c : ascii) : ascii :=
  let n := nat_of_ascii c in
  if (65 <=? n)%nat && (n <=? 90)%nat then ascii_of_nat (n + 32)
  else if ((97 <=? n)%nat && (n <=? 122)%nat) || ((48 <=? n)%nat && (n <=? 57)%nat)
       then c
       else "-"%char.

(** a lower-case hexadecimal digit *)
Definition is_hex (c : ascii) : bool :=
  is_digit c || (let n := nat_of_ascii c in (97 <=? n)%nat && (n <=? 102)%nat).

(** a lower-case letter, a digit or a dash *)
Definition is_id_char (c : ascii) : bool :=
  is_lower c || is_digit c || Ascii.eqb c "-"%char.

(** the file parses to a release config *)
Definition isReleaseFile (readConfig : string -> option Config.t)
    (filePath : string) : bool :=
  match readConfig filePath with
  | Some config => isReleaseConfig config
  | None => false
  end.

(** what the crawl finds of [item], an entry of [dir] *)
Definition FoundAt {PM : PathModule} (dir : string) (item : Dirent) (p : string)
  : Prop :=
  (item = DirentFile CONFIG_FILENAME ∧ p = join dir CONFIG_FILENAME)
  ∨ ∃ (name : string) (sub : list Dirent) (dir' : string) (items' : list Dirent),
      item = DirentDirectory name (Some sub)
      ∧ Reaches (join dir name) sub dir' items'
      ∧ DirentFile CONFIG_FILENAME ∈ items'
      ∧ p = join dir' CONFIG_FILENAME.

(** ** Further example inputs *)

Module Samples.

(** the source tree of [Example.fs0], as the crawl sees it *)
Definition tree : list Dirent :=
  [DirentDirectory "Collection1"
     (Some [DirentFile "config.orynt3d";
            DirentDirectory "Goblin"
              (Some [DirentFile "config.orynt3d"; DirentFile "cover.png"]);
            DirentDirectory "Orc" (Some [DirentFile "config.orynt3d"])])].

(** a digest that answers in hexadecimal digits *)
Definition hexDigest (s : string) : string :=
  if String.eqb s "" then "d41d8cd98f00b204e9800998ecf8427e"
  else "0cc175b9c0f1b6a831c399e269772661".

(** a scan started in the working directory, [ORYNT3D_DIR=.]: the crawl
    joins "." and the names below it, so the config file of the scan root
    is config.orynt3d and its directory is "." *)
Definition rootReleasePath : string := "config.orynt3d".
Definition rootGoblinPath : string := "Collection1/Goblin/config.orynt3d".

Definition rootReadConfig (p : string) : option Config.t :=
  if String.eqb p rootReleasePath then Some Example.releaseDoc
  else if String.eqb p rootGoblinPath then Some Example.goblinDoc
  else None.

(** the same tree scanned as /data *)
Definition dataReleasePath : string := "/data/config.orynt3d".

Definition dataReadConfig (p : string) : option Config.t :=
  if String.eqb p dataReleasePath then Some Example.releaseDoc
  else if String.eqb p Example.goblinPath then Some Example.goblinDoc
  else None.

(** the tags of the catalog entries a scan of [files] from [root] gives *)
Definition tagsOfScan (root : string) (readConfig : string -> option Config.t)
    (files : list string) : list (list string) :=
  Model.tags <$>
    models (@processModelConfigs posix ToyFs.t toyFs root toyDigest readConfig
              (@analyzeConfigFiles posix readConfig files) ∅ Example.fs0
              (Example.clockAt "t1") files).

(** model directories for the cover search: /cover holds notes.txt, a.gif
    and cover.jpeg; /sub holds no image of its own but four children, of
    which images is a directory without image, thumbnails a directory with
    icon.webp, and preview and previews directories with an image each;
    /deep has an image only in previews; /file has a regular file named
    images and a directory preview with an image; /none has no image
    anywhere *)
Definition coverFs : ToyFs.t :=
  {| ToyFs.files :=
       ["/cover/notes.txt"; "/cover/a.gif"; "/cover/cover.jpeg";
        "/sub/readme.md"; "/sub/images/list.txt"; "/sub/thumbnails/icon.webp";
        "/sub/preview/front.jpeg"; "/sub/previews/back.png";
        "/deep/previews/notes.txt"; "/deep/previews/Shot.GIF";
        "/file/images"; "/file/preview/p.jpg";
        "/none/model.stl"; "/none/images/list.txt"]%string;
     ToyFs.dirs :=
       [("/cover", ["notes.txt"; "a.gif"; "cover.jpeg"]);
        ("/sub", ["readme.md"; "images"; "thumbnails"; "preview"; "previews"]);
        ("/sub/images", ["list.txt"]);
        ("/sub/thumbnails", ["icon.webp"]);
        ("/sub/preview", ["front.jpeg"]);
        ("/sub/previews", ["back.png"]);
        ("/deep", ["previews"; "renders"]);
        ("/deep/previews", ["notes.txt"; "Shot.GIF"]);
        ("/deep/renders", ["r.png"]);
        ("/file", ["images"; "preview"]);
        ("/file/preview", ["p.jpg"]);
        ("/none", ["model.stl"; "images"]);
        ("/none/images", ["list.txt"])]%string |}.

End Samples.

(** *** Notions for the build script *)

(** the file name an image is published under *)
Definition publishedName {PM : PathModule} (id source : string) : string :=
  "model-" +:+ id +:+ "-" +:+ basename source.

(** Where the image of the entry [m'] comes from, [m0] being the entry the
    build started with: nothing was done to it, or it is the placeholder,
    or it is the web path of a file copied for the model, to the publish
    directory, under the name made of the id and the source's base name. *)
Definition ImageProvenance {PM : PathModule} (PUBLIC_IMAGES_DIR : string)
    (copies : list Copy) (m0 m' : Model.t) : Prop :=
  m' = m0
  ∨ Model.image m' = Some placeholderPath
  ∨ ∃ c, c ∈ copies ∧ copy_id c = Model.id m0
         ∧ copy_target c
           = join PUBLIC_IMAGES_DIR (publishedName (Model.id m0) (copy_source c))
         ∧ Model.image m'
           = Some ("/images/" +:+ publishedName (Model.id m0) (copy_source c)).

(** the counters of the materializer agree with one another: every update
    is a copy or a placeholder, every error ended in a placeholder, and
    every call of [copyFileSync] for an image returned or threw *)
Definition countersAgree {FS : Type} (st : ImageState FS) : Prop :=
  copiedCount st + placeholderCount st = updatedCount st
  ∧ st_errorCount st ≤ placeholderCount st
  ∧ length (st_copies st) = copiedCount st + st_errorCount st.

(** in state [st] the ids are those of the catalog [l0] the build started
    with, every copy made went to the publish directory under the name made
    of the id and the source's base name, and every entry's image is
    accounted for *)
Definition provenanceOk {PM : PathModule} {FS : Type} (PUBLIC_IMAGES_DIR : string)
    (l0 : list Model.t) (st : ImageState FS) : Prop :=
  Model.id <$> st_models st = Model.id <$> l0
  ∧ (∀ c, c ∈ st_copies st ->
          copy_target c
          = join PUBLIC_IMAGES_DIR (publishedName (copy_id c) (copy_source c))
          ∧ copy_id c ∈ Model.id <$> l0)
  ∧ ∀ j m0 m', l0 !! j = Some m0 -> st_models st !! j = Some m' ->
      ImageProvenance PUBLIC_IMAGES_DIR (st_copies st) m0 m'.

(** ** pages/index.js: the gallery page

    The computations of the page component on the catalog it is given: the
    filter options it offers, the filter, the toggling of a filter value,
    the grouping and the stepping through the models.  React state is
    passed explicitly; rendering is not modelled.  The catalog entries are
    the ones the extractor writes: [tags] is always an array. *)

Module Gallery.

(** the state [filterOptions], and the shape of [availableFilters] *)
Record FilterOptions := {
  releases : list string;
  subscriptions : list string;
  tags : list string;
}.

(** [set.add(x)] on a [Set] kept in insertion order *)
Definition setAdd (x : string) (s : list string) : list string :=
  if existsb (String.eqb x) s then s else s ++ [x].

(** [array.sort()] on strings: ascending by code units *)
Fixpoint insertSorted (x : string) (l : list string) : list string :=
  match l with
  | [] => [x]
  | y :: rest => if String.leb x y then x :: l else y :: insertSorted x rest
  end.

Definition sortStrings (l : list string) : list string :=
  foldr insertSorted [] l.

(** the three sets [processModelData] fills, before they are sorted *)
Definition collectFilters (models : list Model.t) : FilterOptions :=
  foldl (fun acc model =>
           {| releases :=
                match Model.release model with
                | Some release =>
                    if truthy release then setAdd release (releases acc)
                    else releases acc
                | None => releases acc
                end;
              subscriptions :=
                match Model.subscription model with
                | Some subscription =>
                    if truthy subscription then setAdd subscription (subscriptions acc)
                    else subscriptions acc
                | None => subscriptions acc
                end;
              tags := foldl (fun tags tag => setAdd tag tags) (tags acc)
                        (Model.tags model) |})
        {| releases := []; subscriptions := []; tags := [] |} models.

(** [availableFilters] as [processModelData] sets it *)
Definition availableFilters (models : list Model.t) : FilterOptions :=
  {| releases := sortStrings (releases (collectFilters models));
     subscriptions := sortStrings (subscriptions (collectFilters models));
     tags := sortStrings (tags (collectFilters models)) |}.

(** [selected.includes(v)] for a property [v] that may be absent *)
Definition includesProperty (selected : list string) (v : option string) : bool :=
  match v with
  | Some s => existsb (String.eqb s) selected
  | None => false
  end.

(** the callback of [modelData.models.filter] *)
Definition passesFilters (filterOptions : FilterOptions) (model : Model.t) : bool :=
  if negb (Nat.eqb (length (releases filterOptions)) 0)
     && negb (includesProperty (releases filterOptions) (Model.release model))
  then false
  else if negb (Nat.eqb (length (subscriptions filterOptions)) 0)
          && negb (includesProperty (subscriptions filterOptions)
                     (Model.subscription model))
  then false
  else if negb (Nat.eqb (length (tags filterOptions)) 0) then
    if negb (forallb (fun tag => existsb (String.eqb tag) (Model.tags model))
               (tags filterOptions))
    then false else true
  else true.

(** [filteredModels] after the filter effect ran (for an empty catalog the
    effect returns early and [filteredModels] stays the empty list) *)
Definition applyFilters (filterOptions : FilterOptions) (models : list Model.t)
  : list Model.t :=
  List.filter (passesFilters filterOptions) models.

(** the first argument of [toggleFilter], as the page calls it *)
Inductive FilterType := Releases | Subscriptions | Tags.

Global Instance FilterType_eq_dec : EqDecision FilterType.
Proof. solve_decision. Defined.

Definition getFilter (filterType : FilterType) (fo : FilterOptions) : list string :=
  match filterType with
  | Releases => releases fo
  | Subscriptions => subscriptions fo
  | Tags => tags fo
  end.

Definition setFilter (filterType : FilterType) (v : list string) (fo : FilterOptions)
  : FilterOptions :=
  match filterType with
  | Releases =>
      {| releases := v; subscriptions := subscriptions fo; tags := tags fo |}
  | Subscriptions =>
      {| releases := releases fo; subscriptions := v; tags := tags fo |}
  | Tags =>
      {| releases := releases fo; subscriptions := subscriptions fo; tags := v |}
  end.

(** [array.indexOf(value)]; [None] is -1 *)
Fixpoint indexOf (value : string) (l : list string) : option nat :=
  match l with
  | [] => None
  | x :: rest => if String.eqb x value then Some 0 else S <$> indexOf value rest
  end.

(** the state update of [toggleFilter] *)
Definition toggleFilter (filterType : FilterType) (value : string)
    (prev : FilterOptions) : FilterOptions :=
  let currentValues := getFilter filterType prev in
  match indexOf value currentValues with
  | None => setFilter filterType (currentValues ++ [value]) prev
  | Some index => setFilter filterType (delete index currentValues) prev
  end.

Definition clearFilters : FilterOptions :=
  {| releases := []; subscriptions := []; tags := [] |}.

(** the argument of [navigateModel]: 'next', or anything else *)
Inductive Direction := Next | Prev.

(** [navigateModel]: the selected model afterwards *)
Definition navigateModel (direction : Direction) (selectedModel : option Model.t)
    (filteredModels : list Model.t) : option Model.t :=
  match selectedModel with
  | None => None
  | Some selected =>
      if (length filteredModels <=? 1)%nat then selectedModel
      else
        match findIndex (Model.id selected) filteredModels with
        | None => selectedModel
        | Some currentIndex =>
            let len := Z.of_nat (length filteredModels) in
            let nextIndex :=
              match direction with
              | Next => ((Z.of_nat currentIndex + 1) mod len)%Z
              | Prev => ((Z.of_nat currentIndex - 1 + len) mod len)%Z
              end in
            filteredModels !! Z.to_nat nextIndex
        end
  end.

(** the values of the grouping select *)
Inductive GroupBy := GroupNone | GroupSubscription | GroupRelease.

(** the properties every object literal inherits from [Object.prototype];
    all of them are truthy *)
Definition objectPrototypeKeys : list string :=
  ["constructor"; "__defineGetter__"; "__defineSetter__"; "hasOwnProperty";
   "__lookupGetter__"; "__lookupSetter__"; "isPrototypeOf";
   "propertyIsEnumerable"; "toString"; "valueOf"; "__proto__";
   "toLocaleString"]%string.

(** [model[groupByProperty] || 'Uncategorized'] *)
Definition groupKey (groupBy : GroupBy) (model : Model.t) : string :=
  let property :=
    match groupBy with
    | GroupSubscription => Model.subscription model
    | GroupRelease => Model.release model
    | GroupNone => None
    end in
  match property with
  | Some s => if truthy s then s else "Uncategorized"%string
  | None => "Uncategorized"%string
  end.

(** [groupModels]: the own properties of the object it returns, each with
    its array.  [None] is the TypeError of [groups[key].push] when [key]
    names an inherited property: [groups[key]] is then truthy without
    being an array of [groups]. *)
Definition groupModels (models : list Model.t) (groupBy : GroupBy)
  : option (gmap string (list Model.t)) :=
  match groupBy with
  | GroupNone => Some {[ "All Models"%string := models ]}
  | _ =>
      foldl (fun (acc : option (gmap string (list Model.t))) model =>
               groups ← acc;
               let key := groupKey groupBy model in
               match groups !! key with
               | Some group => Some (<[key := group ++ [model]]> groups)
               | None =>
                   if existsb (String.eqb key) objectPrototypeKeys then None
                   else Some (<[key := [model]]> groups)
               end)
            (Some ∅) models
  end.

(** [l] is in ascending order *)
Fixpoint ascending (l : list string) : Prop :=
  match l with
  | [] => True
  | x :: rest =>
      match rest with
      | [] => True
      | y :: _ => String.leb x y = true
      end ∧ ascending rest
  end.

(** the models of [models] grouped under [k], in their order *)
Definition groupOf (groupBy : GroupBy) (k : string) (models : list Model.t)
  : list Model.t :=
  filter (fun model => groupKey groupBy model = k) models.

(** [groups] holds, under every key, the models of [models] with that key,
    and no empty group *)
Definition GroupsOf (groupBy : GroupBy) (models : list Model.t)
    (groups : gmap string (list Model.t)) : Prop :=
  ∀ k, groups !! k = match groupOf groupBy k models with
                     | [] => None
                     | group => Some group
                     end.

End Gallery.


(** * Properties *)

(** ** Strings *)

Lemma append_cons (c : ascii) (s t : string) : String c s +:+ t = String c (s +:+ t).
Proof. reflexivity. Qed.

Lemma append_nil_l (t : string) : "" +:+ t = t.
Proof. reflexivity. Qed.

Ltac simpl_append := rewrite ?append_cons, ?append_nil_l in *.

Lemma append_nil_r (s : string) : s +:+ "" = s.
Proof. induction s as [|c s IH]; simpl_append; [done | by rewrite IH]. Qed.

Lemma append_assoc (s1 s2 s3 : string) : (s1 +:+ s2) +:+ s3 = s1 +:+ (s2 +:+ s3).
Proof. induction s1 as [|c s1 IH]; simpl_append; [done | by rewrite IH]. Qed.

Lemma ascii_eqb_true (c d : ascii) : Ascii.eqb c d = true <-> c = d.
Proof. apply Ascii.eqb_eq. Qed.

Lemma string_eqb_true (s t : string) : String.eqb s t = true <-> s = t.
Proof. apply String.eqb_eq. Qed.

Lemma string_eqb_false (s t : string) : String.eqb s t = false <-> s ≠ t.
Proof. apply String.eqb_neq. Qed.

Lemma startsWith_spec (s p : string) :
  startsWith s p = true <-> ∃ r, s = p +:+ r.
Proof.
  revert s. induction p as [|c p IH]; intros s; simpl.
  - split; [intros _; by exists s | done].
  - destruct s as [|d s].
    + split; [done | intros [r Hr]; simpl_append; discriminate].
    + rewrite andb_true_iff, ascii_eqb_true, IH. split.
      * intros [-> [r ->]]. by exists r.
      * intros [r Hr]. simpl_append. injection Hr as -> ->. eauto.
Qed.

Lemma startsWith_app (p r : string) : startsWith (p +:+ r) p = true.
Proof. apply startsWith_spec. by exists r. Qed.

Lemma startsWith_nonempty (s p : string) :
  startsWith s p = true -> p ≠ ""%string -> s ≠ ""%string.
Proof. destruct p, s; simpl; congruence. Qed.

Lemma truthy_true (s : string) : truthy s = true <-> s ≠ ""%string.
Proof. unfold truthy. rewrite negb_true_iff. apply string_eqb_false. Qed.

Lemma webFriendly_truthy (p : string) : webFriendly p = true -> truthy p = true.
Proof.
  unfold webFriendly. intros H. apply truthy_true.
  apply orb_true_iff in H as [H|H]; by eapply startsWith_nonempty.
Qed.

Lemma split_nonempty (c : ascii) (s : string) : split c s ≠ [].
Proof.
  induction s as [|d s IH]; simpl; [done|].
  destruct (Ascii.eqb d c); [done|]. by destruct (split c s).
Qed.

Lemma split_app_sep (c : ascii) (r rest : string) :
  split c (r +:+ String c rest) = split c r ++ split c rest.
Proof.
  induction r as [|d r IH]; simpl_append; simpl.
  - by rewrite Ascii.eqb_refl.
  - destruct (Ascii.eqb d c); [by rewrite IH|].
    rewrite IH. pose proof (split_nonempty c r).
    by destruct (split c r).
Qed.

Lemma unsplit_cons2 (c : ascii) (x y : string) (l : list string) :
  unsplit c (x :: y :: l) = x +:+ String c (unsplit c (y :: l)).
Proof. reflexivity. Qed.

Lemma unsplit_split (c : ascii) (s : string) : unsplit c (split c s) = s.
Proof.
  induction s as [|d s IH]; simpl; [done|].
  pose proof (split_nonempty c s) as Hne.
  destruct (Ascii.eqb d c) eqn:Hd.
  - apply ascii_eqb_true in Hd as ->.
    destruct (split c s) as [|seg rest]; [done|].
    rewrite unsplit_cons2, IH. by simpl_append.
  - destruct (split c s) as [|seg rest]; [done|].
    destruct rest as [|seg' rest].
    + simpl in *. by rewrite IH.
    + rewrite unsplit_cons2 in *. simpl_append. by rewrite IH.
Qed.

Lemma unsplit_app (c : ascii) (xs ys : list string) :
  xs ≠ [] -> ys ≠ [] ->
  unsplit c (xs ++ ys) = unsplit c xs +:+ String c (unsplit c ys).
Proof.
  intros Hx Hy. induction xs as [|x xs IH]; [done|].
  destruct xs as [|x' xs].
  - destruct ys as [|y ys]; [done|]. apply unsplit_cons2.
  - change ((x :: x' :: xs) ++ ys) with (x :: x' :: (xs ++ ys)).
    rewrite !unsplit_cons2. change (x' :: xs ++ ys) with ((x' :: xs) ++ ys).
    rewrite IH by done. by rewrite append_assoc.
Qed.

(** ** Release inheritance: which releases apply *)

Section Applies.
Context {PM : PathModule}.

Lemma appliesTo_iff (releaseDir modelDir : string) :
  appliesTo releaseDir modelDir = true <-> leadingSegments releaseDir modelDir.
Proof.
  unfold appliesTo, leadingSegments, sepStr.
  rewrite orb_true_iff, string_eqb_true, startsWith_spec. split.
  - intros [-> | [r ->]]; [done|].
    rewrite append_assoc. simpl_append. rewrite split_app_sep. by eexists.
  - intros [k Hk]. destruct k as [|x k].
    + left. rewrite app_nil_r in Hk.
      by rewrite <- (unsplit_split sep modelDir), Hk, unsplit_split.
    + right. exists (unsplit sep (x :: k)).
      rewrite <- (unsplit_split sep modelDir), Hk.
      rewrite unsplit_app by (done || apply split_nonempty).
      rewrite unsplit_split, append_assoc. by simpl_append.
Qed.

Lemma findApplicable_foldl (modelDir : string)
    (releaseConfigs : list (string * ReleaseInfo)) (acc : list Config.t) :
  foldl (fun applicableConfigs entry =>
           if appliesTo (dirPath (snd entry)) modelDir
           then applicableConfigs ++ [config (snd entry)]
           else applicableConfigs) acc releaseConfigs
  = acc ++ (config <$>
              filter (fun info => leadingSegments (dirPath info) modelDir)
                     (snd <$> releaseConfigs)).
Proof.
  revert acc. induction releaseConfigs as [|[p info] rcs IH]; intros acc; simpl.
  - by rewrite app_nil_r.
  - rewrite IH. rewrite filter_cons.
    destruct (appliesTo (dirPath info) modelDir) eqn:Happ.
    + apply appliesTo_iff in Happ. rewrite decide_True by done.
      by rewrite <- app_assoc.
    + rewrite decide_False; [done|].
      intros Hanc%appliesTo_iff. congruence.
Qed.

End Applies.


Section ReleaseMap.
Context {PM : PathModule}.
Variable readConfig : string -> option Config.t.

Lemma map_set_Forall {V : Type} (P : string * V -> Prop) k v (m : list (string * V)) :
  P (k, v) -> Forall P m -> Forall P (map_set k v m).
Proof.
  intros Hkv. induction 1 as [|[k' v'] m Hx Hm IH]; simpl.
  - by constructor.
  - destruct (String.eqb k k'); constructor; auto.
Qed.

Lemma analyzeConfigFiles_entries (configFiles : list string) :
  Forall (releaseEntryOk readConfig) (analyzeConfigFiles readConfig configFiles).
Proof.
  unfold analyzeConfigFiles.
  assert (Forall (releaseEntryOk readConfig) []) as Hacc by constructor.
  revert Hacc. generalize (@nil (string * ReleaseInfo)) as acc.
  induction configFiles as [|p files IH]; intros acc Hacc; simpl; [done|].
  apply IH. destruct (readConfig p) as [cfg|] eqn:Hread; [|done].
  destruct (isReleaseConfig cfg) eqn:Hrel; [|done].
  apply map_set_Forall; [|done]. by repeat split.
Qed.

End ReleaseMap.

(** ** Path ancestry and the test of the code *)

Lemma walk_plain (names dir : list string) :
  Forall plainName names -> walk names dir = dir ++ names.
Proof.
  intros Hall. revert dir.
  induction Hall as [|seg names (Hne & Hdot & Hup) _ IH]; intros dir; simpl.
  - by rewrite app_nil_r.
  - apply String.eqb_neq in Hne, Hdot, Hup. rewrite Hne, Hdot, Hup. simpl.
    by rewrite IH, <- app_assoc.
Qed.

Lemma startsWith_sep_split (c : ascii) (p : string) :
  startsWith p (String c EmptyString)
  = match split c p with
    | EmptyString :: _ :: _ => true
    | _ => false
    end.
Proof.
  destruct p as [|d p]; simpl; [done|].
  rewrite andb_true_r, Ascii.eqb_sym.
  pose proof (split_nonempty c p) as Hne.
  destruct (Ascii.eqb d c); by destruct (split c p).
Qed.

(** a name that differs from the given one *)
Lemma other_name (y : string) : String "x" y ≠ y.
Proof.
  intros H. apply (f_equal String.length) in H. simpl in H.
  symmetry in H. by apply n_Sn in H.
Qed.

Section Ancestry.
Context {PM : PathModule}.

Lemma findApplicable_filter (releaseConfigs : list (string * ReleaseInfo))
    (modelConfigPath : string) :
  findApplicableReleaseConfigs releaseConfigs modelConfigPath
  = config <$>
      filter (fun info => appliesTo (dirPath info) (dirname modelConfigPath) = true)
             (snd <$> releaseConfigs).
Proof.
  unfold findApplicableReleaseConfigs. cbv zeta. rewrite findApplicable_foldl.
  simpl. f_equal. apply list_filter_iff. intros info. symmetry. apply appliesTo_iff.
Qed.

(** where a plain directory leads: its names, below the root when it starts
    with the separator and below the working directory when it does not *)
Lemma leadsTo_plainDir (p : string) :
  plainDir p ->
  ∃ (seg : string) (rest : list string),
    Forall plainName (seg :: rest)
    ∧ ((split sep p = seg :: rest ∧ ∀ cwd, leadsTo cwd p = cwd ++ seg :: rest)
       ∨ (split sep p = ""%string :: seg :: rest
          ∧ ∀ cwd, leadsTo cwd p = seg :: rest)).
Proof.
  intros (names & Hne & Hall & Hsplit).
  destruct names as [|seg rest]; [done|]. exists seg, rest. split; [done|].
  destruct Hsplit as [Hs|Hs]; [left|right]; (split; [done|]); intros cwd;
    unfold leadsTo; rewrite startsWith_sep_split, Hs.
  - apply Forall_cons in Hall as Hhd. destruct Hhd as [(Hseg & _) _].
    destruct seg as [|a seg]; [done|]. by rewrite walk_plain.
  - change (walk ("" :: seg :: rest) []) with (walk (seg :: rest) []).
    by rewrite walk_plain.
Qed.

(** on plain directories the code's test is path ancestry *)
Lemma appliesTo_plain (releaseDir modelDir : string) :
  plainDir releaseDir -> plainDir modelDir ->
  appliesTo releaseDir modelDir = true <-> isAncestorOrEqual releaseDir modelDir.
Proof.
  intros (r & rs & Hr & Hrl)%leadsTo_plainDir (m & ms & Hm & Hml)%leadsTo_plainDir.
  rewrite appliesTo_iff. unfold leadingSegments, isAncestorOrEqual.
  apply Forall_cons in Hr as [(Hr0 & _) _]. apply Forall_cons in Hm as [(Hm0 & _) _].
  destruct Hrl as [[Hrs Hrc]|[Hrs Hrc]], Hml as [[Hms Hmc]|[Hms Hmc]];
    rewrite Hrs, Hms; split.
  - intros Hp cwd. rewrite Hrc, Hmc. by apply prefix_app.
  - intros Hp. specialize (Hp []). by rewrite Hrc, Hmc in Hp.
  - intros Hp%prefix_cons_inv_1. done.
  - intros Hp. specialize (Hp [String "x" m]). rewrite Hrc, Hmc in Hp.
    apply prefix_cons_inv_1 in Hp. by apply other_name in Hp.
  - intros Hp%prefix_cons_inv_1. done.
  - intros Hp. specialize (Hp [String "x" r]). rewrite Hrc, Hmc in Hp.
    apply prefix_cons_inv_1 in Hp. symmetry in Hp. by apply other_name in Hp.
  - intros Hp%prefix_cons_inv_2 cwd. by rewrite Hrc, Hmc.
  - intros Hp. specialize (Hp []). rewrite Hrc, Hmc in Hp. by apply prefix_cons.
Qed.

End Ancestry.

(** C3.  The release configs applicable to a model config are, in the order
    of the release map, the recorded ones whose governed directory passes
    the test of the code: the model's directory is that directory, or
    starts with it followed by the separator; the governed directory of a
    recorded release is the directory of its config file.  For directories
    in normal form other than a root and ".", the test is path ancestry: it
    passes exactly when the governed directory is an ancestor of, or equal
    to, the model's directory.  On POSIX paths, a release governing /foo
    applies to no model directory that continues /foo-bar, and a release
    governing /A applies to the model at /A/B/model and not to the one at
    /C/model.  For a governed directory that is a root or ".", the test
    fails on every directory below it: the root / is an ancestor of /A/B,
    and "." of Collection1/Goblin, yet a release config that lies in the
    scan root "." (or in /) is applicable to no model config below it.  So
    one tree, with a release config in its top directory, gives the Goblin
    the release's tag winter when it is scanned as /data, and does not when
    it is scanned as ".". *)
Theorem applicable_iff_ancestor_or_equal :
  (∀ (PM : PathModule) (releaseConfigs : list (string * ReleaseInfo))
     (modelConfigPath : string),
      findApplicableReleaseConfigs releaseConfigs modelConfigPath
      = config <$>
          filter (fun info =>
                    appliesTo (dirPath info) (dirname modelConfigPath) = true)
                 (snd <$> releaseConfigs))
  ∧ (∀ (PM : PathModule) (readConfig : string -> option Config.t)
       (configFiles : list string) (entry : string * ReleaseInfo),
        entry ∈ analyzeConfigFiles readConfig configFiles ->
        dirPath (snd entry) = dirname (fst entry))
  ∧ (∀ (PM : PathModule) (releaseDir modelDir : string),
        plainDir releaseDir -> plainDir modelDir ->
        appliesTo releaseDir modelDir = true
        ↔ isAncestorOrEqual releaseDir modelDir)
  ∧ (∀ rest : string, @appliesTo posix "/foo" ("/foo-bar" +:+ rest) = false)
  ∧ (∀ c : Config.t,
        @findApplicableReleaseConfigs posix
          [("/A/config.orynt3d"%string,
            {| config := c; dirPath := @dirname posix "/A/config.orynt3d" |})]
          "/A/B/model/config.orynt3d" = [c]
        ∧ @findApplicableReleaseConfigs posix
            [("/A/config.orynt3d"%string,
              {| config := c; dirPath := @dirname posix "/A/config.orynt3d" |})]
            "/C/model/config.orynt3d" = [])
  ∧ (@isAncestorOrEqual posix "/" "/A/B"
     ∧ @appliesTo posix "/" "/A/B" = false
     ∧ @isAncestorOrEqual posix "." "Collection1/Goblin"
     ∧ @appliesTo posix "." "Collection1/Goblin" = false)
  ∧ (@dirname posix Samples.rootReleasePath = "."%string
     ∧ @dirname posix Samples.rootGoblinPath = "Collection1/Goblin"%string
     ∧ @analyzeConfigFiles posix Samples.rootReadConfig
         [Samples.rootReleasePath; Samples.rootGoblinPath]
       = [(Samples.rootReleasePath,
           {| config := Example.releaseDoc; dirPath := "." |})]
     ∧ @findApplicableReleaseConfigs posix
         (@analyzeConfigFiles posix Samples.rootReadConfig
            [Samples.rootReleasePath; Samples.rootGoblinPath])
         Samples.rootGoblinPath = [])
  ∧ (Samples.tagsOfScan "/data" Samples.dataReadConfig
       [Samples.dataReleasePath; Example.goblinPath]
     = [["orc"; "small"; "winter"]%string]
     ∧ Samples.tagsOfScan "." Samples.rootReadConfig
         [Samples.rootReleasePath; Samples.rootGoblinPath]
       = [["orc"; "small"]%string]).
Proof.
  split; [|split; [|split; [|split; [|split; [|split; [|split]]]]]].
  - intros PM rcs p. apply findApplicable_filter.
  - intros PM readConfig files entry Hin.
    pose proof (analyzeConfigFiles_entries readConfig files) as Hall.
    rewrite Forall_forall in Hall. by destruct (Hall _ Hin).
  - intros PM r m. apply appliesTo_plain.
  - intros rest. reflexivity.
  - intros c. split; reflexivity.
  - split; [|split; [|split]]; [|reflexivity| |reflexivity]; intros cwd.
    + apply prefix_nil.
    + exists ["Collection1"; "Goblin"]%string. unfold leadsTo. simpl.
      by rewrite <- app_assoc.
  - split_and!; reflexivity.
  - split; vm_compute; reflexivity.
Qed.

(** /A and /A/B/model are plain directories: the test passes, and /A is an
    ancestor; /C/model is not below /A, and the test fails *)
Lemma applicable_iff_ancestor_or_equal_witness :
  @isAncestorOrEqual posix "/A" "/A/B/model"
  ∧ ¬ @isAncestorOrEqual posix "/A" "/C/model".
Proof.
  assert (∀ names : list string,
             names ≠ [] -> Forall plainName names ->
             ∀ p, @split "/" p = ""%string :: names -> @plainDir posix p) as Hplain.
  { intros names Hne Hall p Hp. exists names. by split_and!; [..|right]. }
  assert (∀ s : string, String.eqb s "" = false -> String.eqb s "." = false ->
                        String.eqb s ".." = false -> plainName s) as Hname.
  { intros s H1 H2 H3. by split_and!; apply String.eqb_neq. }
  assert (@plainDir posix "/A") as HA.
  { apply (Hplain ["A"%string]); [done| |reflexivity].
    repeat constructor; by apply Hname. }
  assert (@plainDir posix "/A/B/model") as HB.
  { apply (Hplain ["A"; "B"; "model"]%string); [done| |reflexivity].
    repeat constructor; by apply Hname. }
  assert (@plainDir posix "/C/model") as HC.
  { apply (Hplain ["C"; "model"]%string); [done| |reflexivity].
    repeat constructor; by apply Hname. }
  split.
  - apply (proj1 (proj2 (proj2 applicable_iff_ancestor_or_equal)) posix
             "/A"%string "/A/B/model"%string HA HB).
    reflexivity.
  - intros Hanc.
    apply (proj1 (proj2 (proj2 applicable_iff_ancestor_or_equal)) posix
             "/A"%string "/C/model"%string HA HC) in Hanc.
    discriminate Hanc.
Defined.


(** ** Release inheritance: the merge *)

Lemma attr_eta (a : Attr) : {| key := key a; value := value a |} = a.
Proof. by destruct a. Qed.

Lemma existsb_key (k : string) (l : list Attr) :
  existsb (fun existing => String.eqb (key existing) k) l = true <-> k ∈ key <$> l.
Proof.
  rewrite existsb_exists, list_elem_of_fmap. split.
  - intros [a [Hin Heq%string_eqb_true]]. exists a. by rewrite list_elem_of_In.
  - intros [a [-> Hin]]. exists a. rewrite <- list_elem_of_In.
    split; [done | by apply string_eqb_true].
Qed.

Lemma existsb_tag (t : string) (l : list string) :
  existsb (String.eqb t) l = true <-> t ∈ l.
Proof.
  rewrite existsb_exists. split.
  - intros [x [Hin ->%string_eqb_true]]. by apply list_elem_of_In.
  - intros Hin. exists t. rewrite <- list_elem_of_In.
    split; [done | by apply string_eqb_true].
Qed.

Lemma applyReleaseAttr_attributes (m : Model.t) (a : Attr) :
  Model.attributes (applyReleaseAttr m a)
  = if existsb (fun existing => String.eqb (key existing) (key a)) (Model.attributes m)
    then Model.attributes m else Model.attributes m ++ [a].
Proof.
  unfold applyReleaseAttr. rewrite attr_eta.
  destruct (String.eqb (key a) "release"); [|destruct (String.eqb (key a) "subscription")];
    simpl; by destruct (existsb _ _).
Qed.

Lemma applyReleaseAttr_tags (m : Model.t) (a : Attr) :
  Model.tags (applyReleaseAttr m a) = Model.tags m.
Proof.
  unfold applyReleaseAttr.
  destruct (String.eqb (key a) "release"); [|destruct (String.eqb (key a) "subscription")];
    simpl; by destruct (existsb _ _).
Qed.

Lemma applyReleaseAttr_unmerged (m : Model.t) (a : Attr) :
  unmerged (applyReleaseAttr m a) = unmerged m.
Proof.
  unfold applyReleaseAttr.
  destruct (String.eqb (key a) "release"); [|destruct (String.eqb (key a) "subscription")];
    simpl; by destruct (existsb _ _).
Qed.

Lemma applyReleaseTag_tags (m : Model.t) (t : string) :
  Model.tags (applyReleaseTag m t)
  = if existsb (String.eqb t) (Model.tags m) then Model.tags m else Model.tags m ++ [t].
Proof. unfold applyReleaseTag. by destruct (existsb _ _). Qed.

Lemma applyReleaseTag_attributes (m : Model.t) (t : string) :
  Model.attributes (applyReleaseTag m t) = Model.attributes m.
Proof. unfold applyReleaseTag. by destruct (existsb _ _). Qed.

Lemma applyReleaseTag_unmerged (m : Model.t) (t : string) :
  unmerged (applyReleaseTag m t) = unmerged m.
Proof. unfold applyReleaseTag. by destruct (existsb _ _). Qed.

Lemma MergedInto_nil {A K : Type} (f : A -> K) (own : list A) :
  MergedInto f own [] own.
Proof.
  unfold MergedInto. exists []. split_and!.
  - by rewrite app_nil_r.
  - intros x Hx. by apply elem_of_nil in Hx.
  - constructor.
  - intros x Hx. by apply elem_of_nil in Hx.
  - intros k. rewrite fmap_nil. split; [by left|].
    intros [Hk | Hk]; [done | by apply elem_of_nil in Hk].
Qed.

(** one more offered element, appended when its key is absent *)
Lemma MergedInto_step {A K : Type} (f : A -> K) (own offered merged : list A)
    (x : A) (present : bool) :
  (present = true <-> f x ∈ f <$> merged) ->
  MergedInto f own offered merged ->
  MergedInto f own (offered ++ [x]) (if present then merged else merged ++ [x]).
Proof.
  intros Hpresent (extra & Heq & Hfresh & Hnodup & Hfrom & Hall).
  destruct present.
  - unfold MergedInto. exists extra. split_and!; [done..| |].
    + intros y Hy. apply elem_of_app. left. by apply Hfrom.
    + intros k. rewrite fmap_app, elem_of_app, Hall.
      assert (f x ∈ f <$> merged) as Hx by by apply Hpresent.
      apply Hall in Hx. simpl. rewrite list_elem_of_singleton.
      split; [tauto|]. intros [Hk | [Hk | ->]]; tauto.
  - assert (f x ∉ f <$> merged) as Hx by (intros H%Hpresent; done).
    unfold MergedInto. exists (extra ++ [x]). split_and!.
    + by rewrite Heq, app_assoc.
    + intros y [Hy | ->%list_elem_of_singleton]%elem_of_app; [by apply Hfresh|].
      intros Hin. apply Hx, Hall. by left.
    + rewrite fmap_app. apply NoDup_app. split; [done|]. split.
      * intros k Hk ->%list_elem_of_singleton. apply Hx.
        rewrite Heq, fmap_app. apply elem_of_app. by right.
      * apply NoDup_singleton.
    + intros y [Hy | ->%list_elem_of_singleton]%elem_of_app; apply elem_of_app;
        [left; by apply Hfrom | right; by apply list_elem_of_singleton].
    + intros k. rewrite !fmap_app, !elem_of_app, Hall. simpl.
      rewrite !list_elem_of_singleton. tauto.
Qed.

Lemma foldl_applyReleaseAttr (incl : list Attr) (m : Model.t) (own offered : list Attr) :
  MergedInto key own offered (Model.attributes m) ->
  MergedInto key own (offered ++ incl) (Model.attributes (foldl applyReleaseAttr m incl))
  ∧ Model.tags (foldl applyReleaseAttr m incl) = Model.tags m
  ∧ unmerged (foldl applyReleaseAttr m incl) = unmerged m.
Proof.
  revert m offered. induction incl as [|a incl IH]; intros m offered Hm; simpl.
  - by rewrite app_nil_r.
  - destruct (IH (applyReleaseAttr m a) (offered ++ [a])) as (H1 & H2 & H3).
    + rewrite applyReleaseAttr_attributes.
      apply MergedInto_step; [apply existsb_key | done].
    + rewrite <- app_assoc in H1. split; [done|].
      by rewrite H2, H3, applyReleaseAttr_tags, applyReleaseAttr_unmerged.
Qed.

Lemma foldl_applyReleaseTag (incl : list string) (m : Model.t) (own offered : list string) :
  MergedInto (fun t : string => t) own offered (Model.tags m) ->
  MergedInto (fun t : string => t) own (offered ++ incl)
    (Model.tags (foldl applyReleaseTag m incl))
  ∧ Model.attributes (foldl applyReleaseTag m incl) = Model.attributes m
  ∧ unmerged (foldl applyReleaseTag m incl) = unmerged m.
Proof.
  revert m offered. induction incl as [|t incl IH]; intros m offered Hm; simpl.
  - by rewrite app_nil_r.
  - destruct (IH (applyReleaseTag m t) (offered ++ [t])) as (H1 & H2 & H3).
    + rewrite applyReleaseTag_tags.
      apply MergedInto_step; [|done]. rewrite list_fmap_id. apply existsb_tag.
    + rewrite <- app_assoc in H1. split; [done|].
      by rewrite H2, H3, applyReleaseTag_attributes, applyReleaseTag_unmerged.
Qed.

Lemma applyReleaseConfig_merge (rc : Config.t) (m : Model.t)
    (ownA offeredA : list Attr) (ownT offeredT : list string) :
  MergedInto key ownA offeredA (Model.attributes m) ->
  MergedInto (fun t : string => t) ownT offeredT (Model.tags m) ->
  MergedInto key ownA (offeredA ++ releaseAttrs [rc])
    (Model.attributes (applyReleaseConfig m rc))
  ∧ MergedInto (fun t : string => t) ownT (offeredT ++ releaseTags [rc])
      (Model.tags (applyReleaseConfig m rc))
  ∧ unmerged (applyReleaseConfig m rc) = unmerged m.
Proof.
  intros HA HT. unfold applyReleaseConfig, releaseAttrs, releaseTags. simpl.
  rewrite !app_nil_r.
  destruct (Config.scancfg rc) as [sc|]; simpl; [|by rewrite !app_nil_r].
  destruct (ScanCfg.attributes_include sc) as [inclA|]; simpl.
  - destruct (foldl_applyReleaseAttr inclA m ownA offeredA HA) as (HA1 & HA2 & HA3).
    destruct (ScanCfg.tags_include sc) as [inclT|]; simpl.
    + destruct (foldl_applyReleaseTag inclT (foldl applyReleaseAttr m inclA) ownT offeredT)
        as (HT1 & HT2 & HT3); [by rewrite HA2|].
      by rewrite HT2, HT3.
    + by rewrite app_nil_r, HA2.
  - rewrite app_nil_r.
    destruct (ScanCfg.tags_include sc) as [inclT|]; simpl.
    + destruct (foldl_applyReleaseTag inclT m ownT offeredT HT) as (HT1 & HT2 & HT3).
      by rewrite HT2.
    + by rewrite app_nil_r.
Qed.

Lemma releaseAttrs_app (l1 l2 : list Config.t) :
  releaseAttrs (l1 ++ l2) = releaseAttrs l1 ++ releaseAttrs l2.
Proof. unfold releaseAttrs. apply bind_app. Qed.

Lemma releaseTags_app (l1 l2 : list Config.t) :
  releaseTags (l1 ++ l2) = releaseTags l1 ++ releaseTags l2.
Proof. unfold releaseTags. apply bind_app. Qed.

Lemma foldl_applyReleaseConfig (rcs : list Config.t) (m : Model.t)
    (ownA offeredA : list Attr) (ownT offeredT : list string) :
  MergedInto key ownA offeredA (Model.attributes m) ->
  MergedInto (fun t : string => t) ownT offeredT (Model.tags m) ->
  MergedInto key ownA (offeredA ++ releaseAttrs rcs)
    (Model.attributes (foldl applyReleaseConfig m rcs))
  ∧ MergedInto (fun t : string => t) ownT (offeredT ++ releaseTags rcs)
      (Model.tags (foldl applyReleaseConfig m rcs))
  ∧ unmerged (foldl applyReleaseConfig m rcs) = unmerged m.
Proof.
  revert m offeredA offeredT.
  induction rcs as [|rc rcs IH]; intros m offeredA offeredT HA HT.
  - unfold releaseAttrs, releaseTags. simpl. by rewrite !app_nil_r.
  - destruct (applyReleaseConfig_merge rc m ownA offeredA ownT offeredT HA HT)
      as (HA1 & HT1 & HU1).
    destruct (IH _ _ _ HA1 HT1) as (HA2 & HT2 & HU2).
    change (releaseAttrs (rc :: rcs)) with (releaseAttrs ([rc] ++ rcs)).
    change (releaseTags (rc :: rcs)) with (releaseTags ([rc] ++ rcs)).
    rewrite releaseAttrs_app, releaseTags_app, !app_assoc.
    cbn [foldl]. by rewrite HU2.
Qed.


Section ModelBuilder.
Context {PM : PathModule} {FS : Type} {FSys : FileSystem FS}.
Variable ORYNT3D_DIRECTORY : string.
Variable md5hex : string -> string.

Lemma processModelConfig_Some (existingModels : gmap string string) (fs : FS)
    (now : string) (modelConfig : Config.t) (mm : ModelMeta.t)
    (configPath : string) (releaseConfigs : list Config.t) :
  configPath ≠ ""%string ->
  Config.modelmeta modelConfig = Some mm ->
  ∃ base : Model.t,
    processModelConfig ORYNT3D_DIRECTORY md5hex existingModels fs now modelConfig
      configPath releaseConfigs = Some (foldl applyReleaseConfig base releaseConfigs)
    ∧ Model.id base
      = generateStableId ORYNT3D_DIRECTORY md5hex
          (resolvedName ORYNT3D_DIRECTORY mm configPath) configPath
    ∧ Model.attributes base = default [] (ModelMeta.attributes mm)
    ∧ Model.tags base = default [] (ModelMeta.tags mm)
    ∧ Model.sourcePath base = configPath
    ∧ Model.dateAdded base = now
    ∧ Model.image base
      = initialImage existingModels fs (Model.id base) (dirname configPath)
          (ModelMeta.cover mm).
Proof.
  intros Hpath%truthy_true Hmm. unfold processModelConfig.
  rewrite Hpath, Hmm. simpl. eexists. split; [reflexivity|]. by simpl.
Qed.

Lemma unmerged_fields (m m' : Model.t) :
  unmerged m' = unmerged m ->
  Model.id m' = Model.id m ∧ Model.name m' = Model.name m
  ∧ Model.notes m' = Model.notes m ∧ Model.collections m' = Model.collections m
  ∧ Model.sourcePath m' = Model.sourcePath m
  ∧ Model.relativeSourcePath m' = Model.relativeSourcePath m
  ∧ Model.dateAdded m' = Model.dateAdded m
  ∧ Model.directoryCollection m' = Model.directoryCollection m
  ∧ Model.image m' = Model.image m.
Proof. destruct m, m'. unfold unmerged. simpl. intros [= -> -> -> -> -> -> -> -> ->]. done. Qed.

Lemma foldl_applyReleaseConfig_unmerged (rcs : list Config.t) (m : Model.t) :
  unmerged (foldl applyReleaseConfig m rcs) = unmerged m.
Proof.
  destruct (foldl_applyReleaseConfig rcs m (Model.attributes m) []
              (Model.tags m) []) as (_ & _ & H); [apply MergedInto_nil..|done].
Qed.

End ModelBuilder.

(** C4.  The entry built for a model config keeps the model's own
    attributes and tags in front, unchanged; what the applicable release
    configs add is appended behind them, and only an attribute whose key
    does not occur among the model's own attributes (the key release
    included) and a tag that is not among the model's own tags is appended,
    none of them twice.  So every attribute of the entry whose key the model
    itself uses is the model's own, and the keys and tags of the entry are
    the union of the model's and the releases'. *)
Theorem release_merge_keeps_own_values
    {PM : PathModule} {FS : Type} {FSys : FileSystem FS}
    (ORYNT3D_DIRECTORY : string) (md5hex : string -> string)
    (existingModels : gmap string string) (fs : FS) (now : string)
    (modelConfig : Config.t) (mm : ModelMeta.t) (configPath : string)
    (releaseConfigs : list Config.t) :
  configPath ≠ ""%string ->
  Config.modelmeta modelConfig = Some mm ->
  ∃ m : Model.t,
    processModelConfig ORYNT3D_DIRECTORY md5hex existingModels fs now modelConfig
      configPath releaseConfigs = Some m
    ∧ MergedInto key (default [] (ModelMeta.attributes mm))
        (releaseAttrs releaseConfigs) (Model.attributes m)
    ∧ MergedInto (fun t : string => t) (default [] (ModelMeta.tags mm))
        (releaseTags releaseConfigs) (Model.tags m)
    ∧ (∀ a : Attr,
          a ∈ Model.attributes m ->
          key a ∈ key <$> default [] (ModelMeta.attributes mm) ->
          a ∈ default [] (ModelMeta.attributes mm)).
Proof.
  intros Hpath Hmm.
  destruct (processModelConfig_Some ORYNT3D_DIRECTORY md5hex existingModels fs now
              modelConfig mm configPath releaseConfigs Hpath Hmm)
    as (base & Hrun & _ & HA & HT & _).
  exists (foldl applyReleaseConfig base releaseConfigs). split; [done|].
  destruct (foldl_applyReleaseConfig releaseConfigs base
              (Model.attributes base) [] (Model.tags base) [])
    as (HmA & HmT & _); [apply MergedInto_nil..|].
  rewrite app_nil_l, HA in HmA. rewrite app_nil_l, HT in HmT.
  split_and!; [done..|].
  destruct HmA as (extra & Heq & Hfresh & _).
  intros a Hin Hkey. rewrite Heq in Hin.
  apply elem_of_app in Hin as [Hin|Hin]; [done|].
  by destruct (Hfresh a Hin).
Qed.

Lemma release_merge_keeps_own_values_witness :
  ∃ m : Model.t,
    @processModelConfig posix ToyFs.t toyFs Example.root toyDigest ∅ Example.fs0
      "2025-01-01" Example.goblinDoc Example.goblinPath [Example.releaseDoc] = Some m
    ∧ MergedInto key (default [] (ModelMeta.attributes Example.goblinMeta))
        (releaseAttrs [Example.releaseDoc]) (Model.attributes m)
    ∧ MergedInto (fun t : string => t) (default [] (ModelMeta.tags Example.goblinMeta))
        (releaseTags [Example.releaseDoc]) (Model.tags m)
    ∧ (∀ a : Attr,
          a ∈ Model.attributes m ->
          key a ∈ key <$> default [] (ModelMeta.attributes Example.goblinMeta) ->
          a ∈ default [] (ModelMeta.attributes Example.goblinMeta)).
Proof.
  apply (@release_merge_keeps_own_values posix ToyFs.t toyFs Example.root toyDigest ∅
           Example.fs0 "2025-01-01" Example.goblinDoc Example.goblinMeta
           Example.goblinPath [Example.releaseDoc]).
  - discriminate.
  - reflexivity.
Defined.

(** ** Classification *)

Section Classifier.
Context {PM : PathModule} {FS : Type} {FSys : FileSystem FS}.

Lemma existsb_isReleaseKey (incl : list Attr) :
  existsb isReleaseKey incl = true
  <-> ∃ attr, attr ∈ incl
             ∧ (key attr = "release"%string ∨ key attr = "subscription"%string).
Proof.
  rewrite existsb_exists. unfold isReleaseKey.
  split; intros [attr [Hin Hkey]]; exists attr.
  - apply list_elem_of_In in Hin. split; [done|].
    apply orb_true_iff in Hkey as [H|H]; apply string_eqb_true in H; auto.
  - apply list_elem_of_In in Hin. split; [done|].
    apply orb_true_iff. destruct Hkey as [H|H]; apply string_eqb_true in H; auto.
Qed.

Lemma isReleaseConfig_iff (config : Config.t) :
  isReleaseConfig config = true
  <-> Config.modelmeta config ≠ None ∧ hasReleaseEntry config.
Proof.
  unfold isReleaseConfig, hasReleaseEntry.
  destruct (Config.scancfg config) as [sc|];
    [|split; [done | intros (_ & sc & incl & attr & H & _); discriminate H]].
  destruct (Config.modelmeta config) as [mm|];
    [|split; [done | intros [H _]; by destruct H]].
  destruct (ScanCfg.attributes_include sc) as [incl|] eqn:Hincl;
    [|split; [done | intros (_ & sc' & incl & attr & [= <-] & H & _); congruence]].
  rewrite existsb_isReleaseKey. split.
  - intros (attr & Hin & Hkey). split; [done|]. by exists sc, incl, attr.
  - intros (_ & sc' & incl' & attr & [= <-] & Hincl' & Hin & Hkey).
    rewrite Hincl in Hincl'. injection Hincl' as <-. by exists attr.
Qed.

End Classifier.


(** ** The second pass, file by file *)

Section SecondPass.
Context {PM : PathModule} {FS : Type} {FSys : FileSystem FS}.
Variable ORYNT3D_DIRECTORY : string.
Variable md5hex : string -> string.
Variable readConfig : string -> option Config.t.

Local Abbreviation entry := (entryOf ORYNT3D_DIRECTORY md5hex readConfig).
Local Abbreviation entries := (entriesFrom ORYNT3D_DIRECTORY md5hex readConfig).
Local Abbreviation step := (processModelConfigs_step ORYNT3D_DIRECTORY md5hex readConfig).
Local Abbreviation loop := (processModelConfigs_loop ORYNT3D_DIRECTORY md5hex readConfig).

Lemma step_models rcs em (fs : FS) clock i p acc :
  models (step rcs em fs clock i p acc)
  = models acc ++ option_list (entry rcs em fs clock i p).
Proof.
  unfold processModelConfigs_step, entryOf.
  destruct (readConfig p) as [cfg|]; simpl; [|by rewrite app_nil_r].
  destruct (isReleaseConfig cfg); [by rewrite app_nil_r|].
  destruct (isValidModelConfig cfg); [|by rewrite app_nil_r].
  destruct (processModelConfig _ _ _ _ _ _ _ _); simpl; [done|by rewrite app_nil_r].
Qed.

Lemma loop_models rcs em (fs : FS) clock files i acc :
  models (loop rcs em fs clock i files acc)
  = models acc ++ entries rcs em fs clock i files.
Proof.
  revert i acc. induction files as [|p files IH]; intros i acc; simpl.
  - by rewrite app_nil_r.
  - by rewrite IH, step_models, <- app_assoc.
Qed.

Lemma processModelConfigs_models rcs em (fs : FS) clock files :
  models (processModelConfigs ORYNT3D_DIRECTORY md5hex readConfig rcs em fs clock files)
  = entries rcs em fs clock 0 files.
Proof. unfold processModelConfigs. by rewrite loop_models. Qed.

(** a document that is neither release nor model leaves the pass as it
    found it: no entry, no error *)
Lemma step_not_model rcs em (fs : FS) clock i p acc config :
  readConfig p = Some config ->
  classify config ≠ IsModel ->
  step rcs em fs clock i p acc = acc.
Proof.
  unfold processModelConfigs_step, classify. intros -> Hcls.
  destruct (isReleaseConfig config); [done|].
  by destruct (isValidModelConfig config).
Qed.

Lemma entriesFrom_elem rcs em (fs : FS) clock files i p m :
  p ∈ files ->
  (∀ j, entry rcs em fs clock j p = Some (m j)) ->
  ∃ j, m j ∈ entries rcs em fs clock i files.
Proof.
  intros Hin Hentry. revert i.
  induction files as [|q files IH]; intros i; [by apply elem_of_nil in Hin|].
  simpl. apply elem_of_cons in Hin as [<- | Hin].
  - exists i. apply elem_of_app. left. rewrite Hentry. by apply list_elem_of_singleton.
  - destruct (IH Hin (S i)) as [j Hj]. exists j. apply elem_of_app. by right.
Qed.

Lemma entryOf_model rcs em (fs : FS) clock i p config mm :
  readConfig p = Some config ->
  classify config = IsModel ->
  Config.modelmeta config = Some mm ->
  p ≠ ""%string ->
  ∃ m, entry rcs em fs clock i p = Some m
       ∧ Model.sourcePath m = p
       ∧ Model.id m
         = generateStableId ORYNT3D_DIRECTORY md5hex
             (resolvedName ORYNT3D_DIRECTORY mm p) p
       ∧ Model.dateAdded m = dateAddedAt clock i
       ∧ Model.image m
         = initialImage em fs (Model.id m) (dirname p) (ModelMeta.cover mm).
Proof.
  intros Hread Hcls Hmm Hp. unfold entryOf, classify in *. rewrite Hread.
  destruct (isReleaseConfig config); [done|].
  destruct (isValidModelConfig config); [|done].
  destruct (processModelConfig_Some ORYNT3D_DIRECTORY md5hex em fs
              (dateAddedAt clock i) config mm p
              (findApplicableReleaseConfigs rcs p) Hp Hmm)
    as (base & Hrun & Hid & _ & _ & Hsrc & Hdate & Himg).
  eexists. split; [exact Hrun|].
  destruct (unmerged_fields base _
              (foldl_applyReleaseConfig_unmerged
                 (findApplicableReleaseConfigs rcs p) base))
    as (Hi & _ & _ & _ & Hs & _ & Hd & _ & Him).
  rewrite Hi, Hs, Hd, Him. by rewrite Hid in *.
Qed.

End SecondPass.

(** C5, as stated, fails: a document whose scan section holds a release
    entry but which has no modelmeta section is not classified Release (it
    is Ignored). *)
Lemma release_entry_without_modelmeta_not_release :
  ¬ (∀ config : Config.t, classify config = Release <-> hasReleaseEntry config).
Proof.
  intros H.
  assert (hasReleaseEntry Example.releaseOnlyDoc) as Hentry.
  { exists {| ScanCfg.attributes_include :=
                 Some [{| key := "release"; value := "Winter2024" |}];
               ScanCfg.tags_include := Some ["winter"; "orc"]%string |},
           [{| key := "release"; value := "Winter2024" |}],
           {| key := "release"; value := "Winter2024" |}.
    split_and!; [reflexivity | reflexivity | apply list_elem_of_here | by left]. }
  apply H in Hentry. discriminate Hentry.
Qed.

(** C5, amended.  A parsed config document is classified Release if and only
    if it has a modelmeta section and the include list of its scan
    attributes exists and holds an entry keyed release or subscription.  The
    release test comes first: such a document is Release whatever its
    modelmeta name is.  A document failing both tests is Ignored, and the
    second pass then adds no entry and counts no error; the first pass
    records exactly the Release documents.  The example document, with a
    release entry and the name Goblin, is Release. *)
Theorem classify_release_iff
    {PM : PathModule} {FS : Type} {FSys : FileSystem FS} (config : Config.t) :
  (classify config = Release
   <-> Config.modelmeta config ≠ None ∧ hasReleaseEntry config)
  ∧ (∀ mm : ModelMeta.t,
        Config.modelmeta config = Some mm -> hasReleaseEntry config ->
        classify config = Release)
  ∧ (classify config = Ignored
     <-> isReleaseConfig config = false ∧ isValidModelConfig config = false)
  ∧ (∀ (ORYNT3D_DIRECTORY : string) (md5hex : string -> string)
       (readConfig : string -> option Config.t)
       (releaseConfigs : list (string * ReleaseInfo))
       (existingModels : gmap string string) (fs : FS) (clock : ExtractClock)
       (i : nat) (filePath : string) (acc : Processed),
        readConfig filePath = Some config ->
        (classify config = Ignored ->
         processModelConfigs_step ORYNT3D_DIRECTORY md5hex readConfig releaseConfigs
           existingModels fs clock i filePath acc = acc)
        ∧ (analyzeConfigFiles readConfig [filePath] ≠ []
           <-> classify config = Release))
  ∧ classify Example.namedReleaseDoc = Release.
Proof.
  assert (classify config = Release <-> isReleaseConfig config = true) as Hrel.
  { unfold classify. destruct (isReleaseConfig config); [done|].
    by destruct (isValidModelConfig config). }
  split_and!.
  - by rewrite Hrel, isReleaseConfig_iff.
  - intros mm Hmm Hentry. apply Hrel, isReleaseConfig_iff.
    split; [congruence | done].
  - unfold classify. destruct (isReleaseConfig config);
      [split; [done | by intros [H _]]|].
    destruct (isValidModelConfig config); [split; [done | by intros [_ H]] | done].
  - intros ROOT md5hex readConfig rcs em fs clock i p acc Hread. split.
    + intros Hcls. eapply step_not_model; [done | congruence].
    + rewrite Hrel. unfold analyzeConfigFiles. simpl. rewrite Hread.
      by destruct (isReleaseConfig config).
  - reflexivity.
Qed.

(** the slug, character by character *)
Lemma slug_char (c : ascii) :
  (let d := lower_char c in if is_lower d || is_digit d then d else "-"%char)
  = slugChar c.
Proof. by destruct c as [[] [] [] [] [] [] [] []]. Qed.

Lemma slug_get (name : string) (i : nat) (c : ascii) :
  String.get i name = Some c ->
  String.get i (dash_non_alnum (toLowerCase name)) = Some (slugChar c).
Proof.
  revert i. induction name as [|d name IH]; intros i; simpl; [done|].
  destruct i as [|i].
  - intros [= ->]. f_equal. apply slug_char.
  - apply IH.
Qed.

Lemma slug_length (name : string) :
  String.length (dash_non_alnum (toLowerCase name)) = String.length name.
Proof. induction name as [|d name IH]; simpl; [done|]. by rewrite <- IH. Qed.

(** C8.  The id is a slug of the name, a dash, and the first eight hex
    digits of the MD5 of the name, a dash and the config path relative to
    the scan root.  For a name of ASCII characters the slug has one
    character for each character of the name: the small letter for a
    capital letter A-Z, the character itself for a small letter a-z and for
    a digit, and a dash for every other character; so that Dire Wolf #7
    (Alpha) gives dire-wolf--7--alpha-.  The id depends on nothing else:
    equal names and equal relative paths give equal ids, and any two runs,
    whatever their scan roots, config file lists and order, release maps,
    prior catalogs, file systems and clocks, put the model of a config file
    with the same resolved name and the same relative path into the catalog
    under the same id. *)
Theorem stable_id_is_function_of_name_and_relative_path
    {PM : PathModule} (md5hex : string -> string) :
  (∀ (root name configPath : string),
      ∃ slug : string,
        generateStableId root md5hex name configPath
        = slug +:+ "-"
          +:+ String.substring 0 8
                (md5hex (name +:+ "-" +:+ relative root configPath))
        ∧ (all_chars is_ascii name = true ->
           String.length slug = String.length name
           ∧ ∀ (i : nat) (c : ascii),
               String.get i name = Some c ->
               String.get i slug = Some (slugChar c)))
  ∧ (∀ (root1 root2 name path1 path2 : string),
        relative root1 path1 = relative root2 path2 ->
        generateStableId root1 md5hex name path1
        = generateStableId root2 md5hex name path2)
  ∧ (∀ (FS : Type) (FSys : FileSystem FS) (root1 root2 : string)
       (readConfig1 readConfig2 : string -> option Config.t)
       (releaseConfigs1 releaseConfigs2 : list (string * ReleaseInfo))
       (existing1 existing2 : gmap string string) (fs1 fs2 : FS)
       (clock1 clock2 : ExtractClock) (files1 files2 : list string)
       (path1 path2 : string) (config1 config2 : Config.t) (mm1 mm2 : ModelMeta.t),
        readConfig1 path1 = Some config1 -> readConfig2 path2 = Some config2 ->
        classify config1 = IsModel -> classify config2 = IsModel ->
        Config.modelmeta config1 = Some mm1 -> Config.modelmeta config2 = Some mm2 ->
        path1 ≠ ""%string -> path2 ≠ ""%string ->
        path1 ∈ files1 -> path2 ∈ files2 ->
        resolvedName root1 mm1 path1 = resolvedName root2 mm2 path2 ->
        relative root1 path1 = relative root2 path2 ->
        ∃ m1 m2 : Model.t,
          m1 ∈ models (processModelConfigs root1 md5hex readConfig1 releaseConfigs1
                         existing1 fs1 clock1 files1)
          ∧ m2 ∈ models (processModelConfigs root2 md5hex readConfig2 releaseConfigs2
                           existing2 fs2 clock2 files2)
          ∧ Model.sourcePath m1 = path1 ∧ Model.sourcePath m2 = path2
          ∧ Model.id m1 = Model.id m2
          ∧ Model.id m1
            = generateStableId root1 md5hex (resolvedName root1 mm1 path1) path1)
  ∧ @generateStableId posix "/data" Samples.hexDigest "Dire Wolf #7 (Alpha)"
      "/data/Beasts/Wolf/config.orynt3d"
    = "dire-wolf--7--alpha--0cc175b9"%string.
Proof.
  split; [|split; [|split]].
  - intros root name configPath.
    exists (dash_non_alnum (toLowerCase name)).
    split; [reflexivity|]. intros _. split; [apply slug_length|].
    intros i c. apply slug_get.
  - intros root1 root2 name path1 path2 Hrel. unfold generateStableId. by rewrite Hrel.
  - intros FS FSys root1 root2 rd1 rd2 rcs1 rcs2 em1 em2 fs1 fs2 c1 c2 files1 files2
      p1 p2 cfg1 cfg2 mm1 mm2 Hr1 Hr2 Hc1 Hc2 Hm1 Hm2 Hp1 Hp2 Hin1 Hin2 Hname Hrel.
    rewrite !processModelConfigs_models.
    assert (∀ (root : string) rd rcs em (fs : FS) c p cfg mm,
               rd p = Some cfg -> classify cfg = IsModel ->
               Config.modelmeta cfg = Some mm -> p ≠ ""%string ->
               ∃ f : nat -> Model.t,
                 (∀ j, entryOf root md5hex rd rcs em fs c j p = Some (f j))
                 ∧ (∀ j, Model.sourcePath (f j) = p
                         ∧ Model.id (f j)
                           = generateStableId root md5hex (resolvedName root mm p) p))
      as Hfun.
    { intros root rd rcs em fs c p cfg mm Hr Hc Hm Hp.
      exists (fun j => default (Model.set_tags [] (Model.set_tags []
                  {| Model.id := ""; Model.name := ""; Model.notes := "";
                     Model.tags := []; Model.collections := []; Model.attributes := [];
                     Model.sourcePath := ""; Model.relativeSourcePath := "";
                     Model.dateAdded := ""; Model.directoryCollection := None;
                     Model.image := None; Model.release := None;
                     Model.subscription := None |}))
                (entryOf root md5hex rd rcs em fs c j p)).
      split; intros j;
        destruct (entryOf_model root md5hex rd rcs em fs c j p cfg mm Hr Hc Hm Hp)
          as (m & -> & Hs & Hi & _); simpl; done. }
    destruct (Hfun root1 rd1 rcs1 em1 fs1 c1 p1 cfg1 mm1 Hr1 Hc1 Hm1 Hp1) as (f1 & He1 & Hf1).
    destruct (Hfun root2 rd2 rcs2 em2 fs2 c2 p2 cfg2 mm2 Hr2 Hc2 Hm2 Hp2) as (f2 & He2 & Hf2).
    destruct (entriesFrom_elem root1 md5hex rd1 rcs1 em1 fs1 c1 files1 0 p1 f1 Hin1 He1)
      as [j1 Hj1].
    destruct (entriesFrom_elem root2 md5hex rd2 rcs2 em2 fs2 c2 files2 0 p2 f2 Hin2 He2)
      as [j2 Hj2].
    exists (f1 j1), (f2 j2).
    destruct (Hf1 j1) as [Hs1 Hi1]. destruct (Hf2 j2) as [Hs2 Hi2].
    split_and!; [done..| |done].
    rewrite Hi1, Hi2, Hname. unfold generateStableId. by rewrite Hrel.
  - reflexivity.
Qed.

(** a name with capitals, blanks and signs, and two runs that differ in
    everything but the Goblin's config file *)
Lemma stable_id_is_function_of_name_and_relative_path_witness :
  (∃ slug : string,
      @generateStableId posix "/data" Samples.hexDigest "Dire Wolf #7 (Alpha)"
        "/data/Beasts/Wolf/config.orynt3d"
      = slug +:+ "-" +:+ "0cc175b9"
      ∧ String.length slug = 20
      ∧ ∀ (i : nat) (c : ascii),
          String.get i "Dire Wolf #7 (Alpha)" = Some c ->
          String.get i slug = Some (slugChar c))
  ∧ ∃ m1 m2 : Model.t,
    m1 ∈ models (@processModelConfigs posix ToyFs.t toyFs Example.root toyDigest
                   Example.readConfig
                   (@analyzeConfigFiles posix Example.readConfig
                      (configFiles Example.scan))
                   ∅ Example.fs0 (Example.clockAt "t1") (configFiles Example.scan))
    ∧ m2 ∈ models (@processModelConfigs posix ToyFs.t toyFs Example.root toyDigest
                     Example.readConfig [] ∅ Example.thumbFs (Example.clockAt "t2")
                     [Example.orcPath; Example.goblinPath])
    ∧ Model.sourcePath m1 = Example.goblinPath
    ∧ Model.sourcePath m2 = Example.goblinPath
    ∧ Model.id m1 = Model.id m2
    ∧ Model.id m1 = "goblin-Goblin-C"%string.
Proof.
  split.
  { destruct (proj1 (@stable_id_is_function_of_name_and_relative_path posix
                       Samples.hexDigest)
                "/data"%string "Dire Wolf #7 (Alpha)"%string
                "/data/Beasts/Wolf/config.orynt3d"%string) as (slug & Hid & Hslug).
    exists slug. split; [exact Hid|]. exact (Hslug eq_refl). }
  apply (proj1 (proj2 (proj2 (@stable_id_is_function_of_name_and_relative_path posix toyDigest)))
           ToyFs.t toyFs Example.root Example.root Example.readConfig Example.readConfig
           (@analyzeConfigFiles posix Example.readConfig (configFiles Example.scan)) []
           ∅ ∅ Example.fs0 Example.thumbFs (Example.clockAt "t1") (Example.clockAt "t2")
           (configFiles Example.scan) [Example.orcPath; Example.goblinPath]
           Example.goblinPath Example.goblinPath Example.goblinDoc Example.goblinDoc
           Example.goblinMeta Example.goblinMeta).
  - reflexivity.
  - reflexivity.
  - reflexivity.
  - reflexivity.
  - reflexivity.
  - reflexivity.
  - discriminate.
  - discriminate.
  - apply list_elem_of_further, list_elem_of_here.
  - apply list_elem_of_further, list_elem_of_here.
  - reflexivity.
  - reflexivity.
Defined.


(** ** The cover search *)

Lemma includes_spec (s sub : string) :
  includes s sub = true <-> ∃ a b, s = a +:+ sub +:+ b.
Proof.
  induction s as [|c s IH]; simpl.
  - rewrite orb_false_r, startsWith_spec. split.
    + intros [r Hr]. by exists ""%string, r.
    + intros (a & b & Hab). destruct a; simpl_append; [by exists b | discriminate].
  - rewrite orb_true_iff, startsWith_spec, IH. split.
    + intros [[r Hr] | (a & b & ->)].
      * by exists ""%string, r.
      * by exists (String c a), b.
    + intros (a & b & Hab). destruct a as [|c' a]; simpl_append.
      * left. by exists b.
      * right. injection Hab as -> ->. by exists a, b.
Qed.

Lemma find_FirstIn {A : Type} (Pb : A -> bool) (P : A -> Prop) (l : list A) (x : A) :
  (∀ y, Pb y = true <-> P y) -> FirstIn P l x -> find Pb l = Some x.
Proof.
  intros Hrefl (l1 & l2 & -> & Hx & Hl1).
  induction l1 as [|y l1 IH]; simpl.
  - apply Hrefl in Hx. by rewrite Hx.
  - destruct (Pb y) eqn:Hy.
    + apply Hrefl in Hy. destruct (Hl1 y); [apply list_elem_of_here | done].
    + apply IH. intros z Hz. apply Hl1. by apply list_elem_of_further.
Qed.

Lemma find_NoneIn {A : Type} (Pb : A -> bool) (P : A -> Prop) (l : list A) :
  (∀ y, Pb y = true <-> P y) -> NoneIn P l -> find Pb l = None.
Proof.
  intros Hrefl Hnone. induction l as [|y l IH]; simpl; [done|].
  destruct (Pb y) eqn:Hy.
  - apply Hrefl in Hy. destruct (Hnone y); [apply list_elem_of_here | done].
  - apply IH. intros z Hz. apply Hnone. by apply list_elem_of_further.
Qed.

Section Cover.
Context {PM : PathModule} {FS : Type} {FSys : FileSystem FS}.

Lemma isPng_iff (file : string) : isPng file = true <-> pngFile file.
Proof. unfold isPng, pngFile, hasExtension. apply string_eqb_true. Qed.

Lemma isPreferredPng_iff (file : string) :
  isPreferredPng file = true <-> preferredPng file.
Proof.
  unfold isPreferredPng, preferredPng.
  by rewrite andb_true_iff, orb_true_iff, isPng_iff, startsWith_spec, includes_spec.
Qed.

Lemma isImageExt_iff (ext : string) : isImageExt ext = true <-> ext ∈ imageExtensions.
Proof. unfold isImageExt. apply existsb_tag. Qed.

Lemma isImageFile_iff (file : string) : isImageFile file = true <-> imageFile file.
Proof.
  unfold isImageFile, imageFile, hasExtension. rewrite isImageExt_iff. split.
  - intros H. by eexists.
  - by intros (ext & H & ->).
Qed.

Lemma pngFile_imageFile (file : string) : pngFile file -> imageFile file.
Proof. intros H. exists ".png"%string. split; [apply list_elem_of_here | done]. Qed.

Lemma preferredPng_pngFile (file : string) : preferredPng file -> pngFile file.
Proof. by intros [H _]. Qed.

Lemma findConfiguredCover_none (fs : FS) (modelDir : string) (cover : option string) :
  noConfiguredCover fs modelDir cover ->
  findConfiguredCover fs modelDir cover = None.
Proof.
  unfold noConfiguredCover, findConfiguredCover, coverConfigured. intros Hno.
  destruct cover as [c|]; [|done].
  destruct (truthy c) eqn:Hc; [|done]. apply truthy_true in Hc.
  destruct (Hno c) as [Hverbatim Hext]; [done|]. rewrite Hverbatim.
  destruct (truthy (extname c)) eqn:He; [done|].
  assert (extname c = ""%string) as He'.
  { destruct (decide (extname c = ""%string)) as [|Hne]; [done|].
    apply truthy_true in Hne. congruence. }
  rewrite (find_NoneIn _ (fun ext => existsSync fs (join modelDir (c +:+ ext)) = true));
    [done | done |].
  intros ext Hin. rewrite (Hext He' ext Hin). done.
Qed.

Lemma findInImageDirs_none (fs : FS) (modelDir : string) (dirs : list string) :
  NoneIn (imageDirWithImage fs modelDir) dirs ->
  findInImageDirs fs modelDir dirs = None.
Proof.
  induction dirs as [|d dirs IH]; intros Hnone; simpl; [done|].
  assert (findInImageDirs fs modelDir dirs = None) as Hrest.
  { apply IH. intros y Hy. apply Hnone. by apply list_elem_of_further. }
  destruct (existsSync fs (join modelDir d)) eqn:Hex; simpl; [|done].
  destruct (isDirectory fs (join modelDir d)) eqn:Hdir; [|done].
  destruct (readdirSync fs (join modelDir d)) as [sub|] eqn:Hsub; [|done].
  destruct (find isImageFile sub) as [f|] eqn:Hfind; [|done].
  apply find_some in Hfind as [Hin Himg].
  destruct (Hnone d); [apply list_elem_of_here|].
  exists sub, f. split_and!; [done | by apply list_elem_of_In | by apply isImageFile_iff].
Qed.

Lemma findInImageDirs_first (fs : FS) (modelDir : string) (dirs : list string)
    (d : string) (sub : list string) (f : string) :
  FirstIn (imageDirWithImage fs modelDir) dirs d ->
  listedImageDir fs modelDir d sub ->
  FirstIn imageFile sub f ->
  findInImageDirs fs modelDir dirs = Some (join (join modelDir d) f).
Proof.
  intros (l1 & l2 & -> & _ & Hl1) (Hex & Hdir & Hsub) Hf.
  induction l1 as [|y l1 IH]; simpl.
  - rewrite Hex, Hdir, Hsub. simpl.
    by rewrite (find_FirstIn _ _ _ _ isImageFile_iff Hf).
  - assert (findInImageDirs fs modelDir [y] = None) as Hy.
    { apply findInImageDirs_none. intros z ->%list_elem_of_singleton.
      apply Hl1, list_elem_of_here. }
    simpl in Hy.
    rewrite <- IH by (intros z Hz; apply Hl1; by apply list_elem_of_further).
    destruct (existsSync fs (join modelDir y) && isDirectory fs (join modelDir y));
      [|done].
    destruct (readdirSync fs (join modelDir y)) as [sub'|]; [|done].
    by destruct (find isImageFile sub').
Qed.

End Cover.


(** C7.  With [files] the listing of the model directory, the search
    answers level by level and stops at the first level that matches:
    (1) the first .png whose lower-cased name starts with fn or contains
    preview; else (2) the first .png; else (3) the configured cover name as
    it is when that path exists, and otherwise, when the name has no
    extension, the name with the first of .png, .jpg, .jpeg, .webp, .gif
    appended for which the path exists; else (4) the first file with an
    image extension, which is one of .png, .jpg, .jpeg, .webp, .gif in any
    case of letters; else (5) the first image file of the first of the
    child directories images, thumbnails, preview, previews that is a
    directory holding one; and null when no level matches.  A directory that
    holds only thumbnail.jpg, with no cover configured, yields the path of
    thumbnail.jpg.  On the sample directories: the cover name cover finds
    cover.jpeg although a.gif is listed before it; of the four children
    thumbnails is taken, with its icon.webp, because images holds no image;
    previews is reached and its Shot.GIF taken when no other is there; a
    regular file named images is passed over; and the answer is null where
    no image is. *)
Theorem findCoverImage_priority_order
    {PM : PathModule} {FS : Type} {FSys : FileSystem FS}
    (fs : FS) (modelDir : string) (cover : option string) (files : list string) :
  listModelDir fs modelDir = Some files ->
  (∀ f, FirstIn preferredPng files f ->
        findCoverImage fs modelDir cover = Some (join modelDir f))
  ∧ (NoneIn preferredPng files ->
     ∀ f, FirstIn pngFile files f ->
          findCoverImage fs modelDir cover = Some (join modelDir f))
  ∧ (NoneIn pngFile files ->
     ∀ c, coverConfigured cover c ->
          (existsSync fs (join modelDir c) = true ->
           findCoverImage fs modelDir cover = Some (join modelDir c))
          ∧ (existsSync fs (join modelDir c) = false ->
             extname c = ""%string ->
             ∀ ext,
               FirstIn (fun e => existsSync fs (join modelDir (c +:+ e)) = true)
                       [".png"; ".jpg"; ".jpeg"; ".webp"; ".gif"]%string ext ->
               findCoverImage fs modelDir cover = Some (join modelDir (c +:+ ext))))
  ∧ (NoneIn pngFile files ->
     noConfiguredCover fs modelDir cover ->
     ∀ f, FirstIn imageFile files f ->
          findCoverImage fs modelDir cover = Some (join modelDir f))
  ∧ (NoneIn imageFile files ->
     noConfiguredCover fs modelDir cover ->
     ∀ d sub f,
       FirstIn (imageDirWithImage fs modelDir)
               ["images"; "thumbnails"; "preview"; "previews"]%string d ->
       listedImageDir fs modelDir d sub ->
       FirstIn imageFile sub f ->
       findCoverImage fs modelDir cover = Some (join (join modelDir d) f))
  ∧ (NoneIn imageFile files ->
     noConfiguredCover fs modelDir cover ->
     NoneIn (imageDirWithImage fs modelDir)
            ["images"; "thumbnails"; "preview"; "previews"]%string ->
     findCoverImage fs modelDir cover = None)
  ∧ (∀ f : string,
        imageFile f
        <-> toLowerCase (extname f) = ".png"%string
            ∨ toLowerCase (extname f) = ".jpg"%string
            ∨ toLowerCase (extname f) = ".jpeg"%string
            ∨ toLowerCase (extname f) = ".webp"%string
            ∨ toLowerCase (extname f) = ".gif"%string)
  ∧ (∀ c : string,
        noConfiguredCover fs modelDir (Some c)
        <-> (c ≠ ""%string ->
             existsSync fs (join modelDir c) = false
             ∧ (extname c = ""%string ->
                existsSync fs (join modelDir (c +:+ ".png")) = false
                ∧ existsSync fs (join modelDir (c +:+ ".jpg")) = false
                ∧ existsSync fs (join modelDir (c +:+ ".jpeg")) = false
                ∧ existsSync fs (join modelDir (c +:+ ".webp")) = false
                ∧ existsSync fs (join modelDir (c +:+ ".gif")) = false)))
  ∧ @findCoverImage posix ToyFs.t toyFs Example.thumbFs "/m" None
    = Some "/m/thumbnail.jpg"%string
  ∧ @findCoverImage posix ToyFs.t toyFs Samples.coverFs "/cover" (Some "cover")
    = Some "/cover/cover.jpeg"%string
  ∧ @findCoverImage posix ToyFs.t toyFs Samples.coverFs "/cover" None
    = Some "/cover/a.gif"%string
  ∧ @findCoverImage posix ToyFs.t toyFs Samples.coverFs "/sub" None
    = Some "/sub/thumbnails/icon.webp"%string
  ∧ @findCoverImage posix ToyFs.t toyFs Samples.coverFs "/deep" None
    = Some "/deep/previews/Shot.GIF"%string
  ∧ @findCoverImage posix ToyFs.t toyFs Samples.coverFs "/file" None
    = Some "/file/preview/p.jpg"%string
  ∧ @findCoverImage posix ToyFs.t toyFs Samples.coverFs "/none" (Some "front")
    = None.
Proof.
  intros Hfiles. unfold findCoverImage. rewrite Hfiles.
  assert (∀ l : list string, NoneIn pngFile l -> NoneIn preferredPng l) as Hpref.
  { intros l Hl y Hy Hp. by apply (Hl y Hy), preferredPng_pngFile. }
  assert (∀ l : list string, NoneIn imageFile l -> NoneIn pngFile l) as Himg.
  { intros l Hl y Hy Hp. by apply (Hl y Hy), pngFile_imageFile. }
  split_and!.
  - intros f Hf. by rewrite (find_FirstIn _ _ _ _ isPreferredPng_iff Hf).
  - intros Hno f Hf.
    rewrite (find_NoneIn _ _ _ isPreferredPng_iff Hno).
    by rewrite (find_FirstIn _ _ _ _ isPng_iff Hf).
  - intros Hno c [-> Hc%truthy_true].
    rewrite (find_NoneIn _ _ _ isPreferredPng_iff (Hpref _ Hno)).
    rewrite (find_NoneIn _ _ _ isPng_iff Hno).
    unfold findConfiguredCover, imageExtensions. rewrite Hc. split.
    + by intros ->.
    + intros -> He ext Hext. rewrite He.
      change (truthy "") with false. cbv beta iota.
      by rewrite (find_FirstIn _ _ _ _ (fun e => conj (fun H => H) (fun H => H)) Hext).
  - intros Hno Hcover f Hf.
    rewrite (find_NoneIn _ _ _ isPreferredPng_iff (Hpref _ Hno)).
    rewrite (find_NoneIn _ _ _ isPng_iff Hno).
    rewrite (findConfiguredCover_none _ _ _ Hcover).
    by rewrite (find_FirstIn _ _ _ _ isImageFile_iff Hf).
  - intros Hno Hcover d sub f Hd Hsub Hf.
    rewrite (find_NoneIn _ _ _ isPreferredPng_iff (Hpref _ (Himg _ Hno))).
    rewrite (find_NoneIn _ _ _ isPng_iff (Himg _ Hno)).
    rewrite (findConfiguredCover_none _ _ _ Hcover).
    rewrite (find_NoneIn _ _ _ isImageFile_iff Hno).
    by apply findInImageDirs_first with sub.
  - intros Hno Hcover Hdirs.
    rewrite (find_NoneIn _ _ _ isPreferredPng_iff (Hpref _ (Himg _ Hno))).
    rewrite (find_NoneIn _ _ _ isPng_iff (Himg _ Hno)).
    rewrite (findConfiguredCover_none _ _ _ Hcover).
    rewrite (find_NoneIn _ _ _ isImageFile_iff Hno).
    by apply findInImageDirs_none.
  - intros f. unfold imageFile, hasExtension, imageExtensions. split.
    + intros (ext & Hin & ->).
      repeat (apply elem_of_cons in Hin; destruct Hin as [Hin|Hin]; [tauto|]).
      by apply elem_of_nil in Hin.
    + intros H. exists (toLowerCase (extname f)). split; [|done].
      destruct H as [->|[->|[->|[->| ->]]]]; repeat constructor.
  - intros c. unfold noConfiguredCover, coverConfigured, imageExtensions. split.
    + intros H Hc. destruct (H c (conj eq_refl Hc)) as [He Hx]. split; [done|].
      intros Hext. split_and!; apply (Hx Hext); repeat constructor.
    + intros H c' [[= <-] Hc]. destruct (H Hc) as [He Hx]. split; [done|].
      intros Hext ext Hin. destruct (Hx Hext) as (H1 & H2 & H3 & H4 & H5).
      repeat (apply elem_of_cons in Hin; destruct Hin as [->|Hin]; [done|]).
      by apply elem_of_nil in Hin.
  - reflexivity.
  - reflexivity.
  - reflexivity.
  - reflexivity.
  - reflexivity.
  - reflexivity.
  - reflexivity.
Qed.

(** level 4 at work: thumbnail.jpg is no .png, no cover is configured, and
    it is the first image file; and level 5: /sub lists no image, images is
    a directory without image, and thumbnails holds icon.webp *)
Lemma findCoverImage_priority_order_witness :
  (@listModelDir ToyFs.t toyFs Example.thumbFs "/m" = Some ["thumbnail.jpg"%string]
   ∧ @findCoverImage posix ToyFs.t toyFs Example.thumbFs "/m" None
     = Some (@join posix "/m" "thumbnail.jpg"))
  ∧ (@listModelDir ToyFs.t toyFs Samples.coverFs "/sub"
     = Some ["readme.md"; "images"; "thumbnails"; "preview"; "previews"]%string
     ∧ @findCoverImage posix ToyFs.t toyFs Samples.coverFs "/sub" None
       = Some (@join posix (@join posix "/sub" "thumbnails") "icon.webp")).
Proof.
  split; (split; [reflexivity|]).
  - refine (proj1 (proj2 (proj2 (proj2
              (@findCoverImage_priority_order posix ToyFs.t toyFs Example.thumbFs
                 "/m" None ["thumbnail.jpg"%string] eq_refl)))) _ _ _ _).
    + intros y Hy. apply list_elem_of_singleton in Hy. subst y.
      unfold pngFile, hasExtension. vm_compute. discriminate.
    + intros c [Hc _]. discriminate Hc.
    + exists [], []. split; [reflexivity|]. split.
      * exists ".jpg"%string. split; [|reflexivity].
        apply list_elem_of_further, list_elem_of_here.
      * intros y Hy. by apply elem_of_nil in Hy.
  - refine (proj1 (proj2 (proj2 (proj2 (proj2
              (@findCoverImage_priority_order posix ToyFs.t toyFs Samples.coverFs
                 "/sub" None
                 ["readme.md"; "images"; "thumbnails"; "preview"; "previews"]%string
                 eq_refl))))) _ _ "thumbnails"%string ["icon.webp"%string]
              "icon.webp"%string _ _ _).
    + intros y Hy Himg%isImageFile_iff.
      repeat (apply elem_of_cons in Hy;
              destruct Hy as [->|Hy]; [vm_compute in Himg; discriminate Himg|]).
      by apply elem_of_nil in Hy.
    + intros c [Hc _]. discriminate Hc.
    + exists ["images"%string], ["preview"; "previews"]%string.
      split; [reflexivity|]. split.
      * exists ["icon.webp"%string], "icon.webp"%string.
        split; [by split_and!|]. split; [apply list_elem_of_here|].
        apply isImageFile_iff. reflexivity.
      * intros y Hy (sub & f & (_ & _ & Hl) & Hin & Himg%isImageFile_iff).
        apply list_elem_of_singleton in Hy. subst y.
        vm_compute in Hl. injection Hl as <-.
        apply list_elem_of_singleton in Hin. subst f.
        vm_compute in Himg. discriminate Himg.
    + by split_and!.
    + exists [], []. split; [reflexivity|]. split.
      * apply isImageFile_iff. reflexivity.
      * intros y Hy. by apply elem_of_nil in Hy.
Defined.


(** ** The incremental cache *)

Lemma findIndex_Some (id : string) (models : list Model.t) (j : nat) :
  findIndex id models = Some j ->
  ∃ m, models !! j = Some m ∧ Model.id m = id.
Proof.
  revert j. induction models as [|m models IH]; intros j; simpl; [done|].
  destruct (String.eqb (Model.id m) id) eqn:Hid.
  - intros [= <-]. apply string_eqb_true in Hid. by exists m.
  - destruct (findIndex id models) as [k|]; simpl; [|done].
    intros [= <-]. by apply IH.
Qed.

Lemma findIndex_NoDup (models : list Model.t) (j : nat) (m : Model.t) :
  NoDup (Model.id <$> models) ->
  models !! j = Some m ->
  findIndex (Model.id m) models = Some j.
Proof.
  revert j. induction models as [|m' models IH]; intros j Hnd Hj; [done|].
  rewrite fmap_cons in Hnd. apply NoDup_cons in Hnd as [Hnotin Hnd].
  simpl. destruct j as [|j]; simpl in Hj.
  - injection Hj as ->. by rewrite String.eqb_refl.
  - destruct (String.eqb (Model.id m') (Model.id m)) eqn:Hid.
    + apply string_eqb_true in Hid. destruct Hnotin. rewrite Hid.
      apply list_elem_of_fmap. exists m. split; [done|].
      by apply list_elem_of_lookup_2 with j.
    + by rewrite (IH j Hnd Hj).
Qed.

Lemma webFriendly_not_raw (v : string) :
  webFriendly v = true ->
  truthy v && negb (startsWith v "/images/") && negb (startsWith v "http") = false.
Proof.
  unfold webFriendly. intros H.
  destruct (startsWith v "/images/"), (startsWith v "http"); simpl in *;
    try done; by rewrite ?andb_false_r.
Qed.

Lemma webFriendly_publish (filename : string) :
  webFriendly ("/images/" +:+ filename) = true.
Proof. reflexivity. Qed.

Lemma webFriendly_placeholder : webFriendly placeholderPath = true.
Proof. reflexivity. Qed.

Section Cache.
Context {PM : PathModule} {FS : Type} {FSys : FileSystem FS}.
Variable md5hex : string -> string.
Variable JSON_stringify : HashSource -> string.

Local Abbreviation hashOf := (calculateModelHash md5hex JSON_stringify).
Local Abbreviation changed := (isChanged md5hex JSON_stringify).
Local Abbreviation catStep := (categorize_step md5hex JSON_stringify).
Local Abbreviation catLoop := (categorize_loop md5hex JSON_stringify).

Lemma hash_ignores_image_and_date (m : Model.t) (v : option string) (d : string) :
  hashOf (Model.set_image v m) = hashOf m
  ∧ hashOf (Model.set_dateAdded d m) = hashOf m.
Proof. done. Qed.

Lemma hash_of_hashSource (m m' : Model.t) :
  hashSource m = hashSource m' -> hashOf m = hashOf m'.
Proof. unfold calculateModelHash. by intros ->. Qed.

Lemma isChanged_ext (c1 c2 : gmap string CacheEntry.t) (m : Model.t) :
  CacheEntry.hash <$> c1 !! Model.id m = CacheEntry.hash <$> c2 !! Model.id m ->
  changed c1 m = changed c2 m.
Proof.
  unfold isChanged. intros H.
  destruct (c1 !! Model.id m) as [e1|], (c2 !! Model.id m) as [e2|];
    simpl in H; try done. by injection H as ->.
Qed.

Lemma indicesWhere_ext (f g : Model.t -> bool) (i : nat) (l : list Model.t) :
  (∀ m, m ∈ l -> f m = g m) -> indicesWhere f i l = indicesWhere g i l.
Proof.
  revert i. induction l as [|m l IH]; intros i H; simpl; [done|].
  rewrite (H m) by apply list_elem_of_here.
  rewrite (IH (S i)); [done|]. intros m' Hm'. apply H. by apply list_elem_of_further.
Qed.

Lemma elem_of_indicesWhere (f : Model.t -> bool) (i j : nat) (l : list Model.t) :
  j ∈ indicesWhere f i l <-> ∃ m, i ≤ j ∧ l !! (j - i) = Some m ∧ f m = true.
Proof.
  revert i. induction l as [|m l IH]; intros i; simpl.
  - split; [by intros ?%elem_of_nil | by intros (? & _ & ? & _)].
  - rewrite elem_of_app, IH. split.
    + intros [Hj | (m' & Hle & Hlook & Hf)].
      * destruct (f m) eqn:Hf; [|by apply elem_of_nil in Hj].
        apply list_elem_of_singleton in Hj as ->. exists m.
        by rewrite Nat.sub_diag.
      * exists m'. split; [lia|]. split; [|done].
        replace (j - i) with (S (j - S i)) by lia. done.
    + intros (m' & Hle & Hlook & Hf).
      destruct (decide (j = i)) as [->|Hne].
      * rewrite Nat.sub_diag in Hlook. injection Hlook as ->. rewrite Hf.
        left. by apply list_elem_of_singleton.
      * right. exists m'. split; [lia|]. split; [|done].
        replace (j - i) with (S (j - S i)) in Hlook by lia. done.
Qed.

(** the categorizer on a catalog whose ids are unique *)
Lemma categorize_loop_spec (clock : BuildClock) (l : list Model.t) (i : nat)
    (acc : Categorized) :
  NoDup (Model.id <$> l) ->
  newModels (catLoop clock i l acc)
  = newModels acc ++ indicesWhere (changed (cat_cache acc)) i l
  ∧ unchangedModels (catLoop clock i l acc)
    = unchangedModels acc
      ++ indicesWhere (fun m => negb (changed (cat_cache acc) m)) i l
  ∧ (∀ k, k ∉ Model.id <$> l ->
          cat_cache (catLoop clock i l acc) !! k = cat_cache acc !! k)
  ∧ (∀ m, m ∈ l ->
          CacheEntry.hash <$> cat_cache (catLoop clock i l acc) !! Model.id m
          = if changed (cat_cache acc) m then Some (hashOf m)
            else CacheEntry.hash <$> cat_cache acc !! Model.id m).
Proof.
  revert i acc. induction l as [|m l IH]; intros i acc Hnd.
  - simpl. rewrite !app_nil_r. split_and!; try done.
    intros m Hm. by apply elem_of_nil in Hm.
  - rewrite fmap_cons in Hnd. apply NoDup_cons in Hnd as [Hnotin Hnd].
    simpl. destruct (IH (S i) (catStep clock i m acc) Hnd) as (Hn & Hu & Hk & Hm).
    assert (∀ m', m' ∈ l ->
               cat_cache (catStep clock i m acc) !! Model.id m'
               = cat_cache acc !! Model.id m') as Hsame.
    { intros m' Hm'. unfold categorize_step.
      destruct (changed (cat_cache acc) m); simpl; [|done].
      apply lookup_insert_ne. intros Heq. apply Hnotin. rewrite Heq.
      apply list_elem_of_fmap. by exists m'. }
    assert (∀ m', m' ∈ l ->
               changed (cat_cache (catStep clock i m acc)) m'
               = changed (cat_cache acc) m') as Hchg.
    { intros m' Hm'. apply isChanged_ext. by rewrite Hsame. }
    split_and!.
    + rewrite Hn. rewrite (indicesWhere_ext _ _ _ _ Hchg). unfold categorize_step.
      destruct (changed (cat_cache acc) m); simpl; by rewrite <- ?app_assoc.
    + rewrite Hu.
      rewrite (indicesWhere_ext _ (fun m => negb (changed (cat_cache acc) m))).
      * unfold categorize_step.
        destruct (changed (cat_cache acc) m); simpl; by rewrite <- ?app_assoc.
      * intros m' Hm'. by rewrite Hchg.
    + intros k Hk'. rewrite Hk.
      * unfold categorize_step.
        destruct (changed (cat_cache acc) m); simpl; [|done].
        apply lookup_insert_ne. intros <-. apply Hk'. apply list_elem_of_here.
      * intros Hin. apply Hk'. by apply list_elem_of_further.
    + intros m' [-> | Hm']%elem_of_cons.
      * rewrite Hk by done. unfold categorize_step.
        destruct (changed (cat_cache acc) m); simpl; [|done].
        by rewrite lookup_insert_eq.
      * rewrite (Hm m' Hm'), (Hchg m' Hm'). by rewrite (Hsame m' Hm').
Qed.

End Cache.


(** ** The image materializer *)

Global Arguments startsWith : simpl never.
Global Arguments webFriendly : simpl never.

Lemma set_image_id (v : option string) (m : Model.t) :
  Model.id (Model.set_image v m) = Model.id m.
Proof. done. Qed.

Lemma set_image_image (m : Model.t) : Model.set_image (Model.image m) m = m.
Proof. by destruct m. Qed.

Lemma set_image_set_image (v w : option string) (m : Model.t) :
  Model.set_image v (Model.set_image w m) = Model.set_image v m.
Proof. done. Qed.

Lemma not_raw_web (m : Model.t) :
  hasRawImage m = false -> truthy_opt (Model.image m) = true ->
  webShaped (Model.image m).
Proof.
  unfold hasRawImage, webShaped, webFriendly.
  destruct (Model.image m) as [v|]; simpl; [|done].
  intros Hraw Htruthy. exists v. split; [done|]. rewrite Htruthy in Hraw.
  by destruct (startsWith v "/images/"), (startsWith v "http").
Qed.

Lemma web_not_raw (m : Model.t) :
  webShaped (Model.image m) ->
  hasRawImage m = false ∧ truthy_opt (Model.image m) = true.
Proof.
  intros (v & Himg & Hweb). unfold hasRawImage. rewrite Himg. simpl.
  split; [by apply webFriendly_not_raw | by apply webFriendly_truthy].
Qed.

Section Materializer.
Context {PM : PathModule} {FS : Type} {FSys : FileSystem FS}.
Variable PUBLIC_IMAGES_DIR : string.

Local Abbreviation imgStep := (processModelImages_step PUBLIC_IMAGES_DIR).

Lemma usePlaceholder_effect (j : nat) (id : string) (raw : bool) (st : ImageState FS) :
  ImageEffect j id raw st (usePlaceholder j st).
Proof.
  exists placeholderPath. split_and!; [done | done | done | by left].
Qed.

Lemma copyImage_effect (j : nat) (id source : string) (st : ImageState FS) :
  ImageEffect j id true st (copyImage PUBLIC_IMAGES_DIR j id source st).
Proof.
  unfold copyImage, ImageEffect.
  destruct (copyFileSync (st_fs st) source _) as [fs'|]; simpl.
  - eexists. split_and!; [apply webFriendly_publish | done | |].
    + intros k. unfold recordImagePath.
      destruct (st_cache st !! id) as [e|] eqn:He; [|done].
      destruct (decide (k = id)) as [->|Hne].
      * by rewrite lookup_insert_eq, He.
      * by rewrite lookup_insert_ne.
    + right. split; [done|]. by eexists.
  - exists placeholderPath. split_and!; [done | done | done |].
    right. split; [done|]. by eexists.
Qed.

Lemma findIndex_is_Some (models : list Model.t) (idx : nat) (m : Model.t) :
  models !! idx = Some m -> ∃ j, findIndex (Model.id m) models = Some j.
Proof.
  revert idx. induction models as [|m' models IH]; intros idx Hidx; [done|].
  simpl. destruct (String.eqb (Model.id m') (Model.id m)) eqn:Heq; [by eexists|].
  destruct idx as [|idx]; simpl in Hidx.
  - injection Hidx as ->. by rewrite String.eqb_refl in Heq.
  - destruct (IH idx Hidx) as [j ->]. by eexists.
Qed.

(** one turn of the loop: nothing happens to a model that has a web path,
    and any other model gets one, at the first index that carries its id *)
Lemma step_cases (idx : nat) (st : ImageState FS) (m : Model.t) :
  st_models st !! idx = Some m ->
  (imgStep idx st = st ∧ webShaped (Model.image m))
  ∨ (∃ j, findIndex (Model.id m) (st_models st) = Some j
          ∧ (hasRawImage m = true ∨ imageless (Model.image m))
          ∧ ImageEffect j (Model.id m) (hasRawImage m) st (imgStep idx st)).
Proof.
  intros Hidx. unfold processModelImages_step. rewrite Hidx.
  destruct (findIndex_is_Some _ _ _ Hidx) as [j Hj]. rewrite Hj.
  destruct (hasRawImage m) eqn:Hraw.
  - right. exists j. split; [done|]. split; [by left|].
    destruct (existsSync (st_fs st) _); [apply copyImage_effect|].
    destruct (truthy (Model.sourcePath m)); [|apply usePlaceholder_effect].
    destruct (findAlternativeImage _ _ _) as [alt|]; [|apply usePlaceholder_effect].
    destruct (truthy alt); [apply copyImage_effect | apply usePlaceholder_effect].
  - destruct (truthy_opt (Model.image m)) eqn:Htruthy; simpl.
    + left. split; [done|]. by apply not_raw_web.
    + right. exists j. split; [done|]. split; [by right|].
      apply usePlaceholder_effect.
Qed.

Lemma step_out_of_range (idx : nat) (st : ImageState FS) :
  st_models st !! idx = None -> imgStep idx st = st.
Proof. intros H. unfold processModelImages_step. by rewrite H. Qed.

Lemma ImageEffect_ids (j : nat) (id : string) (raw : bool) (st st' : ImageState FS) :
  ImageEffect j id raw st st' ->
  Model.id <$> st_models st' = Model.id <$> st_models st.
Proof.
  intros (v & _ & -> & _). destruct (st_models st !! j) as [m|] eqn:Hj; [|done].
  rewrite list_fmap_insert, set_image_id. apply list_insert_id.
  by rewrite list_lookup_fmap, Hj.
Qed.

Lemma step_ids (idx : nat) (st : ImageState FS) :
  Model.id <$> st_models (imgStep idx st) = Model.id <$> st_models st.
Proof.
  destruct (st_models st !! idx) as [m|] eqn:Hidx.
  - destruct (step_cases idx st m Hidx) as [[-> _] | (j & _ & _ & Heff)]; [done|].
    by eapply ImageEffect_ids.
  - by rewrite step_out_of_range.
Qed.

Lemma step_hashes (idx : nat) (st : ImageState FS) (k : string) :
  CacheEntry.hash <$> st_cache (imgStep idx st) !! k
  = CacheEntry.hash <$> st_cache st !! k.
Proof.
  destruct (st_models st !! idx) as [m|] eqn:Hidx.
  - destruct (step_cases idx st m Hidx) as [[-> _] | (j & _ & _ & Heff)]; [done|].
    by destruct Heff as (v & _ & _ & Hh & _).
  - by rewrite step_out_of_range.
Qed.

Lemma foldl_step_ids (L : list nat) (st : ImageState FS) :
  Model.id <$> st_models (foldl (fun st idx => imgStep idx st) st L)
  = Model.id <$> st_models st.
Proof.
  revert st. induction L as [|idx L IH]; intros st; simpl; [done|].
  by rewrite IH, step_ids.
Qed.

Lemma foldl_step_hashes (L : list nat) (st : ImageState FS) (k : string) :
  CacheEntry.hash <$> st_cache (foldl (fun st idx => imgStep idx st) st L) !! k
  = CacheEntry.hash <$> st_cache st !! k.
Proof.
  revert st. induction L as [|idx L IH]; intros st; simpl; [done|].
  by rewrite IH, step_hashes.
Qed.

(** a loop over models that all have a web path does nothing *)
Lemma foldl_step_noop (L : list nat) (st : ImageState FS) :
  (∀ idx m, idx ∈ L -> st_models st !! idx = Some m -> webShaped (Model.image m)) ->
  foldl (fun st idx => imgStep idx st) st L = st.
Proof.
  induction L as [|idx L IH]; intros Hweb; simpl; [done|].
  assert (imgStep idx st = st) as ->.
  { destruct (st_models st !! idx) as [m|] eqn:Hidx; [|by apply step_out_of_range].
    destruct (step_cases idx st m Hidx) as [[-> _] | (j & _ & Hbad & _)]; [done|].
    destruct (web_not_raw m) as [Hraw Htruthy].
    { apply (Hweb idx m); [apply list_elem_of_here | done]. }
    unfold imageless in Hbad. destruct Hbad; congruence. }
  apply IH. intros idx' m' Hin. apply Hweb. by apply list_elem_of_further.
Qed.

Lemma Materialized_refl (l : list Model.t) : Materialized [] l l.
Proof.
  split; [done|]. intros j m Hj. exists m.
  split_and!; [done | by rewrite set_image_image | by intros ?%elem_of_nil | done].
Qed.

(** one more turn, on a catalog whose ids are unique *)
Lemma Materialized_step (processed : list nat) (l0 : list Model.t) (idx : nat)
    (st : ImageState FS) :
  NoDup (Model.id <$> st_models st) ->
  Materialized processed l0 (st_models st) ->
  Materialized (processed ++ [idx]) l0 (st_models (imgStep idx st)).
Proof.
  intros Hnd [Hlen Hall].
  destruct (st_models st !! idx) as [m|] eqn:Hidx.
  - destruct (step_cases idx st m Hidx)
      as [[-> Hweb] | (j & Hj & _ & (v & Hv & Hmodels & _))].
    + split; [done|]. intros k m0 Hk.
      destruct (Hall k m0 Hk) as (m' & Hm' & Heq & Hin & Hout).
      exists m'. split_and!; [done | done | |].
      * intros [Hp | ->%list_elem_of_singleton]%elem_of_app; [by apply Hin|].
        rewrite Hidx in Hm'. by injection Hm' as <-.
      * intros Hnotin. apply Hout. intros Hp. apply Hnotin, elem_of_app. by left.
    + rewrite (findIndex_NoDup _ _ _ Hnd Hidx) in Hj. injection Hj as <-.
      rewrite Hidx in Hmodels. rewrite Hmodels.
      split; [by rewrite length_insert|]. intros k m0 Hk.
      destruct (Hall k m0 Hk) as (m' & Hm' & Heq & Hin & Hout).
      destruct (decide (k = idx)) as [->|Hne].
      * rewrite Hidx in Hm'. injection Hm' as <-.
        exists (Model.set_image (Some v) m). split_and!.
        -- apply list_lookup_insert_eq. by eapply lookup_lt_Some.
        -- rewrite Heq. done.
        -- intros _. by exists v.
        -- intros Hnotin. destruct Hnotin. apply elem_of_app. right.
           by apply list_elem_of_singleton.
      * exists m'. split_and!; [by rewrite list_lookup_insert_ne | done | |].
        -- intros [Hp | ->%list_elem_of_singleton]%elem_of_app; [by apply Hin | done].
        -- intros Hnotin. apply Hout. intros Hp. apply Hnotin, elem_of_app. by left.
  - rewrite step_out_of_range by done. split; [done|]. intros k m0 Hk.
    destruct (Hall k m0 Hk) as (m' & Hm' & Heq & Hin & Hout).
    exists m'. split_and!; [done | done | |].
    + intros [Hp | ->%list_elem_of_singleton]%elem_of_app; [by apply Hin | congruence].
    + intros Hnotin. apply Hout. intros Hp. apply Hnotin, elem_of_app. by left.
Qed.

Lemma Materialized_foldl (L processed : list nat) (l0 : list Model.t)
    (st : ImageState FS) :
  NoDup (Model.id <$> st_models st) ->
  Materialized processed l0 (st_models st) ->
  Materialized (processed ++ L) l0
    (st_models (foldl (fun st idx => imgStep idx st) st L)).
Proof.
  revert processed st. induction L as [|idx L IH]; intros processed st Hnd Hmat; simpl.
  - by rewrite app_nil_r.
  - replace (processed ++ idx :: L) with ((processed ++ [idx]) ++ L)
      by by rewrite <- app_assoc.
    apply IH; [by rewrite step_ids | by apply Materialized_step].
Qed.

End Materializer.


(** ** The build script as a whole *)

Section BuildScript.
Context {PM : PathModule} {FS : Type} {FSys : FileSystem FS}.
Variable PUBLIC_IMAGES_DIR EXAMPLE_PLACEHOLDER : string.
Variable md5hex : string -> string.
Variable JSON_stringify : HashSource -> string.

Local Abbreviation build :=
  (buildNextjsApp PUBLIC_IMAGES_DIR EXAMPLE_PLACEHOLDER md5hex JSON_stringify).
Local Abbreviation categorize := (categorizeModels md5hex JSON_stringify).
Local Abbreviation imgStep := (processModelImages_step PUBLIC_IMAGES_DIR).
Local Abbreviation changed := (isChanged md5hex JSON_stringify).
Local Abbreviation hashOf := (calculateModelHash md5hex JSON_stringify).

(** the run of the build script is the image loop over the changed
    models, started on the catalog as read and the cache as categorized *)
Lemma build_shape (fs : FS) (data : Catalog.t) (buildCache : BuildCache.t)
    (clock : BuildClock) (res : BuildResult FS) :
  build fs data buildCache clock = Some res ->
  ∃ st0 : ImageState FS,
    st_models st0 = Catalog.models data
    ∧ st_cache st0
      = cat_cache (categorize clock (Catalog.models data) (BuildCache.models buildCache))
    ∧ st_copies st0 = []
    ∧ let st := foldl (fun st idx => imgStep idx st) st0
                  (newModels (categorize clock (Catalog.models data)
                                (BuildCache.models buildCache))) in
      br_data res = Catalog.set_models (st_models st) data
      ∧ br_copies res = st_copies st
      ∧ BuildCache.models (br_cache res) = st_cache st.
Proof.
  unfold buildNextjsApp. intros Hrun.
  destruct (if existsSync fs PUBLIC_IMAGES_DIR then Some fs
            else mkdirSync fs PUBLIC_IMAGES_DIR) as [fs1|]; [|done].
  simpl in Hrun. injection Hrun as <-.
  destruct (newModels _) as [|idx L] eqn:HL.
  - eexists {| st_fs := fs1; st_models := Catalog.models data;
               st_cache := cat_cache _; st_copies := []; copiedCount := 0;
               placeholderCount := 0; updatedCount := 0; st_errorCount := 0 |}.
    simpl. by split_and!.
  - unfold processModelImages.
    eexists {| st_fs := ensurePlaceholder PUBLIC_IMAGES_DIR EXAMPLE_PLACEHOLDER fs1;
               st_models := Catalog.models data;
               st_cache := cat_cache _; st_copies := []; copiedCount := 0;
               placeholderCount := 0; updatedCount := 0; st_errorCount := 0 |}.
    simpl. by split_and!.
Qed.

Lemma isChanged_iff (cache : gmap string CacheEntry.t) (m : Model.t) :
  changed cache m = true
  <-> changedWhen (CacheEntry.hash <$> cache !! Model.id m) (hashOf m) (Model.image m).
Proof.
  unfold isChanged, changedWhen, hasRawImage, hasPlaceholder.
  destruct (cache !! Model.id m) as [e|]; simpl; [|by split; [left|]].
  rewrite !orb_true_iff, negb_true_iff, string_eqb_false. split.
  - intros [[Hh | Hraw] | Hph].
    + right. left. by exists (CacheEntry.hash e).
    + right. right. left. destruct (Model.image m) as [v|]; [|done].
      apply andb_true_iff in Hraw as [[Ht%truthy_true H1%negb_true_iff]%andb_true_iff
                                        H2%negb_true_iff].
      by exists v.
    + right. right. right. destruct (Model.image m) as [v|]; [|done].
      by apply string_eqb_true in Hph as ->.
  - intros [Hnone | [(h & [= <-] & Hne) | [(v & -> & Hv & H1 & H2) | ->]]]; [done|..].
    + by left; left.
    + left. right. rewrite H1, H2. apply truthy_true in Hv. by rewrite Hv.
    + right. apply String.eqb_refl.
Qed.

Lemma categorize_spec (clock : BuildClock) (l : list Model.t)
    (cache : gmap string CacheEntry.t) (j : nat) (m : Model.t) :
  NoDup (Model.id <$> l) ->
  l !! j = Some m ->
  (j ∈ newModels (categorize clock l cache) <-> changed cache m = true)
  ∧ (j ∈ unchangedModels (categorize clock l cache) <-> changed cache m = false)
  ∧ CacheEntry.hash <$> cat_cache (categorize clock l cache) !! Model.id m
    = if changed cache m then Some (hashOf m)
      else CacheEntry.hash <$> cache !! Model.id m.
Proof.
  intros Hnd Hj. unfold categorizeModels.
  destruct (categorize_loop_spec md5hex JSON_stringify clock l 0
              {| newModels := []; unchangedModels := []; cat_cache := cache |} Hnd)
    as (Hn & Hu & _ & Hh).
  simpl in *. rewrite Hn, Hu, !elem_of_indicesWhere.
  split_and!.
  - split.
    + intros (m' & _ & Hm' & Hc). rewrite Nat.sub_0_r, Hj in Hm'. by injection Hm' as <-.
    + intros Hc. exists m. rewrite Nat.sub_0_r. split_and!; [lia | done | done].
  - split.
    + intros (m' & _ & Hm' & Hc). rewrite Nat.sub_0_r, Hj in Hm'. injection Hm' as <-.
      by apply negb_true_iff.
    + intros Hc. exists m. rewrite Nat.sub_0_r. split_and!; [lia | done|].
      by apply negb_true_iff.
  - apply Hh. by apply list_elem_of_lookup_2 with j.
Qed.

(** what the build script leaves of a catalog whose ids are unique *)
Lemma build_materialized (fs : FS) (data : Catalog.t) (buildCache : BuildCache.t)
    (clock : BuildClock) (res : BuildResult FS) :
  NoDup (Model.id <$> Catalog.models data) ->
  build fs data buildCache clock = Some res ->
  Materialized
    (newModels (categorize clock (Catalog.models data) (BuildCache.models buildCache)))
    (Catalog.models data) (Catalog.models (br_data res))
  ∧ (∀ k, CacheEntry.hash <$> BuildCache.models (br_cache res) !! k
          = CacheEntry.hash <$>
              cat_cache (categorize clock (Catalog.models data)
                           (BuildCache.models buildCache)) !! k).
Proof.
  intros Hnd Hrun.
  destruct (build_shape fs data buildCache clock res Hrun)
    as (st0 & Hm0 & Hc0 & _ & Hdata & _ & Hcache).
  rewrite Hdata, Hcache. simpl. split.
  - rewrite <- Hm0 at 2.
    apply (Materialized_foldl PUBLIC_IMAGES_DIR _ [] (st_models st0) st0).
    + by rewrite Hm0.
    + apply Materialized_refl.
  - intros k. by rewrite foldl_step_hashes, Hc0.
Qed.

End BuildScript.


Section Copies.
Context {PM : PathModule} {FS : Type} {FSys : FileSystem FS}.
Variable PUBLIC_IMAGES_DIR : string.

Local Abbreviation imgStep := (processModelImages_step PUBLIC_IMAGES_DIR).

(** a copy is made for a model that went through the loop *)
Lemma foldl_step_copies (L : list nat) (st : ImageState FS) (c : Copy) :
  c ∈ st_copies (foldl (fun st idx => imgStep idx st) st L) ->
  c ∈ st_copies st
  ∨ ∃ idx, idx ∈ L ∧ (Model.id <$> st_models st) !! idx = Some (copy_id c).
Proof.
  revert st. induction L as [|idx L IH]; intros st; simpl; [by left|].
  intros [Hc | (idx' & Hin & Hid)]%IH.
  - destruct (st_models st !! idx) as [m|] eqn:Hidx;
      [|rewrite step_out_of_range in Hc by done; by left].
    destruct (step_cases PUBLIC_IMAGES_DIR idx st m Hidx)
      as [[Heq _] | (j & _ & _ & (v & _ & _ & _ & Hcopies))].
    + rewrite Heq in Hc. by left.
    + destruct Hcopies as [Heq | (_ & c' & Heq & Hid)]; rewrite Heq in Hc; [by left|].
      apply elem_of_app in Hc as [Hc | ->%list_elem_of_singleton]; [by left|].
      right. exists idx. split; [apply list_elem_of_here|].
      by rewrite list_lookup_fmap, Hidx, Hid.
  - right. exists idx'. split; [by apply list_elem_of_further|].
    by rewrite step_ids in Hid.
Qed.

End Copies.

Lemma isChanged_false_not_raw (md5hex : string -> string)
    (JSON_stringify : HashSource -> string)
    (cache : gmap string CacheEntry.t) (m : Model.t) :
  isChanged md5hex JSON_stringify cache m = false ->
  webShaped (Model.image m) ∨ imageless (Model.image m).
Proof.
  unfold isChanged. destruct (cache !! Model.id m); [|done].
  intros [[_ Hraw]%orb_false_iff _]%orb_false_iff.
  destruct (truthy_opt (Model.image m)) eqn:Ht; [left | by right].
  by apply not_raw_web.
Qed.

(** C6, as stated, fails: a model that has no image is not a web path, yet
    with a cache entry of the right hash the categorizer leaves it among the
    unchanged models. *)
Lemma imageless_cached_model_not_changed :
  ¬ (0 ∈ newModels (categorizeModels toyDigest toyStringify (Example.buildClockAt "b1")
                      [Example.bareModel] (BuildCache.models Example.warmCache))
     <-> changedAsStated
           (CacheEntry.hash <$>
              BuildCache.models Example.warmCache !! Model.id Example.bareModel)
           (calculateModelHash toyDigest toyStringify Example.bareModel)
           (Model.image Example.bareModel)).
Proof.
  intros [_ H].
  assert (0 ∈ @nil nat) as Hin; [|by apply elem_of_nil in Hin].
  apply H. right. right. left. intros (v & Hv & _). discriminate Hv.
Qed.

(** C6, amended.  In a catalog whose ids are unique, the categorizer marks a
    model changed if and only if the cache has no entry for its id, or the
    cached hash differs from the MD5 digest of the serialized name, notes,
    tags, collections, attributes, sourcePath, release and subscription (the
    image and dateAdded play no part in it), or the model has an image that
    is a non-empty string starting neither with /images/ nor with http, or
    its image is the placeholder path.  Every other model is listed as
    unchanged, stays out of the image loop, is in the catalog afterwards
    exactly as before, and no file is copied for it. *)
Theorem categorizer_changed_iff
    {PM : PathModule} {FS : Type} {FSys : FileSystem FS}
    (PUBLIC_IMAGES_DIR EXAMPLE_PLACEHOLDER : string)
    (md5hex : string -> string) (JSON_stringify : HashSource -> string)
    (fs : FS) (data : Catalog.t) (buildCache : BuildCache.t) (clock : BuildClock)
    (j : nat) (m : Model.t) :
  NoDup (Model.id <$> Catalog.models data) ->
  Catalog.models data !! j = Some m ->
  let cat := categorizeModels md5hex JSON_stringify clock (Catalog.models data)
               (BuildCache.models buildCache) in
  (j ∈ newModels cat
   <-> changedWhen (CacheEntry.hash <$> BuildCache.models buildCache !! Model.id m)
         (calculateModelHash md5hex JSON_stringify m) (Model.image m))
  ∧ (j ∈ unchangedModels cat <-> j ∉ newModels cat)
  ∧ calculateModelHash md5hex JSON_stringify m
    = md5hex (JSON_stringify
                {| hs_name := Model.name m; hs_notes := Model.notes m;
                   hs_tags := Model.tags m; hs_collections := Model.collections m;
                   hs_attributes := Model.attributes m;
                   hs_sourcePath := Model.sourcePath m;
                   hs_release := Model.release m;
                   hs_subscription := Model.subscription m |})
  ∧ (∀ (v : option string) (d : string),
        calculateModelHash md5hex JSON_stringify
          (Model.set_image v (Model.set_dateAdded d m))
        = calculateModelHash md5hex JSON_stringify m)
  ∧ (j ∉ newModels cat ->
     ∀ res : BuildResult FS,
       buildNextjsApp PUBLIC_IMAGES_DIR EXAMPLE_PLACEHOLDER md5hex JSON_stringify
         fs data buildCache clock = Some res ->
       Catalog.models (br_data res) !! j = Some m
       ∧ ∀ c, c ∈ br_copies res -> copy_id c ≠ Model.id m).
Proof.
  intros Hnd Hj cat.
  destruct (categorize_spec md5hex JSON_stringify clock (Catalog.models data)
              (BuildCache.models buildCache) j m Hnd Hj) as (Hnew & Hunch & _).
  fold cat in Hnew, Hunch.
  split_and!.
  - by rewrite Hnew, isChanged_iff.
  - rewrite Hnew, Hunch. by destruct (isChanged _ _ _ m).
  - reflexivity.
  - reflexivity.
  - intros Hout res Hrun. split.
    + destruct (build_materialized _ _ _ _ fs data buildCache clock res Hnd Hrun)
        as [[_ Hall] _].
      destruct (Hall j m Hj) as (m' & Hm' & _ & _ & Hsame).
      by rewrite Hm', (Hsame Hout).
    + intros c Hc Hid.
      destruct (build_shape _ _ _ _ fs data buildCache clock res Hrun)
        as (st0 & Hm0 & _ & Hc0 & _ & Hcopies & _).
      rewrite Hcopies in Hc.
      apply foldl_step_copies in Hc as [Hc | (idx & Hin & Hidx)].
      * rewrite Hc0 in Hc. by apply elem_of_nil in Hc.
      * rewrite Hm0, Hid in Hidx.
        assert (idx = j) as ->; [|done].
        eapply NoDup_lookup; [exact Hnd | exact Hidx |].
        by rewrite list_lookup_fmap, Hj.
Qed.

Lemma categorizer_changed_iff_witness :
  let cat := categorizeModels toyDigest toyStringify (Example.buildClockAt "b1")
               (Catalog.models Example.bareCatalog)
               (BuildCache.models Example.warmCache) in
  (0 ∈ newModels cat
   <-> changedWhen
         (CacheEntry.hash <$>
            BuildCache.models Example.warmCache !! Model.id Example.bareModel)
         (calculateModelHash toyDigest toyStringify Example.bareModel)
         (Model.image Example.bareModel))
  ∧ (0 ∈ unchangedModels cat <-> 0 ∉ newModels cat).
Proof.
  pose proof (@categorizer_changed_iff posix ToyFs.t toyFs Example.publicImages
                Example.examplePlaceholder toyDigest toyStringify Example.fs0
                Example.bareCatalog Example.warmCache (Example.buildClockAt "b1")
                0 Example.bareModel) as H.
  simpl in H. destruct H as (H1 & H2 & _).
  - apply NoDup_singleton.
  - reflexivity.
  - split; [exact H1 | exact H2].
Defined.

(** C9, as stated, fails: a catalog entry without image whose cache entry
    has the right hash is skipped as unchanged and leaves the build without
    an image. *)
Lemma imageless_cached_model_stays_imageless :
  ¬ (∀ res : BuildResult ToyFs.t,
        @buildNextjsApp posix ToyFs.t toyFs Example.publicImages
          Example.examplePlaceholder toyDigest toyStringify Example.fs0
          Example.bareCatalog Example.warmCache (Example.buildClockAt "b1") = Some res ->
        ∀ m, m ∈ Catalog.models (br_data res) -> webShaped (Model.image m)).
Proof.
  intros H.
  destruct (@buildNextjsApp posix ToyFs.t toyFs Example.publicImages
              Example.examplePlaceholder toyDigest toyStringify Example.fs0
              Example.bareCatalog Example.warmCache (Example.buildClockAt "b1"))
    as [res|] eqn:Hrun; [|discriminate Hrun].
  assert (Catalog.models (br_data res) = [Example.bareModel]) as Hmodels.
  { vm_compute in Hrun. injection Hrun as <-. reflexivity. }
  destruct (H res eq_refl Example.bareModel) as (v & Hv & _).
  - rewrite Hmodels. apply list_elem_of_here.
  - discriminate Hv.
Qed.

(** C9, amended.  When the build script is done with a catalog whose ids are
    unique, the catalog has the same entries in the same order, none
    differing from before in anything but the image; the image of every
    entry that was categorized changed starts with /images/ (a published
    copy or the placeholder) or with http, and so does the image of an entry
    skipped as unchanged whenever that entry has one; an unchanged entry
    without image (absent or empty) is left as it was.  No entry is left
    with an image that is a raw file-system path. *)
Theorem materialized_images_web_or_skipped
    {PM : PathModule} {FS : Type} {FSys : FileSystem FS}
    (PUBLIC_IMAGES_DIR EXAMPLE_PLACEHOLDER : string)
    (md5hex : string -> string) (JSON_stringify : HashSource -> string)
    (fs : FS) (data : Catalog.t) (buildCache : BuildCache.t) (clock : BuildClock)
    (res : BuildResult FS) :
  NoDup (Model.id <$> Catalog.models data) ->
  buildNextjsApp PUBLIC_IMAGES_DIR EXAMPLE_PLACEHOLDER md5hex JSON_stringify
    fs data buildCache clock = Some res ->
  length (Catalog.models (br_data res)) = length (Catalog.models data)
  ∧ ∀ j m, Catalog.models data !! j = Some m ->
      ∃ m', Catalog.models (br_data res) !! j = Some m'
            ∧ m' = Model.set_image (Model.image m') m
            ∧ (webShaped (Model.image m')
               ∨ (imageless (Model.image m') ∧ m' = m
                  ∧ j ∈ unchangedModels
                        (categorizeModels md5hex JSON_stringify clock
                           (Catalog.models data) (BuildCache.models buildCache))))
            ∧ hasRawImage m' = false.
Proof.
  intros Hnd Hrun.
  destruct (build_materialized _ _ _ _ fs data buildCache clock res Hnd Hrun)
    as [[Hlen Hall] _].
  split; [done|]. intros j m Hj.
  destruct (Hall j m Hj) as (m' & Hm' & Heq & Hin & Hout).
  destruct (categorize_spec md5hex JSON_stringify clock (Catalog.models data)
              (BuildCache.models buildCache) j m Hnd Hj) as (Hnew & Hunch & _).
  exists m'. split; [done|]. split; [done|].
  assert (webShaped (Model.image m')
          ∨ imageless (Model.image m') ∧ m' = m
            ∧ j ∈ unchangedModels
                  (categorizeModels md5hex JSON_stringify clock
                     (Catalog.models data) (BuildCache.models buildCache))) as Hcases.
  { destruct (isChanged md5hex JSON_stringify (BuildCache.models buildCache) m) eqn:Hc.
    - left. by apply Hin, Hnew.
    - assert (m' = m) as -> by (apply Hout; rewrite Hnew; congruence).
      destruct (isChanged_false_not_raw _ _ _ _ Hc) as [Hweb | Hnone]; [by left|].
      right. split_and!; [done | done | by apply Hunch]. }
  split; [done|].
  destruct Hcases as [Hweb | (Hnone & _ & _)].
  - by destruct (web_not_raw m' Hweb).
  - unfold imageless in Hnone. unfold hasRawImage.
    destruct (Model.image m') as [v|]; [|done]. simpl in Hnone. by rewrite Hnone.
Qed.

Lemma materialized_images_web_or_skipped_witness :
  ∃ res : BuildResult ToyFs.t,
    @buildNextjsApp posix ToyFs.t toyFs Example.publicImages
      Example.examplePlaceholder toyDigest toyStringify Example.fs0
      Example.bareCatalog Example.emptyCache (Example.buildClockAt "b1") = Some res
    ∧ length (Catalog.models (br_data res)) = 1
    ∧ ∀ j m, Catalog.models Example.bareCatalog !! j = Some m ->
        ∃ m', Catalog.models (br_data res) !! j = Some m'
              ∧ m' = Model.set_image (Model.image m') m
              ∧ (webShaped (Model.image m')
                 ∨ (imageless (Model.image m') ∧ m' = m
                    ∧ j ∈ unchangedModels
                          (categorizeModels toyDigest toyStringify
                             (Example.buildClockAt "b1")
                             (Catalog.models Example.bareCatalog)
                             (BuildCache.models Example.emptyCache))))
              ∧ hasRawImage m' = false.
Proof.
  eexists. split; [reflexivity|].
  apply (@materialized_images_web_or_skipped posix ToyFs.t toyFs Example.publicImages
           Example.examplePlaceholder toyDigest toyStringify Example.fs0
           Example.bareCatalog Example.emptyCache (Example.buildClockAt "b1")).
  - apply NoDup_singleton.
  - reflexivity.
Defined.


(** ** What the extractor carries over from the prior catalog *)

Section Existing.
Context {PM : PathModule} {FS : Type} {FSys : FileSystem FS}.

Local Abbreviation remember :=
  (fun (existingModels : gmap string string) (model : Model.t) =>
     match Model.image model with
     | Some img =>
         if truthy (Model.id model) && truthy img
         then <[Model.id model := img]> existingModels
         else existingModels
     | None => existingModels
     end).

Lemma remember_other (l : list Model.t) (acc : gmap string string) (k : string) :
  k ∉ Model.id <$> l -> foldl remember acc l !! k = acc !! k.
Proof.
  revert acc. induction l as [|m l IH]; intros acc Hk; simpl; [done|].
  rewrite IH by (intros H; apply Hk; by apply list_elem_of_further).
  destruct (Model.image m) as [img|]; [|done].
  destruct (truthy (Model.id m) && truthy img); [|done].
  apply lookup_insert_ne. intros <-. apply Hk, list_elem_of_here.
Qed.

Lemma remember_lookup (l : list Model.t) (acc : gmap string string) (e : Model.t) :
  NoDup (Model.id <$> l) -> e ∈ l ->
  foldl remember acc l !! Model.id e
  = if truthy (Model.id e) && truthy_opt (Model.image e) then Model.image e
    else acc !! Model.id e.
Proof.
  revert acc. induction l as [|m l IH]; intros acc Hnd Hin; [by apply elem_of_nil in Hin|].
  rewrite fmap_cons in Hnd. apply NoDup_cons in Hnd as [Hnotin Hnd]. simpl.
  apply elem_of_cons in Hin as [-> | Hin].
  - rewrite remember_other by done.
    destruct (Model.image m) as [img|]; simpl; [|by rewrite andb_false_r].
    destruct (truthy (Model.id m) && truthy img); [|done].
    by rewrite lookup_insert_eq.
  - rewrite IH by done.
    destruct (truthy (Model.id e) && truthy_opt (Model.image e)); [done|].
    destruct (Model.image m) as [img|]; [|done].
    destruct (truthy (Model.id m) && truthy img); [|done].
    apply lookup_insert_ne. intros Heq. apply Hnotin. rewrite Heq.
    apply list_elem_of_fmap. by exists e.
Qed.

Lemma loadExistingDataFile_lookup (cat : Catalog.t) (e : Model.t) :
  NoDup (Model.id <$> Catalog.models cat) -> e ∈ Catalog.models cat ->
  loadExistingDataFile (Some cat) !! Model.id e
  = if truthy (Model.id e) && truthy_opt (Model.image e) then Model.image e else None.
Proof.
  intros Hnd Hin. unfold loadExistingDataFile.
  rewrite (remember_lookup _ ∅ e Hnd Hin). by rewrite lookup_empty.
Qed.

Lemma initialImage_preserved (em : gmap string string) (fs : FS)
    (id dir : string) (cover : option string) (img : string) :
  em !! id = Some img -> webFriendly img = true ->
  initialImage em fs id dir cover = Some img.
Proof.
  intros Hem Hweb. unfold initialImage. rewrite Hem, Hweb. simpl.
  by rewrite (webFriendly_truthy _ Hweb).
Qed.



End Existing.

Lemma generateStableId_nonempty {PM : PathModule} (root : string)
    (md5hex : string -> string) (name configPath : string) :
  truthy (generateStableId root md5hex name configPath) = true.
Proof.
  apply truthy_true. unfold generateStableId.
  destruct (dash_non_alnum (toLowerCase name)); simpl_append; discriminate.
Qed.

Section Entries.
Context {PM : PathModule} {FS : Type} {FSys : FileSystem FS}.
Variable ORYNT3D_DIRECTORY : string.
Variable md5hex : string -> string.
Variable readConfig : string -> option Config.t.

Local Abbreviation entry := (entryOf ORYNT3D_DIRECTORY md5hex readConfig).
Local Abbreviation entries := (entriesFrom ORYNT3D_DIRECTORY md5hex readConfig).
Local Abbreviation imageOf := (imageFor ORYNT3D_DIRECTORY md5hex readConfig).
Local Abbreviation idOf := (idFor ORYNT3D_DIRECTORY md5hex readConfig).

Lemma entriesFrom_inv rcs em (fs : FS) clock files i m :
  m ∈ entries rcs em fs clock i files ->
  ∃ j p, p ∈ files ∧ entry rcs em fs clock j p = Some m.
Proof.
  revert i. induction files as [|q files IH]; intros i; simpl;
    [by intros ?%elem_of_nil|].
  intros [Hm | Hm]%elem_of_app.
  - exists i, q. split; [apply list_elem_of_here|].
    destruct (entry rcs em fs clock i q); simpl in Hm;
      [by apply list_elem_of_singleton in Hm as -> | by apply elem_of_nil in Hm].
  - destruct (IH _ Hm) as (j & p & Hp & He). exists j, p.
    split; [by apply list_elem_of_further | done].
Qed.

(** the entry of a config file: its id, date and image *)
Lemma entryOf_fields rcs em (fs : FS) clock i p m :
  entry rcs em fs clock i p = Some m ->
  Model.id m = idOf p
  ∧ truthy (Model.id m) = true
  ∧ Model.dateAdded m = dateAddedAt clock i
  ∧ Model.image m = imageOf em fs p.
Proof.
  intros He. unfold entryOf in He.
  destruct (readConfig p) as [cfg|] eqn:Hread; [|done].
  destruct (isReleaseConfig cfg) eqn:Hrel; [done|].
  destruct (isValidModelConfig cfg) eqn:Hval; [|done].
  assert (p ≠ ""%string ∧ ∃ mm, Config.modelmeta cfg = Some mm) as [Hp [mm Hmm]].
  { unfold processModelConfig in He.
    destruct (truthy p) eqn:Htp; [|done]. apply truthy_true in Htp.
    split; [done|]. destruct (Config.modelmeta cfg); [by eexists | done]. }
  destruct (entryOf_model ORYNT3D_DIRECTORY md5hex readConfig rcs em fs clock i p
              cfg mm Hread) as (m' & He' & _ & Hid & Hdate & Himg); [|done..|].
  { unfold classify. by rewrite Hrel, Hval. }
  unfold entryOf in He'. rewrite Hread, Hrel, Hval, He in He'. injection He' as <-.
  unfold imageFor, idFor, coverFor. rewrite Hread, Hmm.
  split_and!; [done | | done | by rewrite Himg, Hid].
  rewrite Hid. apply generateStableId_nonempty.
Qed.

End Entries.

(** C2, as stated, fails on both counts.  The model that is in the prior
    catalog under the same id, added at t1, comes out of a rebuild at t2
    with dateAdded t2; and a prior image that is a raw path is not carried
    forward: the image is searched for again. *)
Lemma rebuild_regenerates_dateAdded :
  ¬ (∀ data : Catalog.t,
        @mainExtractModelData posix ToyFs.t toyFs Example.root toyDigest
          Example.readConfig Example.fs0 (Some Example.catalog1) Example.scan
          (Example.clockAt "t2") = Some data ->
        ∀ e m, e ∈ Catalog.models Example.catalog1 -> m ∈ Catalog.models data ->
               Model.id m = Model.id e ->
               Model.dateAdded m = Model.dateAdded e)
  ∧ ¬ (∀ data : Catalog.t,
          @mainExtractModelData posix ToyFs.t toyFs Example.root toyDigest
            Example.readConfig Example.fs0 (Some Example.catalogRaw) Example.scan
            (Example.clockAt "t2") = Some data ->
          ∀ e m, e ∈ Catalog.models Example.catalogRaw -> m ∈ Catalog.models data ->
                 Model.id m = Model.id e ->
                 Model.image m = Model.image e).
Proof.
  split; intros H.
  - destruct (@mainExtractModelData posix ToyFs.t toyFs Example.root toyDigest
                Example.readConfig Example.fs0 (Some Example.catalog1) Example.scan
                (Example.clockAt "t2")) as [data|] eqn:Hrun; [|discriminate Hrun].
    vm_compute in Hrun. injection Hrun as <-.
    specialize (H _ eq_refl _ _ (list_elem_of_here _ _) (list_elem_of_here _ _) eq_refl).
    vm_compute in H. discriminate H.
  - destruct (@mainExtractModelData posix ToyFs.t toyFs Example.root toyDigest
                Example.readConfig Example.fs0 (Some Example.catalogRaw) Example.scan
                (Example.clockAt "t2")) as [data|] eqn:Hrun; [|discriminate Hrun].
    vm_compute in Hrun. injection Hrun as <-.
    specialize (H _ eq_refl _ _ (list_elem_of_here _ _) (list_elem_of_here _ _) eq_refl).
    vm_compute in H. discriminate H.
Qed.

(** C2, amended.  Every entry the extractor writes carries as dateAdded the
    clock's reading at the time its config file is processed, whatever the
    prior catalog says.  For a model whose id is in the prior catalog (ids
    being unique there) with an image that starts with /images/ or with
    http, the new entry carries that image value forward. *)
Theorem rebuild_carries_web_image_forward
    {PM : PathModule} {FS : Type} {FSys : FileSystem FS}
    (ORYNT3D_DIRECTORY : string) (md5hex : string -> string)
    (readConfig : string -> option Config.t)
    (fs : FS) (prior : option Catalog.t) (scan : Scan) (clock : ExtractClock)
    (data : Catalog.t) (m : Model.t) :
  mainExtractModelData ORYNT3D_DIRECTORY md5hex readConfig fs prior scan clock
  = Some data ->
  m ∈ Catalog.models data ->
  (∃ i, Model.dateAdded m = dateAddedAt clock i)
  ∧ (∀ (cat : Catalog.t) (e : Model.t) (img : string),
        prior = Some cat ->
        NoDup (Model.id <$> Catalog.models cat) ->
        e ∈ Catalog.models cat ->
        Model.id e = Model.id m ->
        Model.image e = Some img ->
        webFriendly img = true ->
        Model.image m = Some img).
Proof.
  unfold mainExtractModelData.
  destruct (existsSync fs ORYNT3D_DIRECTORY); [|done]. simpl.
  intros [= <-]. simpl. rewrite processModelConfigs_models.
  intros (j & p & Hp & He)%entriesFrom_inv.
  destruct (entryOf_fields _ _ _ _ _ _ _ _ _ _ He) as (Hid & Htruthy & Hdate & Himg).
  split; [by exists j|].
  intros cat e img -> Hnd Hin Hide Hime Hweb.
  rewrite Himg. unfold imageFor. rewrite <- Hid. apply initialImage_preserved; [|done].
  rewrite <- Hide, loadExistingDataFile_lookup by done.
  rewrite Hide, Htruthy, Hime. simpl. by rewrite (webFriendly_truthy _ Hweb).
Qed.

Lemma rebuild_carries_web_image_forward_witness :
  ∃ (data : Catalog.t) (m : Model.t),
    @mainExtractModelData posix ToyFs.t toyFs Example.root toyDigest
      Example.readConfig Example.fs0 (Some Example.catalog1) Example.scan
      (Example.clockAt "t2") = Some data
    ∧ Catalog.models data !! 0 = Some m
    ∧ Model.dateAdded m = "t2"%string
    ∧ Model.image m = Some "/images/model-goblin-Goblin-C-cover.png"%string.
Proof.
  eexists _, _. split; [reflexivity|]. split; [reflexivity|].
  edestruct (@rebuild_carries_web_image_forward posix ToyFs.t toyFs Example.root
               toyDigest Example.readConfig Example.fs0 (Some Example.catalog1)
               Example.scan (Example.clockAt "t2")) as [[i Hdate] Himg].
  - reflexivity.
  - apply list_elem_of_here.
  - split; [exact Hdate|].
    apply (Himg Example.catalog1
             (default Example.bareModel (Catalog.models Example.catalog1 !! 0))).
    + reflexivity.
    + apply NoDup_cons. split; [|apply NoDup_singleton].
      intros H%list_elem_of_singleton. discriminate H.
    + apply list_elem_of_here.
    + reflexivity.
    + reflexivity.
    + reflexivity.
Defined.


(** ** A web path, once in the catalog, stays *)

Section Keeps.
Context {PM : PathModule} {FS : Type} {FSys : FileSystem FS}.
Variable ORYNT3D_DIRECTORY PUBLIC_IMAGES_DIR EXAMPLE_PLACEHOLDER : string.
Variable md5hex : string -> string.
Variable JSON_stringify : HashSource -> string.
Variable readConfig : string -> option Config.t.

Local Abbreviation imgStep := (processModelImages_step PUBLIC_IMAGES_DIR).

Lemma step_keeps (id img : string) (idx : nat) (st : ImageState FS) :
  webFriendly img = true ->
  KeepsImage id img st -> KeepsImage id img (imgStep idx st).
Proof.
  intros Hweb [Himg Hcopies].
  destruct (st_models st !! idx) as [m|] eqn:Hidx;
    [|by rewrite step_out_of_range].
  destruct (step_cases PUBLIC_IMAGES_DIR idx st m Hidx)
    as [[-> _] | (j & Hj & Hneeds & (v & Hv & Hmodels & _ & Hnew))]; [done|].
  assert (Model.id m ≠ id) as Hne.
  { intros Hid. destruct (web_not_raw m) as [Hraw Htruthy].
    { exists img. split; [by apply (Himg idx) | done]. }
    unfold imageless in Hneeds. destruct Hneeds; congruence. }
  destruct (findIndex_Some _ _ _ Hj) as (mj & Hmj & Hidj).
  rewrite Hmj in Hmodels. split.
  - intros k mk. rewrite Hmodels. destruct (decide (k = j)) as [->|Hkj].
    + rewrite list_lookup_insert_eq by by eapply lookup_lt_Some.
      intros [= <-]. rewrite set_image_id. congruence.
    + rewrite list_lookup_insert_ne by done. apply Himg.
  - intros c. destruct Hnew as [-> | (_ & c' & -> & Hc')]; [apply Hcopies|].
    intros [Hc | ->%list_elem_of_singleton]%elem_of_app; [by apply Hcopies | congruence].
Qed.

Lemma foldl_keeps (id img : string) (L : list nat) (st : ImageState FS) :
  webFriendly img = true ->
  KeepsImage id img st ->
  KeepsImage id img (foldl (fun st idx => imgStep idx st) st L).
Proof.
  intros Hweb. revert st. induction L as [|idx L IH]; intros st Hst; simpl; [done|].
  by apply IH, step_keeps.
Qed.

(** the extractor hands a web path of the prior catalog on, whatever the
    file system holds *)
Lemma extracted_image_preserved (fs : FS) (cat : Catalog.t) (scan : Scan)
    (clock : ExtractClock) (data : Catalog.t) (e m : Model.t) (img : string) :
  NoDup (Model.id <$> Catalog.models cat) ->
  e ∈ Catalog.models cat ->
  Model.image e = Some img ->
  webFriendly img = true ->
  mainExtractModelData ORYNT3D_DIRECTORY md5hex readConfig fs (Some cat) scan clock
  = Some data ->
  m ∈ Catalog.models data ->
  Model.id m = Model.id e ->
  Model.image m = Some img.
Proof.
  intros Hnd Hin Hime Hweb. unfold mainExtractModelData.
  destruct (existsSync fs ORYNT3D_DIRECTORY); [|done]. cbn [negb].
  intros [= <-]. cbn [Catalog.models]. rewrite processModelConfigs_models.
  intros (j & p & Hp & He)%entriesFrom_inv Hid.
  destruct (entryOf_fields _ _ _ _ _ _ _ _ _ _ He) as (Hidp & Htruthy & _ & Himg).
  rewrite Himg. unfold imageFor. rewrite <- Hidp, Hid.
  apply initialImage_preserved; [|done].
  change (foldl _ ∅ (Catalog.models cat)) with (loadExistingDataFile (Some cat)).
  rewrite loadExistingDataFile_lookup by done.
  rewrite <- Hid, Htruthy, Hime. simpl. by rewrite (webFriendly_truthy _ Hweb).
Qed.

End Keeps.

(** C10.  Let the prior catalog (its ids unique) hold an entry whose image
    starts with /images/ or with http.  Then after a run of the extractor
    followed by the build script, every catalog entry with that id has
    exactly that image value, and no file was copied for that id; already
    the extractor gives the entry that image, on any file system, so what
    the source directories hold plays no part, and neither do the other
    fields of the model or the build cache. *)
Theorem web_image_is_kept_across_runs
    {PM : PathModule} {FS : Type} {FSys : FileSystem FS}
    (ORYNT3D_DIRECTORY PUBLIC_IMAGES_DIR EXAMPLE_PLACEHOLDER : string)
    (md5hex : string -> string) (JSON_stringify : HashSource -> string)
    (readConfig : string -> option Config.t)
    (fs : FS) (cat : Catalog.t) (buildCache : BuildCache.t) (scan : Scan)
    (eclock : ExtractClock) (bclock : BuildClock) (res : BuildResult FS)
    (e : Model.t) (img : string) :
  NoDup (Model.id <$> Catalog.models cat) ->
  e ∈ Catalog.models cat ->
  Model.image e = Some img ->
  webFriendly img = true ->
  extractThenBuild ORYNT3D_DIRECTORY PUBLIC_IMAGES_DIR EXAMPLE_PLACEHOLDER md5hex
    JSON_stringify readConfig fs (Some cat) buildCache scan eclock bclock = Some res ->
  (∀ m, m ∈ Catalog.models (br_data res) -> Model.id m = Model.id e ->
        Model.image m = Some img)
  ∧ (∀ c, c ∈ br_copies res -> copy_id c ≠ Model.id e)
  ∧ (∀ (fs' : FS) (data' : Catalog.t),
        mainExtractModelData ORYNT3D_DIRECTORY md5hex readConfig fs' (Some cat) scan
          eclock = Some data' ->
        ∀ m, m ∈ Catalog.models data' -> Model.id m = Model.id e ->
             Model.image m = Some img).
Proof.
  intros Hnd Hin Hime Hweb Hrun. unfold extractThenBuild in Hrun.
  destruct (mainExtractModelData _ _ _ fs _ _ _) as [data|] eqn:Hextract; [|done].
  simpl in Hrun.
  destruct (build_shape _ _ _ _ fs data buildCache bclock res Hrun)
    as (st0 & Hm0 & _ & Hc0 & Hdata & Hcopies & _).
  assert (KeepsImage (Model.id e) img
            (foldl (fun st idx => processModelImages_step PUBLIC_IMAGES_DIR idx st) st0
               (newModels (categorizeModels md5hex JSON_stringify bclock
                             (Catalog.models data) (BuildCache.models buildCache)))))
    as [Hkeep Hnocopy].
  { apply foldl_keeps; [done|]. split.
    - intros j m Hj Hid. rewrite Hm0 in Hj.
      eapply extracted_image_preserved; try done.
      by apply list_elem_of_lookup_2 with j.
    - intros c Hc. rewrite Hc0 in Hc. by apply elem_of_nil in Hc. }
  split_and!.
  - intros m Hm Hid. rewrite Hdata in Hm. simpl in Hm.
    apply list_elem_of_lookup_1 in Hm as [j Hj]. by apply (Hkeep j).
  - intros c Hc. apply Hnocopy. by rewrite <- Hcopies.
  - intros fs' data' Hextract' m Hm Hid.
    by eapply extracted_image_preserved.
Qed.

Lemma web_image_is_kept_across_runs_witness :
  ∃ res : BuildResult ToyFs.t,
    @extractThenBuild posix ToyFs.t toyFs Example.root Example.publicImages
      Example.examplePlaceholder toyDigest toyStringify Example.readConfig
      Example.fs0 (Some Example.catalog1) Example.emptyCache Example.scan
      (Example.clockAt "t2") (Example.buildClockAt "b2") = Some res
    ∧ (∀ m, m ∈ Catalog.models (br_data res) ->
            Model.id m = "goblin-Goblin-C"%string ->
            Model.image m = Some "/images/model-goblin-Goblin-C-cover.png"%string)
    ∧ (∀ c, c ∈ br_copies res -> copy_id c ≠ "goblin-Goblin-C"%string).
Proof.
  destruct (@extractThenBuild posix ToyFs.t toyFs Example.root Example.publicImages
              Example.examplePlaceholder toyDigest toyStringify Example.readConfig
              Example.fs0 (Some Example.catalog1) Example.emptyCache Example.scan
              (Example.clockAt "t2") (Example.buildClockAt "b2")) as [res|] eqn:Hrun;
    [|vm_compute in Hrun; discriminate Hrun].
  exists res. split; [reflexivity|].
  destruct (@web_image_is_kept_across_runs posix ToyFs.t toyFs Example.root
              Example.publicImages Example.examplePlaceholder toyDigest toyStringify
              Example.readConfig Example.fs0 Example.catalog1 Example.emptyCache
              Example.scan (Example.clockAt "t2") (Example.buildClockAt "b2") res
              (default Example.bareModel (Catalog.models Example.catalog1 !! 0))
              "/images/model-goblin-Goblin-C-cover.png")
    as (H1 & H2 & _).
  - apply NoDup_cons. split; [|apply NoDup_singleton].
    intros H%list_elem_of_singleton. discriminate H.
  - apply list_elem_of_here.
  - reflexivity.
  - reflexivity.
  - exact Hrun.
  - split; [exact H1 | exact H2].
Defined.


(** ** Two runs over the same source tree *)





Section TwoRuns.
Context {PM : PathModule} {FS : Type} {FSys : FileSystem FS}.
Variable ORYNT3D_DIRECTORY : string.
Variable md5hex : string -> string.
Variable readConfig : string -> option Config.t.

Local Abbreviation entry := (entryOf ORYNT3D_DIRECTORY md5hex readConfig).
Local Abbreviation entries := (entriesFrom ORYNT3D_DIRECTORY md5hex readConfig).
Local Abbreviation imageOf := (imageFor ORYNT3D_DIRECTORY md5hex readConfig).
Local Abbreviation idOf := (idFor ORYNT3D_DIRECTORY md5hex readConfig).




End TwoRuns.


Section SecondRun.
Context {PM : PathModule} {FS : Type} {FSys : FileSystem FS}.
Variable ORYNT3D_DIRECTORY PUBLIC_IMAGES_DIR EXAMPLE_PLACEHOLDER : string.
Variable md5hex : string -> string.
Variable JSON_stringify : HashSource -> string.
Variable readConfig : string -> option Config.t.

Local Abbreviation extract := (mainExtractModelData ORYNT3D_DIRECTORY md5hex readConfig).
Local Abbreviation build :=
  (buildNextjsApp PUBLIC_IMAGES_DIR EXAMPLE_PLACEHOLDER md5hex JSON_stringify).
Local Abbreviation changed := (isChanged md5hex JSON_stringify).
Local Abbreviation categorize := (categorizeModels md5hex JSON_stringify).
Local Abbreviation entries := (entriesFrom ORYNT3D_DIRECTORY md5hex readConfig).


Lemma extract_shape (fs : FS) (prior : option Catalog.t) (scan : Scan)
    (clock : ExtractClock) (data : Catalog.t) :
  extract fs prior scan clock = Some data ->
  Catalog.models data
  = entries (analyzeConfigFiles readConfig (configFiles scan))
      (loadExistingDataFile prior) fs clock 0 (configFiles scan)
  ∧ Catalog.totalCount data = length (Catalog.models data)
  ∧ scanCounts (Catalog.scanStats data)
    = (totalDirectoriesScanned scan, totalFilesFound scan,
       length (configFiles scan),
       length (analyzeConfigFiles readConfig (configFiles scan))).
Proof.
  unfold mainExtractModelData.
  destruct (existsSync fs ORYNT3D_DIRECTORY); [|done]. cbn [negb].
  intros [= <-]. cbn [Catalog.models Catalog.totalCount Catalog.scanStats].
  by rewrite processModelConfigs_models.
Qed.


End SecondRun.






(** * Further properties of the extractor *)

(** ** The release map *)

Lemma map_set_keys {V : Type} (k : string) (v : V) (m : list (string * V)) :
  (map_set k v m).*1 = m.*1 ∧ k ∈ m.*1
  ∨ (map_set k v m).*1 = m.*1 ++ [k] ∧ k ∉ m.*1.
Proof.
  induction m as [|[k' v'] m IH]; simpl.
  - right. split; [done|]. apply not_elem_of_nil.
  - destruct (String.eqb k k') eqn:E.
    + apply string_eqb_true in E as ->. left. split; [done|]. apply list_elem_of_here.
    + apply string_eqb_false in E. rewrite fmap_cons. simpl.
      destruct IH as [[Heq Hin]|[Heq Hnin]].
      * left. split; [by rewrite Heq|]. by apply list_elem_of_further.
      * right. split; [by rewrite Heq|].
        intros [->|Hin]%elem_of_cons; [done|]. by apply Hnin.
Qed.

Lemma map_set_NoDup {V : Type} (k : string) (v : V) (m : list (string * V)) :
  NoDup m.*1 -> NoDup (map_set k v m).*1.
Proof.
  intros Hnd. destruct (map_set_keys k v m) as [[Heq _]|[Heq Hnin]].
  - by rewrite Heq.
  - rewrite Heq. apply NoDup_app. split_and!; [done| |apply NoDup_singleton].
    intros x Hx ->%list_elem_of_singleton. by apply Hnin.
Qed.

Lemma map_set_elem {V : Type} (k : string) (v : V) (m : list (string * V))
    (p : string) (x : V) :
  NoDup m.*1 ->
  ((p, x) ∈ map_set k v m <-> (p = k ∧ x = v) ∨ (p ≠ k ∧ (p, x) ∈ m)).
Proof.
  induction m as [|[k' v'] m IH]; simpl; intros Hnd.
  - rewrite list_elem_of_singleton. split.
    + intros [= -> ->]. by left.
    + intros [[-> ->]|[_ H]]; [done|]. by apply elem_of_nil in H.
  - apply NoDup_cons in Hnd as [Hk' Hnd].
    destruct (String.eqb k k') eqn:E.
    + apply string_eqb_true in E as <-.
      rewrite !elem_of_cons. split.
      * intros [[= -> ->]|Hin]; [by left|].
        right. split; [|by right].
        intros ->. apply Hk'. apply list_elem_of_fmap. by exists (k, x).
      * intros [[-> ->]|[Hne [[= Heq _]|Hin]]]; [by left|done|by right].
    + apply string_eqb_false in E.
      rewrite !elem_of_cons, (IH Hnd). split.
      * intros [[= -> ->]|[[-> ->]|[Hne Hin]]].
        -- right. split; [by intros ->|by left].
        -- by left.
        -- right. split; [done|by right].
      * intros [[-> ->]|[Hne [[= -> ->]|Hin]]].
        -- right. by left.
        -- by left.
        -- right. right. by split.
Qed.

(** the loop of the first pass: what holds of the map after the files
    [seen] holds of it after [seen ++ l] *)
Lemma analyzeConfigFiles_fold
    {PM : PathModule} (readConfig : string -> option Config.t)
    (l : list string) (acc : list (string * ReleaseInfo)) (seen : list string) :
  NoDup acc.*1 ->
  (∀ p info, (p, info) ∈ acc
             <-> p ∈ seen ∧ readConfig p = Some (config info)
                 ∧ isReleaseConfig (config info) = true
                 ∧ dirPath info = dirname p) ->
  let result :=
    foldl (fun releaseConfigs filePath =>
             match readConfig filePath with
             | Some config =>
                 if isReleaseConfig config
                 then map_set filePath
                        {| config := config; dirPath := dirname filePath |}
                        releaseConfigs
                 else releaseConfigs
             | None => releaseConfigs
             end) acc l in
  NoDup result.*1
  ∧ ∀ p info, (p, info) ∈ result
              <-> p ∈ seen ++ l ∧ readConfig p = Some (config info)
                  ∧ isReleaseConfig (config info) = true
                  ∧ dirPath info = dirname p.
Proof.
  cbv zeta. set (f := fun (releaseConfigs : list (string * ReleaseInfo)) filePath => _).
  revert acc seen. induction l as [|q l IH]; intros acc seen Hnd Hacc; simpl.
  - split; [done|]. intros p info. by rewrite app_nil_r.
  - destruct (IH (f acc q) (seen ++ [q])) as [Hnd' Hin'].
    + unfold f. destruct (readConfig q) as [c|]; [|done].
      destruct (isReleaseConfig c); [|done]. by apply map_set_NoDup.
    + intros p info. unfold f.
      destruct (readConfig q) as [c|] eqn:Hq.
      * destruct (isReleaseConfig c) eqn:Hc.
        -- rewrite (map_set_elem _ _ _ _ _ Hnd), Hacc, elem_of_app,
             list_elem_of_singleton.
           split.
           ++ intros [[-> ->]|[Hne (Hp & Hr & Hi & Hd)]]; simpl.
              ** split_and!; [by right|done|done|done].
              ** split_and!; [by left|done|done|done].
           ++ intros ([Hp| ->] & Hr & Hi & Hd).
              ** destruct (decide (p = q)) as [->|Hne].
                 --- left. split; [done|]. destruct info as [ci di]. simpl in *.
                     rewrite Hq in Hr. injection Hr as <-. by subst di.
                 --- right. by split_and!.
              ** left. split; [done|]. destruct info as [ci di]. simpl in *.
                 rewrite Hq in Hr. injection Hr as <-. by subst di.
        -- rewrite Hacc, elem_of_app, list_elem_of_singleton. split.
           ++ intros (Hp & Hr & Hi & Hd). split_and!; [by left|done|done|done].
           ++ intros ([Hp| ->] & Hr & Hi & Hd); [by split_and!|].
              rewrite Hq in Hr. injection Hr as ->. congruence.
      * rewrite Hacc, elem_of_app, list_elem_of_singleton. split.
        -- intros (Hp & Hr & Hi & Hd). split_and!; [by left|done|done|done].
        -- intros ([Hp| ->] & Hr & Hi & Hd); [by split_and!|]. congruence.
    + split; [done|]. intros p info. rewrite Hin', <- app_assoc. done.
Qed.

(** X1.  The release map the first pass builds holds one entry per path,
    and exactly the config files that can be read and parsed and are
    release configs, each with its document and the directory it governs. *)
Theorem release_map_is_the_readable_release_configs
    {PM : PathModule} (readConfig : string -> option Config.t)
    (configFiles : list string) :
  NoDup (analyzeConfigFiles readConfig configFiles).*1
  ∧ ∀ (filePath : string) (info : ReleaseInfo),
      (filePath, info) ∈ analyzeConfigFiles readConfig configFiles
      <-> filePath ∈ configFiles
          ∧ readConfig filePath = Some (config info)
          ∧ isReleaseConfig (config info) = true
          ∧ dirPath info = dirname filePath.
Proof.
  unfold analyzeConfigFiles.
  destruct (analyzeConfigFiles_fold readConfig configFiles [] []) as [Hnd Hin].
  - apply NoDup_nil_2.
  - intros p info. split.
    + by intros ?%elem_of_nil.
    + by intros [?%elem_of_nil _].
  - split; [done|]. intros p info. by rewrite Hin.
Qed.

(** ** Inheritance reaches down *)

Lemma filter_sublist_impl {A : Type} (P Q : A -> Prop)
    `{∀ x, Decision (P x)} `{∀ x, Decision (Q x)} (l : list A) :
  (∀ x, P x -> Q x) -> filter P l `sublist_of` filter Q l.
Proof.
  intros HPQ. induction l as [|x l IH]; [done|].
  rewrite !filter_cons.
  destruct (decide (P x)) as [HP|HP].
  - rewrite decide_True by auto. by apply sublist_skip.
  - destruct (decide (Q x)); [by apply sublist_cons|done].
Qed.

(** X2.  A model configured beneath the directory of another config file is
    governed by every release config that governs that directory: what is
    applicable to the upper path is, in the same order, among what is
    applicable to the lower one. *)
Theorem release_configs_reach_down
    {PM : PathModule} (releaseConfigs : list (string * ReleaseInfo))
    (upperPath lowerPath : string) :
  appliesTo (dirname upperPath) (dirname lowerPath) = true ->
  findApplicableReleaseConfigs releaseConfigs upperPath
  `sublist_of` findApplicableReleaseConfigs releaseConfigs lowerPath.
Proof.
  intros Happ%appliesTo_iff.
  unfold findApplicableReleaseConfigs. cbv zeta.
  rewrite !findApplicable_foldl. simpl.
  apply fmap_sublist, filter_sublist_impl.
  intros info Hinfo. unfold leadingSegments in *. by etrans.
Qed.

Lemma release_configs_reach_down_witness :
  @findApplicableReleaseConfigs posix
    (@analyzeConfigFiles posix Example.readConfig (configFiles Example.scan))
    Example.releasePath
  `sublist_of`
  @findApplicableReleaseConfigs posix
    (@analyzeConfigFiles posix Example.readConfig (configFiles Example.scan))
    Example.goblinPath.
Proof. apply release_configs_reach_down. vm_compute. reflexivity. Defined.

(** ** The top-level release and subscription *)

(** the value a run of overwrites leaves: the last one offered, else what
    was there *)
Local Abbreviation lastOr k attrs d :=
  (match lastValueOf k attrs with Some v => Some v | None => d end).

Lemma lastValueOf_app (k : string) (l1 l2 : list Attr) (d : option string) :
  lastOr k (l1 ++ l2) d = lastOr k l2 (lastOr k l1 d).
Proof.
  unfold lastValueOf. rewrite filter_app, last_app.
  by destruct (last (filter _ l2)), (last (filter _ l1)).
Qed.

Lemma lastValueOf_singleton (k : string) (a : Attr) (d : option string) :
  lastOr k [a] d = if String.eqb (key a) k then Some (value a) else d.
Proof.
  unfold lastValueOf. rewrite filter_cons, filter_nil.
  destruct (String.eqb (key a) k) eqn:E.
  - apply string_eqb_true in E. by rewrite decide_True.
  - apply string_eqb_false in E. by rewrite decide_False.
Qed.

Lemma applyReleaseAttr_release (m : Model.t) (a : Attr) :
  Model.release (applyReleaseAttr m a) = lastOr "release"%string [a] (Model.release m)
  ∧ Model.subscription (applyReleaseAttr m a)
    = lastOr "subscription"%string [a] (Model.subscription m).
Proof.
  rewrite !lastValueOf_singleton. unfold applyReleaseAttr.
  destruct (String.eqb (key a) "release") eqn:E1.
  - apply string_eqb_true in E1. rewrite E1. simpl.
    by destruct (existsb _ _).
  - destruct (String.eqb (key a) "subscription") eqn:E2; by destruct (existsb _ _).
Qed.

Lemma applyReleaseTag_release (m : Model.t) (t : string) :
  Model.release (applyReleaseTag m t) = Model.release m
  ∧ Model.subscription (applyReleaseTag m t) = Model.subscription m.
Proof. unfold applyReleaseTag. by destruct (existsb _ _). Qed.

Lemma foldl_applyReleaseAttr_release (incl : list Attr) (m : Model.t) :
  Model.release (foldl applyReleaseAttr m incl)
  = lastOr "release"%string incl (Model.release m)
  ∧ Model.subscription (foldl applyReleaseAttr m incl)
    = lastOr "subscription"%string incl (Model.subscription m).
Proof.
  revert m. induction incl as [|a incl IH]; intros m; [done|].
  cbn [foldl]. destruct (IH (applyReleaseAttr m a)) as [-> ->].
  destruct (applyReleaseAttr_release m a) as [-> ->].
  change (a :: incl) with ([a] ++ incl). by rewrite !lastValueOf_app.
Qed.

Lemma foldl_applyReleaseTag_release (incl : list string) (m : Model.t) :
  Model.release (foldl applyReleaseTag m incl) = Model.release m
  ∧ Model.subscription (foldl applyReleaseTag m incl) = Model.subscription m.
Proof.
  revert m. induction incl as [|t incl IH]; intros m; [done|].
  cbn [foldl]. destruct (IH (applyReleaseTag m t)) as [-> ->].
  apply applyReleaseTag_release.
Qed.

Lemma applyReleaseConfig_release (m : Model.t) (rc : Config.t) :
  Model.release (applyReleaseConfig m rc)
  = lastOr "release"%string (releaseAttrs [rc]) (Model.release m)
  ∧ Model.subscription (applyReleaseConfig m rc)
    = lastOr "subscription"%string (releaseAttrs [rc]) (Model.subscription m).
Proof.
  unfold applyReleaseConfig, releaseAttrs. simpl. rewrite app_nil_r.
  destruct (Config.scancfg rc) as [sc|]; simpl; [|done].
  destruct (ScanCfg.tags_include sc) as [tags|];
    [destruct (foldl_applyReleaseTag_release tags
                 (match ScanCfg.attributes_include sc with
                  | Some incl => foldl applyReleaseAttr m incl
                  | None => m
                  end)) as [-> ->]|];
    (destruct (ScanCfg.attributes_include sc) as [incl|]; simpl;
     [apply foldl_applyReleaseAttr_release|done]).
Qed.

Lemma foldl_applyReleaseConfig_release (rcs : list Config.t) (m : Model.t) :
  Model.release (foldl applyReleaseConfig m rcs)
  = lastOr "release"%string (releaseAttrs rcs) (Model.release m)
  ∧ Model.subscription (foldl applyReleaseConfig m rcs)
    = lastOr "subscription"%string (releaseAttrs rcs) (Model.subscription m).
Proof.
  revert m. induction rcs as [|rc rcs IH]; intros m; [done|].
  cbn [foldl]. destruct (IH (applyReleaseConfig m rc)) as [-> ->].
  destruct (applyReleaseConfig_release m rc) as [-> ->].
  change (rc :: rcs) with ([rc] ++ rcs). by rewrite releaseAttrs_app, !lastValueOf_app.
Qed.

(** X3.  The top-level release and subscription of a catalog entry are the
    values of the last release, and the last subscription, attribute that
    the applicable release configs offer, in their order, whatever the model
    configures itself; with none offered the entry has no such field. *)
Theorem top_level_release_is_the_last_offered
    {PM : PathModule} {FS : Type} {FSys : FileSystem FS}
    (ORYNT3D_DIRECTORY : string) (md5hex : string -> string)
    (existingModels : gmap string string) (fs : FS) (now : string)
    (modelConfig : Config.t) (configPath : string)
    (releaseConfigs : list Config.t) (m : Model.t) :
  processModelConfig ORYNT3D_DIRECTORY md5hex existingModels fs now modelConfig
    configPath releaseConfigs = Some m ->
  Model.release m = lastValueOf "release" (releaseAttrs releaseConfigs)
  ∧ Model.subscription m = lastValueOf "subscription" (releaseAttrs releaseConfigs).
Proof.
  unfold processModelConfig.
  destruct (negb (truthy configPath)); [done|].
  destruct (Config.modelmeta modelConfig) as [mm|]; [|done].
  intros [= <-].
  match goal with
  | |- context [foldl applyReleaseConfig ?b releaseConfigs] =>
      destruct (foldl_applyReleaseConfig_release releaseConfigs b) as [-> ->]
  end.
  simpl. split.
  - by destruct (lastValueOf "release" _).
  - by destruct (lastValueOf "subscription" _).
Qed.

Lemma top_level_release_is_the_last_offered_witness :
  ∃ m : Model.t,
    @processModelConfig posix ToyFs.t toyFs Example.root toyDigest ∅ Example.fs0
      "2025-01-01" Example.goblinDoc Example.goblinPath [Example.releaseDoc] = Some m
    ∧ Model.release m = Some "Winter2024"%string
    ∧ Model.subscription m = None
    ∧ Model.attributes m = [{| key := "release"; value := "Mine" |}].
Proof.
  destruct (@processModelConfig posix ToyFs.t toyFs Example.root toyDigest ∅
              Example.fs0 "2025-01-01" Example.goblinDoc Example.goblinPath
              [Example.releaseDoc]) as [m|] eqn:Hrun;
    [|vm_compute in Hrun; discriminate Hrun].
  exists m. split; [done|].
  destruct (top_level_release_is_the_last_offered _ _ _ _ _ _ _ _ _ Hrun) as [Hr Hs].
  split_and!; [exact Hr|exact Hs|].
  vm_compute in Hrun. injection Hrun as <-. reflexivity.
Defined.

(** ** Merging twice *)

Lemma foldl_applyReleaseAttr_present (incl : list Attr) (m : Model.t) :
  (∀ a, a ∈ incl -> key a ∈ key <$> Model.attributes m) ->
  foldl applyReleaseAttr m incl
  = Model.set_release (lastOr "release"%string incl (Model.release m))
      (Model.set_subscription
         (lastOr "subscription"%string incl (Model.subscription m)) m).
Proof.
  revert m. induction incl as [|a incl IH]; intros m Hin.
  - by destruct m.
  - cbn [foldl].
    assert (existsb (fun existing => String.eqb (key existing) (key a))
              (Model.attributes m) = true) as Hex.
    { apply existsb_key, Hin, list_elem_of_here. }
    assert (applyReleaseAttr m a
            = Model.set_release (lastOr "release"%string [a] (Model.release m))
                (Model.set_subscription
                   (lastOr "subscription"%string [a] (Model.subscription m)) m))
      as Hstep.
    { rewrite !lastValueOf_singleton. unfold applyReleaseAttr.
      destruct (String.eqb (key a) "release") eqn:E1.
      - apply string_eqb_true in E1. rewrite E1 in *. simpl. rewrite Hex.
        by destruct m.
      - destruct (String.eqb (key a) "subscription") eqn:E2; rewrite ?Hex;
          simpl; rewrite ?Hex; by destruct m. }
    rewrite Hstep, IH.
    + change (a :: incl) with ([a] ++ incl). rewrite !lastValueOf_app.
      by destruct m.
    + intros b Hb. simpl. apply Hin. by apply list_elem_of_further.
Qed.

Lemma foldl_applyReleaseTag_present (incl : list string) (m : Model.t) :
  (∀ t, t ∈ incl -> t ∈ Model.tags m) ->
  foldl applyReleaseTag m incl = m.
Proof.
  revert m. induction incl as [|t incl IH]; intros m Hin; [done|].
  cbn [foldl].
  assert (applyReleaseTag m t = m) as ->.
  { unfold applyReleaseTag.
    by rewrite (proj2 (existsb_tag t (Model.tags m)) (Hin t (list_elem_of_here _ _))). }
  apply IH. intros t' Ht'. apply Hin. by apply list_elem_of_further.
Qed.

Lemma elem_of_releaseAttrs (rc : Config.t) (rcs : list Config.t) (a : Attr) :
  a ∈ releaseAttrs [rc] -> a ∈ releaseAttrs (rc :: rcs).
Proof.
  change (rc :: rcs) with ([rc] ++ rcs). rewrite releaseAttrs_app, elem_of_app.
  by left.
Qed.

Lemma elem_of_releaseTags (rc : Config.t) (rcs : list Config.t) (t : string) :
  t ∈ releaseTags [rc] -> t ∈ releaseTags (rc :: rcs).
Proof.
  change (rc :: rcs) with ([rc] ++ rcs). rewrite releaseTags_app, elem_of_app.
  by left.
Qed.

Lemma foldl_applyReleaseConfig_present (rcs : list Config.t) (m : Model.t) :
  (∀ a, a ∈ releaseAttrs rcs -> key a ∈ key <$> Model.attributes m) ->
  (∀ t, t ∈ releaseTags rcs -> t ∈ Model.tags m) ->
  foldl applyReleaseConfig m rcs
  = Model.set_release (lastOr "release"%string (releaseAttrs rcs) (Model.release m))
      (Model.set_subscription
         (lastOr "subscription"%string (releaseAttrs rcs) (Model.subscription m)) m).
Proof.
  revert m. induction rcs as [|rc rcs IH]; intros m HA HT.
  - by destruct m.
  - cbn [foldl].
    assert (applyReleaseConfig m rc
            = Model.set_release
                (lastOr "release"%string (releaseAttrs [rc]) (Model.release m))
                (Model.set_subscription
                   (lastOr "subscription"%string (releaseAttrs [rc])
                      (Model.subscription m)) m)) as Hstep.
    { assert (∀ a, a ∈ releaseAttrs [rc] -> key a ∈ key <$> Model.attributes m) as HA1.
      { intros a Ha. by apply HA, elem_of_releaseAttrs. }
      assert (∀ t, t ∈ releaseTags [rc] -> t ∈ Model.tags m) as HT1.
      { intros t Ht. by apply HT, elem_of_releaseTags. }
      unfold applyReleaseConfig, releaseAttrs, releaseTags in *. simpl in *.
      rewrite app_nil_r in *.
      destruct (Config.scancfg rc) as [sc|]; simpl in *; [|by destruct m].
      destruct (ScanCfg.attributes_include sc) as [incl|]; simpl in *.
      - rewrite (foldl_applyReleaseAttr_present incl m HA1).
        destruct (ScanCfg.tags_include sc) as [tags|]; simpl in *; [|done].
        by apply foldl_applyReleaseTag_present.
      - destruct (ScanCfg.tags_include sc) as [tags|]; simpl in *.
        + rewrite (foldl_applyReleaseTag_present tags m HT1). by destruct m.
        + by destruct m. }
    rewrite Hstep, IH.
    + change (rc :: rcs) with ([rc] ++ rcs). rewrite releaseAttrs_app, !lastValueOf_app.
      by destruct m.
    + intros a Ha. simpl. apply HA.
      change (rc :: rcs) with ([rc] ++ rcs). rewrite releaseAttrs_app, elem_of_app.
      by right.
    + intros t Ht. simpl. apply HT.
      change (rc :: rcs) with ([rc] ++ rcs). rewrite releaseTags_app, elem_of_app.
      by right.
Qed.

(** X4.  The release merge is idempotent: merging the same release configs
    into an entry a second time changes nothing. *)
Theorem release_merge_is_idempotent (releaseConfigs : list Config.t) (m : Model.t) :
  foldl applyReleaseConfig (foldl applyReleaseConfig m releaseConfigs) releaseConfigs
  = foldl applyReleaseConfig m releaseConfigs.
Proof.
  destruct (foldl_applyReleaseConfig releaseConfigs m (Model.attributes m) []
              (Model.tags m) [] (MergedInto_nil _ _) (MergedInto_nil _ _))
    as (HA & HT & _).
  destruct HA as (xa & _ & _ & _ & _ & HkA).
  destruct HT as (xt & _ & _ & _ & _ & HkT).
  rewrite foldl_applyReleaseConfig_present.
  - destruct (foldl_applyReleaseConfig_release releaseConfigs m) as [Hr Hs].
    set (m' := foldl applyReleaseConfig m releaseConfigs) in *.
    assert (lastOr "release"%string (releaseAttrs releaseConfigs) (Model.release m')
            = Model.release m') as ->.
    { rewrite Hr. by destruct (lastValueOf "release" _). }
    assert (lastOr "subscription"%string (releaseAttrs releaseConfigs)
              (Model.subscription m') = Model.subscription m') as ->.
    { rewrite Hs. by destruct (lastValueOf "subscription" _). }
    by destruct m'.
  - intros a Ha. apply HkA. right. simpl. apply list_elem_of_fmap. by exists a.
  - intros t Ht. rewrite <- (list_fmap_id (Model.tags _)). apply HkT. right.
    simpl. by rewrite list_fmap_id.
Qed.


(** ** The second pass, file by file *)

Section Accounting.
Context {PM : PathModule} {FS : Type} {FSys : FileSystem FS}.
Variable ORYNT3D_DIRECTORY : string.
Variable md5hex : string -> string.
Variable readConfig : string -> option Config.t.

Local Abbreviation step := (processModelConfigs_step ORYNT3D_DIRECTORY md5hex readConfig).
Local Abbreviation loop := (processModelConfigs_loop ORYNT3D_DIRECTORY md5hex readConfig).

Lemma isValidModelConfig_modelmeta (config : Config.t) :
  isValidModelConfig config = true -> ∃ mm, Config.modelmeta config = Some mm.
Proof.
  unfold isValidModelConfig. destruct (Config.modelmeta config) as [mm|]; [|done].
  by exists mm.
Qed.

Lemma step_accounting rcs em (fs : FS) clock i p acc :
  Model.sourcePath <$> models (step rcs em fs clock i p acc)
  = (Model.sourcePath <$> models acc)
    ++ (if isCatalogued readConfig p then [p] else [])
  ∧ successCount (step rcs em fs clock i p acc)
    = successCount acc + (if isCatalogued readConfig p then 1 else 0)
  ∧ errorCount (step rcs em fs clock i p acc)
    = errorCount acc + (if isFailure readConfig p then 1 else 0).
Proof.
  unfold processModelConfigs_step, isCatalogued, isFailure, isModelFile, classify.
  destruct (readConfig p) as [c|] eqn:Hp; simpl.
  - destruct (isReleaseConfig c); simpl.
    { rewrite app_nil_r. split_and!; [done|lia|lia]. }
    destruct (isValidModelConfig c) eqn:Hv; simpl.
    + destruct (isValidModelConfig_modelmeta c Hv) as [mm Hmm].
      destruct (truthy p) eqn:Htp; simpl.
      * apply truthy_true in Htp.
        destruct (processModelConfig_Some ORYNT3D_DIRECTORY md5hex em fs
                    (dateAddedAt clock i) c mm p
                    (findApplicableReleaseConfigs rcs p) Htp Hmm)
          as (base & -> & _ & _ & _ & Hsp & _).
        simpl. rewrite fmap_app. simpl.
        destruct (unmerged_fields _ _
                    (foldl_applyReleaseConfig_unmerged
                       (findApplicableReleaseConfigs rcs p) base))
          as (_ & _ & _ & _ & -> & _).
        rewrite Hsp. split_and!; [done|lia|lia].
      * unfold processModelConfig. rewrite Htp. simpl.
        rewrite app_nil_r. split_and!; [done|lia|lia].
    + rewrite app_nil_r. split_and!; [done|lia|lia].
  - rewrite app_nil_r. split_and!; [done|lia|lia].
Qed.

Lemma loop_accounting rcs em (fs : FS) clock files i acc :
  Model.sourcePath <$> models (loop rcs em fs clock i files acc)
  = (Model.sourcePath <$> models acc)
    ++ filter (fun p => isCatalogued readConfig p = true) files
  ∧ successCount (loop rcs em fs clock i files acc)
    = successCount acc
      + length (filter (fun p => isCatalogued readConfig p = true) files)
  ∧ errorCount (loop rcs em fs clock i files acc)
    = errorCount acc
      + length (filter (fun p => isFailure readConfig p = true) files).
Proof.
  revert i acc. induction files as [|p files IH]; intros i acc; simpl.
  - rewrite app_nil_r. split_and!; [done|lia|lia].
  - destruct (IH (S i) (step rcs em fs clock i p acc)) as (-> & -> & ->).
    destruct (step_accounting rcs em fs clock i p acc) as (-> & -> & ->).
    rewrite !filter_cons.
    destruct (isCatalogued readConfig p), (isFailure readConfig p); simpl;
      rewrite <- ?app_assoc; simpl; split_and!; try done; lia.
Qed.

Lemma exclusive_outcomes (files : list string) :
  length (filter (fun p => isCatalogued readConfig p = true) files)
  + length (filter (fun p => isFailure readConfig p = true) files)
  + length (filter (fun p => isReleaseFile readConfig p = true) files)
  ≤ length files.
Proof.
  induction files as [|p files IH]; [done|].
  rewrite !filter_cons.
  assert ((if isCatalogued readConfig p then 1 else 0)
          + (if isFailure readConfig p then 1 else 0)
          + (if isReleaseFile readConfig p then 1 else 0) ≤ 1) as Hp.
  { unfold isCatalogued, isFailure, isReleaseFile, isModelFile, classify.
    destruct (readConfig p) as [c|]; [|simpl; lia].
    destruct (isReleaseConfig c); [simpl; lia|].
    destruct (isValidModelConfig c), (truthy p); simpl; lia. }
  destruct (isCatalogued readConfig p), (isFailure readConfig p),
    (isReleaseFile readConfig p); simpl in *; lia.
Qed.

Lemma analyzeConfigFiles_length (files : list string) :
  length (analyzeConfigFiles readConfig files)
  ≤ length (filter (fun p => isReleaseFile readConfig p = true) files).
Proof.
  destruct (analyzeConfigFiles_fold readConfig files [] []) as [Hnd Hin].
  { apply NoDup_nil_2. }
  { intros p info. split; [by intros ?%elem_of_nil|by intros [?%elem_of_nil _]]. }
  fold (analyzeConfigFiles readConfig files) in Hnd, Hin. simpl in Hin.
  rewrite <- (length_fmap fst (analyzeConfigFiles readConfig files)).
  apply submseteq_length, NoDup_submseteq; [done|].
  intros p [[p' info] [-> Hp]]%list_elem_of_fmap. simpl.
  apply Hin in Hp as (Hp & Hr & Hi & _).
  apply list_elem_of_filter. split; [|done].
  unfold isReleaseFile. by rewrite Hr.
Qed.

End Accounting.

(** X5.  The second pass accounts for every config file on its own: the
    catalog lists, in scan order, exactly the files that parse to a model
    document (under a non-empty path); the success count is the number of
    entries; the error count is the number of files that cannot be read or
    parsed (or are model documents under an empty path); release configs
    and other documents are passed over. *)
Theorem second_pass_accounts_for_every_file
    {PM : PathModule} {FS : Type} {FSys : FileSystem FS}
    (ORYNT3D_DIRECTORY : string) (md5hex : string -> string)
    (readConfig : string -> option Config.t)
    (releaseConfigs : list (string * ReleaseInfo))
    (existingModels : gmap string string) (fs : FS) (clock : ExtractClock)
    (configFiles : list string) :
  let result :=
    processModelConfigs ORYNT3D_DIRECTORY md5hex readConfig releaseConfigs
      existingModels fs clock configFiles in
  Model.sourcePath <$> models result
  = filter (fun p => isCatalogued readConfig p = true) configFiles
  ∧ successCount result = length (models result)
  ∧ errorCount result
    = length (filter (fun p => isFailure readConfig p = true) configFiles)
  ∧ successCount result + errorCount result ≤ length configFiles.
Proof.
  cbv zeta. unfold processModelConfigs.
  destruct (loop_accounting ORYNT3D_DIRECTORY md5hex readConfig releaseConfigs
              existingModels fs clock configFiles 0
              {| models := []; successCount := 0; errorCount := 0 |})
    as (Hm & Hs & He).
  simpl in *. pose proof (exclusive_outcomes readConfig configFiles) as Hex.
  split_and!; [done| |done|lia].
  rewrite Hs, <- Hm. by rewrite length_fmap.
Qed.


(** ** The directory crawl *)

Ltac crawl_eq := f_equal; first [done|f_equal; lia].

Section CrawlProperties.
Context {PM : PathModule}.

Lemma crawlItem_directory (dir name : string) (listing : option (list Dirent))
    (st : list string * Counters) :
  crawlItem dir st (DirentDirectory name listing)
  = (st.1 ++ (findOrynt3dConfigFilesRecursively (join dir name) listing st.2).1,
     (findOrynt3dConfigFilesRecursively (join dir name) listing st.2).2).
Proof. by destruct listing. Qed.

Lemma crawlItem_adds (item : Dirent) :
  ∀ dir, ∃ found dirs files,
    crawlAdds dir item found dirs files
    ∧ length found ≤ files
    ∧ ∀ p, p ∈ found <-> FoundAt dir item p.
Proof.
  induction item as [name|name|name listing IH] using Dirent_nested_ind; intros dir.
  - exists (if String.eqb name CONFIG_FILENAME then [join dir name] else []), 0, 1.
    split_and!.
    + intros [r [d f]]. simpl.
      destruct (String.eqb name CONFIG_FILENAME); simpl;
        rewrite ?app_nil_r; crawl_eq.
    + destruct (String.eqb name CONFIG_FILENAME); simpl; lia.
    + intros p. unfold FoundAt.
      destruct (String.eqb name CONFIG_FILENAME) eqn:E.
      * apply string_eqb_true in E as ->. rewrite list_elem_of_singleton. split.
        -- intros ->. by left.
        -- intros [[_ ->]|(n & s & d & l & Heq & _)]; [done|discriminate Heq].
      * apply string_eqb_false in E. split.
        -- by intros ?%elem_of_nil.
        -- intros [[[= ->] _]|(n & s & d & l & Heq & _)]; [done|discriminate Heq].
  - exists [], 0, 0. split_and!.
    + intros [r [d f]]. simpl. rewrite app_nil_r. crawl_eq.
    + simpl. lia.
    + intros p. split; [by intros ?%elem_of_nil|].
      intros [[Heq _]|(n & s & d & l & Heq & _)]; discriminate Heq.
  - destruct listing as [items|].
    + specialize (IH items eq_refl).
      assert (∃ found dirs files,
                (∀ st, foldl (crawlItem (join dir name)) st items
                       = (st.1 ++ found,
                          {| dirsScanned := dirsScanned st.2 + dirs;
                             filesFound := filesFound st.2 + files |}))
                ∧ length found ≤ files
                ∧ ∀ p, p ∈ found
                       <-> ∃ item, item ∈ items ∧ FoundAt (join dir name) item p)
        as (found & dirs & files & Hrun & Hlen & Hin).
      { clear -IH. induction IH as [|item items Hitem _ IHitems].
        - exists [], 0, 0. split_and!.
          + intros [r [d f]]. simpl. rewrite app_nil_r. crawl_eq.
          + simpl. lia.
          + intros p. split; [by intros ?%elem_of_nil|].
            by intros (item & ?%elem_of_nil & _).
        - destruct (Hitem (join dir name)) as (f1 & d1 & n1 & Hrun1 & Hlen1 & Hin1).
          destruct IHitems as (f2 & d2 & n2 & Hrun2 & Hlen2 & Hin2).
          exists (f1 ++ f2), (d1 + d2), (n1 + n2). split_and!.
          + intros st. simpl. rewrite (Hrun1 st), Hrun2. simpl.
            rewrite <- app_assoc. crawl_eq.
          + rewrite length_app. lia.
          + intros p. rewrite elem_of_app, Hin1, Hin2. split.
            * intros [H|(it & Hit & H)].
              -- exists item. split; [apply list_elem_of_here|done].
              -- exists it. split; [by apply list_elem_of_further|done].
            * intros (it & [->|Hit]%elem_of_cons & H); [by left|].
              right. by exists it. }
      exists found, (S dirs), files. split_and!; [|done|].
      * intros [r [d f]]. rewrite crawlItem_directory.
        unfold findOrynt3dConfigFilesRecursively. rewrite Hrun. simpl.
        crawl_eq.
      * intros p. rewrite Hin. unfold FoundAt. split.
        -- intros (item & Hitem & [[-> ->]|(n & s & d & l & -> & Hreach & Hl & ->)]).
           ++ right. exists name, items, (join dir name), items.
              split_and!; [done|apply Reaches_here|done|done].
           ++ right. exists name, items, d, l.
              split_and!; [done| |done|done].
              by eapply Reaches_down.
        -- intros [[Heq _]|(n & s & d & l & [= <- <-] & Hreach & Hl & ->)];
             [discriminate Heq|].
           inversion Hreach as [|? ? n' s' ? ? Hsub Hreach']; subst.
           ++ exists (DirentFile CONFIG_FILENAME). split; [done|]. by left.
           ++ exists (DirentDirectory n' (Some s')). split; [done|].
              right. by exists n', s', d, l.
    + exists [], 1, 0. split_and!.
      * intros [r [d f]]. simpl. rewrite app_nil_r. crawl_eq.
      * simpl. lia.
      * intros p. split; [by intros ?%elem_of_nil|].
        intros [[Heq _]|(n & s & d & l & Heq & _)]; discriminate Heq.
Qed.

Lemma crawl_adds (dir : string) (items : list Dirent) :
  ∃ found dirs files,
    (∀ counters,
       findOrynt3dConfigFilesRecursively dir (Some items) counters
       = (found, {| dirsScanned := dirsScanned counters + S dirs;
                    filesFound := filesFound counters + files |}))
    ∧ length found ≤ files
    ∧ ∀ p, p ∈ found
           <-> ∃ dir' items', Reaches dir items dir' items'
                              ∧ DirentFile CONFIG_FILENAME ∈ items'
                              ∧ p = join dir' CONFIG_FILENAME.
Proof.
  destruct (crawlItem_adds (DirentDirectory "" (Some items)) dir)
    as (found & dirs & files & Hrun & Hlen & Hin).
  assert (∃ found dirs files,
            (∀ st, foldl (crawlItem dir) st items
                   = (st.1 ++ found,
                      {| dirsScanned := dirsScanned st.2 + dirs;
                         filesFound := filesFound st.2 + files |}))
            ∧ length found ≤ files
            ∧ ∀ p, p ∈ found <-> ∃ item, item ∈ items ∧ FoundAt dir item p)
    as (f & d & n & Hf & Hl & Hi).
  { clear. induction items as [|item items IH].
    - exists [], 0, 0. split_and!.
      + intros [r [d f]]. simpl. rewrite app_nil_r. crawl_eq.
      + simpl. lia.
      + intros p. split; [by intros ?%elem_of_nil|].
        by intros (item & ?%elem_of_nil & _).
    - destruct (crawlItem_adds item dir) as (f1 & d1 & n1 & Hrun1 & Hlen1 & Hin1).
      destruct IH as (f2 & d2 & n2 & Hrun2 & Hlen2 & Hin2).
      exists (f1 ++ f2), (d1 + d2), (n1 + n2). split_and!.
      + intros st. simpl. rewrite (Hrun1 st), Hrun2. simpl.
        rewrite <- app_assoc. crawl_eq.
      + rewrite length_app. lia.
      + intros p. rewrite elem_of_app, Hin1, Hin2. split.
        * intros [H|(it & Hit & H)].
          -- exists item. split; [apply list_elem_of_here|done].
          -- exists it. split; [by apply list_elem_of_further|done].
        * intros (it & [->|Hit]%elem_of_cons & H); [by left|].
          right. by exists it. }
  exists f, d, n. split_and!; [|done|].
  - intros [dc fc]. unfold findOrynt3dConfigFilesRecursively. rewrite Hf. simpl.
    crawl_eq.
  - intros p. rewrite Hi. split.
    + intros (item & Hitem & [[-> ->]|(nm & s & d' & l & -> & Hreach & Hl' & ->)]).
      * exists dir, items. split_and!; [apply Reaches_here|done|done].
      * exists d', l. split_and!; [|done|done]. by eapply Reaches_down.
    + intros (d' & l & Hreach & Hl' & ->).
      inversion Hreach as [|? ? n' s' ? ? Hsub Hreach']; subst.
      * exists (DirentFile CONFIG_FILENAME). split; [done|]. by left.
      * exists (DirentDirectory n' (Some s')). split; [done|].
        right. by exists n', s', d', l.
Qed.

End CrawlProperties.

(** X6.  The crawl returns exactly the files named config.orynt3d in the
    directories it can come to from the scan root through directories that
    can be listed, whatever the counters were; a root that cannot be listed
    gives no file. *)
Theorem crawl_finds_the_reachable_config_files
    {PM : PathModule} (root : string) (items : list Dirent) (counters : Counters) :
  (∀ p, p ∈ (findOrynt3dConfigFilesRecursively root (Some items) counters).1
        <-> ∃ dir' items', Reaches root items dir' items'
                           ∧ DirentFile CONFIG_FILENAME ∈ items'
                           ∧ p = join dir' CONFIG_FILENAME)
  ∧ (findOrynt3dConfigFilesRecursively root None counters).1 = [].
Proof.
  split; [|done].
  destruct (crawl_adds root items) as (found & dirs & files & Hrun & _ & Hin).
  intros p. by rewrite Hrun.
Qed.

(** X7.  The statistics of a run over a crawled tree are consistent: the
    root counts as a scanned directory, no more config files are found than
    files were counted, and the catalog entries and the release configs
    together are no more than the config files; the total count is the
    number of entries. *)
Theorem scan_statistics_are_consistent
    {PM : PathModule} {FS : Type} {FSys : FileSystem FS}
    (ORYNT3D_DIRECTORY : string) (md5hex : string -> string)
    (readConfig : string -> option Config.t)
    (fs : FS) (prior : option Catalog.t) (listing : option (list Dirent))
    (clock : ExtractClock) (data : Catalog.t) :
  mainExtractModelData ORYNT3D_DIRECTORY md5hex readConfig fs prior
    (scanOf ORYNT3D_DIRECTORY listing) clock = Some data ->
  1 ≤ ScanStats.directoriesScanned (Catalog.scanStats data)
  ∧ ScanStats.configFilesFound (Catalog.scanStats data)
    ≤ ScanStats.totalFilesFound (Catalog.scanStats data)
  ∧ Catalog.totalCount data + ScanStats.releaseConfigsFound (Catalog.scanStats data)
    ≤ ScanStats.configFilesFound (Catalog.scanStats data)
  ∧ Catalog.totalCount data = length (Catalog.models data).
Proof.
  unfold mainExtractModelData.
  destruct (negb (existsSync fs ORYNT3D_DIRECTORY)); [done|].
  intros [= <-]. simpl.
  set (found := findOrynt3dConfigFilesRecursively ORYNT3D_DIRECTORY listing
                  {| dirsScanned := 0; filesFound := 0 |}).
  set (files := found.1).
  destruct (loop_accounting ORYNT3D_DIRECTORY md5hex readConfig
              (analyzeConfigFiles readConfig files) (loadExistingDataFile prior)
              fs clock files 0 {| models := []; successCount := 0; errorCount := 0 |})
    as (Hm & _ & _).
  simpl in Hm.
  pose proof (exclusive_outcomes readConfig files) as Hex.
  pose proof (analyzeConfigFiles_length readConfig files) as Hrel.
  assert (length (models (processModelConfigs ORYNT3D_DIRECTORY md5hex readConfig
                            (analyzeConfigFiles readConfig files)
                            (loadExistingDataFile prior) fs clock files))
          = length (filter (fun p => isCatalogued readConfig p = true) files)) as Hlen.
  { unfold processModelConfigs. by rewrite <- Hm, length_fmap. }
  split_and!; [| |lia|done].
  - subst files found. destruct listing as [items|]; [|simpl; lia].
    destruct (crawl_adds ORYNT3D_DIRECTORY items) as (f & d & n & Hrun & _ & _).
    rewrite Hrun. simpl. lia.
  - subst files found. destruct listing as [items|]; [|simpl; lia].
    destruct (crawl_adds ORYNT3D_DIRECTORY items) as (f & d & n & Hrun & Hle & _).
    rewrite Hrun. simpl. lia.
Qed.

Lemma scan_statistics_are_consistent_witness :
  @scanOf posix Example.root (Some Samples.tree) = Example.scan
  ∧ ∃ data : Catalog.t,
      @mainExtractModelData posix ToyFs.t toyFs Example.root toyDigest
        Example.readConfig Example.fs0 None
        (@scanOf posix Example.root (Some Samples.tree)) (Example.clockAt "t1")
      = Some data
      ∧ 1 ≤ ScanStats.directoriesScanned (Catalog.scanStats data)
      ∧ ScanStats.configFilesFound (Catalog.scanStats data)
        ≤ ScanStats.totalFilesFound (Catalog.scanStats data)
      ∧ Catalog.totalCount data
        + ScanStats.releaseConfigsFound (Catalog.scanStats data)
        ≤ ScanStats.configFilesFound (Catalog.scanStats data)
      ∧ Catalog.totalCount data = length (Catalog.models data).
Proof.
  split; [vm_compute; reflexivity|].
  destruct (@mainExtractModelData posix ToyFs.t toyFs Example.root toyDigest
              Example.readConfig Example.fs0 None
              (@scanOf posix Example.root (Some Samples.tree)) (Example.clockAt "t1"))
    as [data|] eqn:Hrun; [|vm_compute in Hrun; discriminate Hrun].
  exists data. split; [done|].
  exact (scan_statistics_are_consistent _ _ _ _ _ _ _ _ Hrun).
Defined.


(** ** The characters of an id *)

Lemma all_chars_app (p : ascii -> bool) (s t : string) :
  all_chars p (s +:+ t) = all_chars p s && all_chars p t.
Proof.
  induction s as [|c s IH]; simpl_append; simpl; [done|].
  rewrite IH. by destruct (p c).
Qed.

Lemma all_chars_impl (p q : ascii -> bool) (s : string) :
  (∀ c, p c = true -> q c = true) -> all_chars p s = true -> all_chars q s = true.
Proof.
  intros Hpq. induction s as [|c s IH]; simpl; [done|].
  intros [Hc Hs]%andb_true_iff. rewrite (Hpq c Hc). by apply IH.
Qed.

Lemma all_chars_substring (p : ascii -> bool) (s : string) (n m : nat) :
  all_chars p s = true -> all_chars p (String.substring n m s) = true.
Proof.
  revert n m. induction s as [|c s IH]; intros n m; simpl.
  - by destruct n, m.
  - intros [Hc Hs]%andb_true_iff. destruct n as [|n].
    + destruct m as [|m]; simpl; [done|]. rewrite Hc. by apply IH.
    + by apply IH.
Qed.

Lemma all_chars_dash_non_alnum (s : string) :
  all_chars is_id_char (dash_non_alnum s) = true.
Proof.
  unfold dash_non_alnum. induction s as [|c s IH]; simpl; [done|].
  rewrite IH, andb_true_r. unfold is_id_char.
  destruct (is_lower c || is_digit c) eqn:E; [by rewrite E|done].
Qed.

Lemma is_hex_is_id_char (c : ascii) : is_hex c = true -> is_id_char c = true.
Proof.
  unfold is_hex, is_id_char, is_lower, is_digit. cbv zeta.
  generalize (nat_of_ascii c). intros n H.
  apply orb_true_iff in H as [H|H].
  - rewrite H. by rewrite orb_true_r.
  - apply andb_true_iff in H as [H1 H2].
    apply Nat.leb_le in H1. apply Nat.leb_le in H2.
    rewrite (proj2 (Nat.leb_le 97 n)) by lia.
    by rewrite (proj2 (Nat.leb_le n 122)) by lia.
Qed.

(** X8.  With a digest that answers in lower-case hexadecimal digits, as
    MD5's hex form does, every stable id consists of lower-case letters,
    digits and dashes only, whatever the characters of the model's name and
    path. *)
Theorem stable_id_has_only_letters_digits_and_dashes
    {PM : PathModule} (root : string) (md5hex : string -> string)
    (name configPath : string) :
  (∀ s, all_chars is_hex (md5hex s) = true) ->
  all_chars is_id_char (generateStableId root md5hex name configPath) = true.
Proof.
  intros Hhex. unfold generateStableId. cbv zeta.
  rewrite !all_chars_app, all_chars_dash_non_alnum. simpl.
  apply all_chars_substring, (all_chars_impl is_hex); [|done].
  apply is_hex_is_id_char.
Qed.

Lemma stable_id_has_only_letters_digits_and_dashes_witness :
  @generateStableId posix "/data" Samples.hexDigest "Ork (v2)/Boss!"
    "/data/Orks/Boss/config.orynt3d"
  = "ork--v2--boss--0cc175b9"%string
  ∧ all_chars is_id_char
      (@generateStableId posix "/data" Samples.hexDigest "Ork (v2)/Boss!"
         "/data/Orks/Boss/config.orynt3d") = true.
Proof.
  split; [vm_compute; reflexivity|].
  apply stable_id_has_only_letters_digits_and_dashes.
  intros s. unfold Samples.hexDigest. by destruct (String.eqb s "").
Defined.

(** ** What is remembered of the prior catalog *)

Lemma remember_last (l : list Model.t) (acc : gmap string string) (k : string) :
  foldl (fun (existingModels : gmap string string) model =>
           match Model.image model with
           | Some img =>
               if truthy (Model.id model) && truthy img
               then <[Model.id model := img]> existingModels
               else existingModels
           | None => existingModels
           end) acc l !! k
  = match last (omap (remembered k) l) with
    | Some img => Some img
    | None => acc !! k
    end.
Proof.
  revert acc. induction l as [|m l IH]; intros acc; [done|].
  cbn [foldl omap list_omap]. rewrite IH. unfold remembered at 2.
  destruct (Model.image m) as [img|]; [|done].
  destruct (String.eqb (Model.id m) k) eqn:E.
  - apply string_eqb_true in E as <-. simpl.
    destruct (truthy (Model.id m) && truthy img); simpl; [|done].
    rewrite last_cons, lookup_insert_eq.
    by destruct (last (omap _ l)).
  - apply string_eqb_false in E. simpl.
    destruct (truthy (Model.id m) && truthy img); [|done].
    by rewrite lookup_insert_ne.
Qed.

(** X9.  What the extractor remembers of the prior catalog under an id is
    the image of the last prior entry with that id that has a non-empty
    id and a non-empty image; entries without image teach it nothing, and
    with no prior catalog nothing is remembered. *)
Theorem prior_images_last_entry_wins (cat : Catalog.t) (k : string) :
  loadExistingDataFile (Some cat) !! k
  = last (omap (remembered k) (Catalog.models cat))
  ∧ loadExistingDataFile None !! k = None.
Proof.
  split; [|done]. unfold loadExistingDataFile. rewrite remember_last.
  rewrite lookup_empty. by destruct (last _).
Qed.


(** * Further properties of the build script *)

(** ** The fallback search for an image *)

Section Fallback.
Context {PM : PathModule} {FS : Type} {FSys : FileSystem FS}.

Lemma findAlternativeInImageDirs_findInImageDirs (fs : FS) (modelDir : string)
    (dirs : list string) :
  findAlternativeInImageDirs fs modelDir dirs = findInImageDirs fs modelDir dirs.
Proof.
  induction dirs as [|d dirs IH]; [done|]. simpl. rewrite IH. done.
Qed.

Lemma find_elem {A : Type} (f : A -> bool) (l : list A) (x : A) :
  find f l = Some x -> x ∈ l ∧ f x = true.
Proof.
  induction l as [|y l IH]; simpl; [done|].
  destruct (f y) eqn:E.
  - intros [= ->]. split; [apply list_elem_of_here|done].
  - intros [Hin Hf]%IH. split; [by apply list_elem_of_further|done].
Qed.

Lemma find_none_impl {A : Type} (f g : A -> bool) (l : list A) :
  (∀ x, g x = true -> f x = true) -> find f l = None -> find g l = None.
Proof.
  intros Hgf. induction l as [|y l IH]; simpl; [done|].
  destruct (f y) eqn:E; [done|]. intros Hl.
  destruct (g y) eqn:E'; [|by apply IH].
  apply Hgf in E'. congruence.
Qed.

Lemma find_is_Some_impl {A : Type} (f g : A -> bool) (l : list A) :
  (∀ x, g x = true -> f x = true) -> is_Some (find g l) -> is_Some (find f l).
Proof.
  intros Hgf [x Hx]. destruct (find f l) eqn:E; [by eexists|].
  by rewrite (find_none_impl f g l Hgf E) in Hx.
Qed.

Lemma matchesModelName_image (n file : string) :
  matchesModelName n file = true -> isImageFile file = true.
Proof. unfold matchesModelName, isImageFile. by intros [H _]%andb_true_iff. Qed.

Lemma matchesCoverName_image (n file : string) :
  matchesCoverName n file = true -> isImageFile file = true.
Proof. unfold matchesCoverName, isImageFile. by intros [H _]%andb_true_iff. Qed.

Lemma isPng_image (file : string) : isPng file = true -> isImageFile file = true.
Proof. intros H%isPng_iff. by apply isImageFile_iff, pngFile_imageFile. Qed.

Lemma findCommonCover_elem (files names : list string) (file : string) :
  findCommonCover files names = Some file ->
  file ∈ files ∧ isImageFile file = true.
Proof.
  induction names as [|n names IH]; simpl; [done|].
  destruct (find (matchesCoverName n) files) as [f|] eqn:E; [|done].
  intros [= ->]. apply find_elem in E as [Hin Hm].
  split; [done|]. by eapply matchesCoverName_image.
Qed.

Lemma findCommonCover_none (files names : list string) :
  find isImageFile files = None -> findCommonCover files names = None.
Proof.
  intros Hnone. induction names as [|n names IH]; simpl; [done|].
  rewrite (find_none_impl isImageFile (matchesCoverName n) files); [done| |done].
  apply matchesCoverName_image.
Qed.

Lemma findInImageDirs_elem (fs : FS) (modelDir : string) (dirs : list string)
    (p : string) :
  findInImageDirs fs modelDir dirs = Some p ->
  ∃ d sub f, d ∈ dirs ∧ listedImageDir fs modelDir d sub
             ∧ f ∈ sub ∧ imageFile f ∧ p = join (join modelDir d) f.
Proof.
  induction dirs as [|d dirs IH]; simpl; [done|].
  destruct (existsSync fs (join modelDir d) && isDirectory fs (join modelDir d)) eqn:E.
  - apply andb_true_iff in E as [He Hd].
    destruct (readdirSync fs (join modelDir d)) as [sub|] eqn:Hsub.
    + destruct (find isImageFile sub) as [f|] eqn:Hf.
      * intros [= <-]. apply find_elem in Hf as [Hin Himg].
        exists d, sub, f. split_and!; [apply list_elem_of_here|done|done| |done].
        by apply isImageFile_iff.
      * intros (d' & sub' & f & Hd' & H)%IH. exists d', sub', f.
        split; [by apply list_elem_of_further|done].
    + intros (d' & sub' & f & Hd' & H)%IH. exists d', sub', f.
      split; [by apply list_elem_of_further|done].
  - intros (d' & sub' & f & Hd' & H)%IH. exists d', sub', f.
    split; [by apply list_elem_of_further|done].
Qed.

(** X10.  Whatever the fallback search returns is an image file: a file
    with an image extension listed in the model directory, or one listed in
    one of its image subdirectories, under its full path; for a directory
    that is missing or cannot be listed it returns nothing. *)
Theorem fallback_returns_a_listed_image_file (fs : FS) (modelDir modelName p : string) :
  findAlternativeImage fs modelDir modelName = Some p ->
  existsSync fs modelDir = true
  ∧ ∃ files, readdirSync fs modelDir = Some files
      ∧ ((∃ f, f ∈ files ∧ imageFile f ∧ p = join modelDir f)
         ∨ (∃ d sub f, d ∈ imageDirs ∧ listedImageDir fs modelDir d sub
                       ∧ f ∈ sub ∧ imageFile f ∧ p = join (join modelDir d) f)).
Proof.
  unfold findAlternativeImage.
  destruct (existsSync fs modelDir); cbn [negb]; [|done].
  destruct (readdirSync fs modelDir) as [files|]; [|done].
  intros H. split; [done|]. exists files. split; [done|]. revert H.
  destruct (find isPng files) as [f|] eqn:E1.
  { cbv beta iota. intros [= <-]. apply find_elem in E1 as [Hin Hf].
    left. exists f. split_and!; [done| |done]. by apply isImageFile_iff, isPng_image. }
  destruct (if truthy modelName then _ else None) as [f|] eqn:E2.
  { cbv beta iota. intros [= <-]. destruct (truthy modelName); [|done].
    apply find_elem in E2 as [Hin Hf].
    left. exists f. split_and!; [done| |done].
    by eapply isImageFile_iff, matchesModelName_image. }
  destruct (findCommonCover files commonCoverNames) as [f|] eqn:E3.
  { cbv beta iota. intros [= <-]. apply findCommonCover_elem in E3 as [Hin Hf].
    left. exists f. split_and!; [done| |done]. by apply isImageFile_iff. }
  destruct (find isImageFile files) as [f|] eqn:E4.
  { cbv beta iota. intros [= <-]. apply find_elem in E4 as [Hin Hf].
    left. exists f. split_and!; [done| |done]. by apply isImageFile_iff. }
  cbv beta iota. intros H. right. rewrite findAlternativeInImageDirs_findInImageDirs in H.
  by apply findInImageDirs_elem.
Qed.

(** X11.  For a model directory that exists, the build script's fallback
    search comes back empty exactly when the extractor's search without a
    configured cover does: a model ends with the placeholder for want of a
    file only where the extractor would find no image either. *)
Theorem fallback_finds_an_image_iff_cover_search_does (fs : FS) (modelDir modelName : string) :
  existsSync fs modelDir = true ->
  (findAlternativeImage fs modelDir modelName = None
   <-> findCoverImage fs modelDir None = None).
Proof.
  intros Hex. unfold findAlternativeImage, findCoverImage, listModelDir.
  rewrite Hex. cbn [negb].
  destruct (readdirSync fs modelDir) as [files|]; [|done].
  destruct (find isPng files) as [f|] eqn:E1.
  { destruct (find isPreferredPng files); done. }
  rewrite (find_none_impl isPng isPreferredPng files); [| |done].
  2: { unfold isPreferredPng. by intros x [H _]%andb_true_iff. }
  destruct (find isImageFile files) as [f|] eqn:E4.
  { destruct (if truthy modelName then _ else None); [done|].
    destruct (findCommonCover files commonCoverNames); done. }
  assert ((if truthy modelName
           then find (matchesModelName (strip_non_alnum (toLowerCase modelName))) files
           else None) = None) as ->.
  { destruct (truthy modelName); [|done].
    apply (find_none_impl isImageFile); [|done]. apply matchesModelName_image. }
  rewrite (findCommonCover_none files commonCoverNames E4).
  by rewrite findAlternativeInImageDirs_findInImageDirs.
Qed.

End Fallback.

Lemma fallback_returns_a_listed_image_file_witness :
  @existsSync ToyFs.t toyFs Example.fs0 "/data/Collection1/Goblin" = true
  ∧ ∃ files, @readdirSync ToyFs.t toyFs Example.fs0 "/data/Collection1/Goblin"
             = Some files
      ∧ ((∃ f, f ∈ files ∧ @imageFile posix f
               ∧ "/data/Collection1/Goblin/cover.png"%string
                 = @join posix "/data/Collection1/Goblin" f)
         ∨ (∃ d sub f, d ∈ imageDirs
                       ∧ @listedImageDir posix ToyFs.t toyFs Example.fs0
                           "/data/Collection1/Goblin" d sub
                       ∧ f ∈ sub ∧ @imageFile posix f
                       ∧ "/data/Collection1/Goblin/cover.png"%string
                         = @join posix (@join posix "/data/Collection1/Goblin" d) f)).
Proof.
  apply (@fallback_returns_a_listed_image_file posix ToyFs.t toyFs Example.fs0
           "/data/Collection1/Goblin" "Goblin").
  vm_compute. reflexivity.
Defined.

Lemma fallback_finds_an_image_iff_cover_search_does_witness :
  (@findAlternativeImage posix ToyFs.t toyFs Example.fs0
     "/data/Collection1/Orc" "Orc" = None
   <-> @findCoverImage posix ToyFs.t toyFs Example.fs0
         "/data/Collection1/Orc" None = None)
  ∧ @findCoverImage posix ToyFs.t toyFs Example.fs0 "/data/Collection1/Orc" None
    = None.
Proof.
  split; [|vm_compute; reflexivity].
  apply fallback_finds_an_image_iff_cover_search_does. vm_compute. reflexivity.
Defined.


(** ** The categorizer on any catalog *)

Section Categorizer.
Variable md5hex : string -> string.
Variable JSON_stringify : HashSource -> string.

Local Abbreviation hashOf := (calculateModelHash md5hex JSON_stringify).
Local Abbreviation changed := (isChanged md5hex JSON_stringify).
Local Abbreviation catStep := (categorize_step md5hex JSON_stringify).
Local Abbreviation catLoop := (categorize_loop md5hex JSON_stringify).

Lemma isChanged_false_cached (cache : gmap string CacheEntry.t) (m : Model.t) :
  changed cache m = false -> is_Some (cache !! Model.id m).
Proof. unfold isChanged. destruct (cache !! Model.id m); [by eexists|done]. Qed.

Lemma categorize_step_cache (clock : BuildClock) (i : nat) (m : Model.t)
    (acc : Categorized) (k : string) :
  (is_Some (cat_cache (catStep clock i m acc) !! k)
   <-> is_Some (cat_cache acc !! k) ∨ k = Model.id m)
  ∧ (k ≠ Model.id m -> cat_cache (catStep clock i m acc) !! k = cat_cache acc !! k)
  ∧ newModels (catStep clock i m acc) ++ unchangedModels (catStep clock i m acc)
    ≡ₚ newModels acc ++ unchangedModels acc ++ [i].
Proof.
  unfold categorize_step. destruct (changed (cat_cache acc) m) eqn:E; simpl.
  - split_and!.
    + destruct (decide (k = Model.id m)) as [->|Hne].
      * rewrite lookup_insert_eq. split; [by right|by eexists].
      * rewrite lookup_insert_ne by done. split; [by left|by intros [?|?]].
    + intros Hne. by rewrite lookup_insert_ne.
    + rewrite <- !app_assoc. apply Permutation_app_head.
      rewrite (Permutation_app_comm (unchangedModels acc)). done.
  - split_and!; [|done|by rewrite app_assoc].
    split; [by left|]. intros [?| ->]; [done|]. by apply isChanged_false_cached.
Qed.

Lemma categorize_loop_cache (clock : BuildClock) (l : list Model.t) (i : nat)
    (acc : Categorized) :
  (∀ k, is_Some (cat_cache (catLoop clock i l acc) !! k)
        <-> is_Some (cat_cache acc !! k) ∨ k ∈ Model.id <$> l)
  ∧ (∀ k, k ∉ Model.id <$> l ->
          cat_cache (catLoop clock i l acc) !! k = cat_cache acc !! k)
  ∧ newModels (catLoop clock i l acc) ++ unchangedModels (catLoop clock i l acc)
    ≡ₚ newModels acc ++ unchangedModels acc ++ seq i (length l).
Proof.
  revert i acc. induction l as [|m l IH]; intros i acc; simpl.
  - split_and!.
    + intros k. split; [by left|]. by intros [?|?%elem_of_nil].
    + done.
    + by rewrite app_nil_r.
  - destruct (IH (S i) (catStep clock i m acc)) as (Hk & Ho & Hp).
    split_and!.
    + intros k. rewrite Hk, elem_of_cons.
      destruct (categorize_step_cache clock i m acc k) as (-> & _ & _). tauto.
    + intros k [Hne Hnin]%not_elem_of_cons. rewrite (Ho k Hnin).
      by apply categorize_step_cache.
    + rewrite Hp.
      destruct (categorize_step_cache clock i m acc ""%string) as (_ & _ & Hs).
      rewrite (app_assoc (newModels (catStep clock i m acc))), Hs.
      rewrite <- !app_assoc. done.
Qed.

Lemma categorize_index (clock : BuildClock) (models : list Model.t)
    (cache : gmap string CacheEntry.t) (j : nat) :
  j ∈ newModels (categorizeModels md5hex JSON_stringify clock models cache)
      ++ unchangedModels (categorizeModels md5hex JSON_stringify clock models cache) ->
  ∃ m, models !! j = Some m.
Proof.
  unfold categorizeModels.
  destruct (categorize_loop_cache clock models 0
              {| newModels := []; unchangedModels := []; cat_cache := cache |})
    as (_ & _ & Hp).
  rewrite Hp. simpl. intros [_ Hlt]%elem_of_seq.
  apply lookup_lt_is_Some_2. lia.
Qed.

End Categorizer.

(** X12.  On any catalog, also one in which ids collide, the categorizer
    puts every entry in exactly one of its two lists: together they are a
    rearrangement of the positions of the catalog, so the two numbers the
    build log reports add up to the number of models. *)
Theorem categorizer_lists_every_entry_once
    (md5hex : string -> string) (JSON_stringify : HashSource -> string)
    (clock : BuildClock) (models : list Model.t)
    (cache : gmap string CacheEntry.t) :
  let cat := categorizeModels md5hex JSON_stringify clock models cache in
  newModels cat ++ unchangedModels cat ≡ₚ seq 0 (length models)
  ∧ length (newModels cat) + length (unchangedModels cat) = length models.
Proof.
  cbv zeta. unfold categorizeModels.
  destruct (categorize_loop_cache md5hex JSON_stringify clock models 0
              {| newModels := []; unchangedModels := []; cat_cache := cache |})
    as (_ & _ & Hp).
  simpl in Hp. split; [done|].
  rewrite <- length_app, Hp. apply length_seq.
Qed.

(** ** The materializer, turn by turn *)

Section Turns.
Context {PM : PathModule} {FS : Type} {FSys : FileSystem FS}.
Variable PUBLIC_IMAGES_DIR : string.

Local Abbreviation imgStep := (processModelImages_step PUBLIC_IMAGES_DIR).
Local Abbreviation imgCopy := (copyImage PUBLIC_IMAGES_DIR).
Local Abbreviation provenanceHolds := (provenanceOk PUBLIC_IMAGES_DIR).

(** what one turn is: nothing, the placeholder, or a copy *)
Lemma step_outcome (idx : nat) (st : ImageState FS) (m : Model.t) :
  st_models st !! idx = Some m ->
  imgStep idx st = st
  ∨ ∃ j mj, findIndex (Model.id m) (st_models st) = Some j
            ∧ st_models st !! j = Some mj ∧ Model.id mj = Model.id m
            ∧ (imgStep idx st = usePlaceholder j st
               ∨ ∃ source, imgStep idx st = imgCopy j (Model.id m) source st).
Proof.
  intros Hidx. unfold processModelImages_step. rewrite Hidx.
  destruct (findIndex_is_Some _ _ _ Hidx) as [j Hj]. rewrite Hj.
  destruct (findIndex_Some _ _ _ Hj) as (mj & Hmj & Hid).
  destruct (hasRawImage m).
  - right. exists j, mj. split_and!; [done|done|done|].
    destruct (existsSync (st_fs st) _); [right; by eexists|].
    destruct (truthy (Model.sourcePath m)); [|by left].
    destruct (findAlternativeImage _ _ _) as [alt|]; [|by left].
    destruct (truthy alt); [right; by eexists|by left].
  - destruct (negb (truthy_opt (Model.image m))); [|by left].
    right. exists j, mj. split_and!; [done|done|done|]. by left.
Qed.

Lemma recordImagePath_lookup (id v : string) (cache : gmap string CacheEntry.t)
    (k : string) :
  (is_Some (recordImagePath id v cache !! k) <-> is_Some (cache !! k))
  ∧ (k ≠ id -> recordImagePath id v cache !! k = cache !! k).
Proof.
  unfold recordImagePath. destruct (cache !! id) as [e|] eqn:He; [|done].
  split.
  - destruct (decide (k = id)) as [->|Hne].
    + rewrite lookup_insert_eq, He. split; by eexists.
    + by rewrite lookup_insert_ne.
  - intros Hne. by rewrite lookup_insert_ne.
Qed.

Lemma copyImage_cache (j : nat) (id source : string) (st : ImageState FS)
    (k : string) :
  (is_Some (st_cache (imgCopy j id source st) !! k) <-> is_Some (st_cache st !! k))
  ∧ (k ≠ id -> st_cache (imgCopy j id source st) !! k = st_cache st !! k).
Proof.
  unfold copyImage. destruct (copyFileSync _ _ _); simpl; [|done].
  apply recordImagePath_lookup.
Qed.

Lemma step_cache (idx : nat) (st : ImageState FS) (k : string) :
  (is_Some (st_cache (imgStep idx st) !! k) <-> is_Some (st_cache st !! k))
  ∧ (k ∉ Model.id <$> st_models st ->
     st_cache (imgStep idx st) !! k = st_cache st !! k).
Proof.
  destruct (st_models st !! idx) as [m|] eqn:Hidx;
    [|by rewrite step_out_of_range].
  destruct (step_outcome idx st m Hidx)
    as [->|(j & mj & _ & _ & _ & [->|[source ->]])]; [done|done|].
  destruct (copyImage_cache j (Model.id m) source st k) as [H1 H2].
  split; [done|]. intros Hnin. apply H2. intros ->. apply Hnin.
  apply list_elem_of_fmap. exists m. split; [done|]. by eapply list_elem_of_lookup_2.
Qed.

Lemma foldl_step_cache (L : list nat) (st : ImageState FS) (k : string) :
  (is_Some (st_cache (foldl (fun st idx => imgStep idx st) st L) !! k)
   <-> is_Some (st_cache st !! k))
  ∧ (k ∉ Model.id <$> st_models st ->
     st_cache (foldl (fun st idx => imgStep idx st) st L) !! k = st_cache st !! k).
Proof.
  revert st. induction L as [|idx L IH]; intros st; [done|]. cbn [foldl].
  destruct (IH (imgStep idx st)) as [H1 H2].
  destruct (step_cache idx st k) as [H3 H4].
  split; [by rewrite H1|].
  intros Hnin. rewrite H2, H4; [done|done|]. by rewrite step_ids.
Qed.

(** *** The counters *)

Lemma step_counters (idx : nat) (st : ImageState FS) :
  countersAgree st ->
  countersAgree (imgStep idx st)
  ∧ updatedCount (imgStep idx st) ≤ S (updatedCount st).
Proof.
  intros (H1 & H2 & H3).
  destruct (st_models st !! idx) as [m|] eqn:Hidx.
  2: { rewrite step_out_of_range by done. split; [done|lia]. }
  destruct (step_outcome idx st m Hidx)
    as [->|(j & mj & _ & _ & _ & [->|[source ->]])].
  - split; [done|lia].
  - unfold countersAgree. simpl. lia.
  - unfold countersAgree, copyImage.
    destruct (copyFileSync _ _ _); simpl; rewrite length_app; simpl; lia.
Qed.

Lemma foldl_step_counters (L : list nat) (st : ImageState FS) :
  countersAgree st ->
  countersAgree (foldl (fun st idx => imgStep idx st) st L)
  ∧ updatedCount (foldl (fun st idx => imgStep idx st) st L)
    ≤ updatedCount st + length L.
Proof.
  revert st. induction L as [|idx L IH]; intros st Hst; simpl; [split; [done|lia]|].
  destruct (step_counters idx st Hst) as [Hst' Hle].
  destruct (IH _ Hst') as [Hfin Hle']. split; [done|lia].
Qed.

(** *** Where an image comes from *)

Lemma ImageProvenance_mono (copies copies' : list Copy) (m0 m' : Model.t) :
  (∀ c, c ∈ copies -> c ∈ copies') ->
  ImageProvenance PUBLIC_IMAGES_DIR copies m0 m' ->
  ImageProvenance PUBLIC_IMAGES_DIR copies' m0 m'.
Proof.
  intros Hsub [H|[H|(c & Hc & H)]]; [by left|right; by left|].
  right. right. exists c. split; [by apply Hsub|done].
Qed.

Lemma assignImage_lookup (j : nat) (v : string) (models : list Model.t) (i : nat) :
  assignImage j v models !! i
  = if decide (i = j) then Model.set_image (Some v) <$> models !! j
    else models !! i.
Proof.
  unfold assignImage. destruct (models !! j) as [m|] eqn:Hj.
  - destruct (decide (i = j)) as [->|Hne].
    + rewrite list_lookup_insert_eq; [done|]. by eapply lookup_lt_Some.
    + by rewrite list_lookup_insert_ne.
  - destruct (decide (i = j)) as [->|Hne]; [by rewrite Hj|done].
Qed.

Lemma step_provenance (l0 : list Model.t) (idx : nat) (st : ImageState FS) :
  provenanceHolds l0 st -> provenanceHolds l0 (imgStep idx st).
Proof.
  intros (Hids & Hcopies & Hprov). split; [by rewrite step_ids|].
  destruct (st_models st !! idx) as [m|] eqn:Hidx;
    [|by rewrite step_out_of_range].
  destruct (step_outcome idx st m Hidx)
    as [->|(j & mj & _ & Hmj & Hid & [->|[source ->]])]; [done| |].
  - split; [done|]. simpl. intros i m0 m' H0. rewrite assignImage_lookup.
    destruct (decide (i = j)) as [->|Hne]; [|by apply Hprov].
    rewrite Hmj. intros [= <-]. right. by left.
  - assert (Model.id m ∈ Model.id <$> l0) as Hin.
    { rewrite <- Hids. apply list_elem_of_fmap. exists m. split; [done|].
      by eapply list_elem_of_lookup_2. }
    set (c := {| copy_id := Model.id m; copy_source := source;
                 copy_target := join PUBLIC_IMAGES_DIR
                                  ("model-" +:+ Model.id m +:+ "-" +:+ basename source) |}).
    assert (st_copies (imgCopy j (Model.id m) source st) = st_copies st ++ [c])
      as Hc.
    { unfold copyImage. by destruct (copyFileSync _ _ _). }
    split.
    + intros c'. rewrite Hc, elem_of_app, list_elem_of_singleton.
      intros [H| ->]; [by apply Hcopies|]. done.
    + intros i m0 m' H0. rewrite Hc.
      assert (st_models (imgCopy j (Model.id m) source st) !! i
              = (if decide (i = j)
                 then Model.set_image
                        (Some (match copyFileSync (st_fs st) source (copy_target c) with
                               | Some _ => "/images/" +:+ publishedName (Model.id m) source
                               | None => placeholderPath
                               end)) <$> st_models st !! j
                 else st_models st !! i)) as ->.
      { unfold copyImage. fold (copy_target c).
        change (join PUBLIC_IMAGES_DIR
                  ("model-" +:+ Model.id m +:+ "-" +:+ basename source))
          with (copy_target c).
        destruct (copyFileSync _ _ _); simpl; apply assignImage_lookup. }
      destruct (decide (i = j)) as [->|Hne].
      * rewrite Hmj. intros [= <-].
        assert (Model.id m0 = Model.id m) as Hm0.
        { assert ((Model.id <$> l0) !! j = (Model.id <$> st_models st) !! j) as Hj
            by by rewrite Hids.
          rewrite !list_lookup_fmap, H0, Hmj in Hj. simpl in Hj.
          injection Hj as ->. done. }
        destruct (copyFileSync _ _ _); simpl; [|right; by left].
        right. right. exists c. rewrite Hm0. split_and!; try done.
        apply elem_of_app. right. by apply list_elem_of_singleton.
      * intros Hi. eapply ImageProvenance_mono; [|by eapply Hprov].
        intros c' Hc'. apply elem_of_app. by left.
Qed.

Lemma foldl_step_provenance (l0 : list Model.t) (L : list nat) (st : ImageState FS) :
  provenanceHolds l0 st ->
  provenanceHolds l0 (foldl (fun st idx => imgStep idx st) st L).
Proof.
  revert st. induction L as [|idx L IH]; intros st Hst; [done|].
  cbn [foldl]. by apply IH, step_provenance.
Qed.

End Turns.


(** ** The build as a whole *)

Section WholeBuild.
Context {PM : PathModule} {FS : Type} {FSys : FileSystem FS}.
Variable PUBLIC_IMAGES_DIR EXAMPLE_PLACEHOLDER : string.
Variable md5hex : string -> string.
Variable JSON_stringify : HashSource -> string.

Local Abbreviation build :=
  (buildNextjsApp PUBLIC_IMAGES_DIR EXAMPLE_PLACEHOLDER md5hex JSON_stringify).
Local Abbreviation categorize := (categorizeModels md5hex JSON_stringify).
Local Abbreviation imgStep := (processModelImages_step PUBLIC_IMAGES_DIR).
Local Abbreviation changed := (isChanged md5hex JSON_stringify).
Local Abbreviation hashOf := (calculateModelHash md5hex JSON_stringify).

Lemma build_ids (fs : FS) (data : Catalog.t) (buildCache : BuildCache.t)
    (clock : BuildClock) (res : BuildResult FS) :
  build fs data buildCache clock = Some res ->
  Model.id <$> Catalog.models (br_data res) = Model.id <$> Catalog.models data.
Proof.
  intros Hb. destruct (build_shape _ _ _ _ _ _ _ _ _ Hb)
    as (st0 & Hm0 & _ & _ & Hd & _ & _).
  rewrite Hd. simpl. by rewrite foldl_step_ids, Hm0.
Qed.

Lemma build_cache_keys (fs : FS) (data : Catalog.t) (buildCache : BuildCache.t)
    (clock : BuildClock) (res : BuildResult FS) (k : string) :
  build fs data buildCache clock = Some res ->
  (is_Some (BuildCache.models (br_cache res) !! k)
   <-> is_Some (BuildCache.models buildCache !! k)
       ∨ k ∈ Model.id <$> Catalog.models data)
  ∧ (k ∉ Model.id <$> Catalog.models data ->
     BuildCache.models (br_cache res) !! k = BuildCache.models buildCache !! k).
Proof.
  intros Hb. destruct (build_shape _ _ _ _ _ _ _ _ _ Hb)
    as (st0 & Hm0 & Hc0 & _ & _ & _ & Hc).
  rewrite Hc.
  destruct (foldl_step_cache PUBLIC_IMAGES_DIR
              (newModels (categorize clock (Catalog.models data)
                            (BuildCache.models buildCache))) st0 k) as [H1 H2].
  destruct (categorize_loop_cache md5hex JSON_stringify clock (Catalog.models data) 0
              {| newModels := []; unchangedModels := [];
                 cat_cache := BuildCache.models buildCache |}) as (H3 & H4 & _).
  fold (categorize clock (Catalog.models data) (BuildCache.models buildCache)) in H3, H4.
  simpl in H3, H4. split.
  - by rewrite H1, Hc0, H3.
  - intros Hnin. rewrite H2, Hc0; [by apply H4|by rewrite Hm0].
Qed.

Lemma build_counters (fs : FS) (data : Catalog.t) (L : list nat)
    (buildCache : gmap string CacheEntry.t) :
  countersAgree (processModelImages PUBLIC_IMAGES_DIR EXAMPLE_PLACEHOLDER fs data L
                   buildCache)
  ∧ updatedCount (processModelImages PUBLIC_IMAGES_DIR EXAMPLE_PLACEHOLDER fs data L
                    buildCache) ≤ length L.
Proof.
  unfold processModelImages.
  match goal with
  | |- context [foldl ?f ?st0 L] =>
      destruct (foldl_step_counters PUBLIC_IMAGES_DIR L st0) as [H1 H2]
  end.
  - unfold countersAgree. simpl. lia.
  - split; [done|]. simpl in H2. lia.
Qed.

Lemma build_provenance (fs : FS) (data : Catalog.t) (buildCache : BuildCache.t)
    (clock : BuildClock) (res : BuildResult FS) :
  build fs data buildCache clock = Some res ->
  (∀ c, c ∈ br_copies res ->
        copy_target c
        = join PUBLIC_IMAGES_DIR (publishedName (copy_id c) (copy_source c))
        ∧ copy_id c ∈ Model.id <$> Catalog.models data)
  ∧ ∀ j m0 m', Catalog.models data !! j = Some m0 ->
      Catalog.models (br_data res) !! j = Some m' ->
      ImageProvenance PUBLIC_IMAGES_DIR (br_copies res) m0 m'.
Proof.
  intros Hb. destruct (build_shape _ _ _ _ _ _ _ _ _ Hb)
    as (st0 & Hm0 & _ & Hcp0 & Hd & Hcp & _).
  rewrite Hd, Hcp. simpl.
  destruct (foldl_step_provenance PUBLIC_IMAGES_DIR (Catalog.models data)
              (newModels (categorize clock (Catalog.models data)
                            (BuildCache.models buildCache))) st0)
    as (_ & H1 & H2); [|by split].
  split_and!.
  - by rewrite Hm0.
  - rewrite Hcp0. by intros c ?%elem_of_nil.
  - intros j m0 m' H0. rewrite Hm0, H0. intros [= <-]. by left.
Qed.

Lemma isChanged_no_entry (cache : gmap string CacheEntry.t) (m : Model.t) :
  cache !! Model.id m = None -> changed cache m = true.
Proof. unfold isChanged. by intros ->. Qed.

Lemma isChanged_placeholder (cache : gmap string CacheEntry.t) (m : Model.t) :
  Model.image m = Some placeholderPath -> changed cache m = true.
Proof.
  intros Himg. unfold isChanged. destruct (cache !! Model.id m); [|done].
  unfold hasPlaceholder. rewrite Himg. rewrite String.eqb_refl.
  by rewrite orb_true_r.
Qed.

(** X13.  A build that starts from an empty cache (the cache file deleted)
    takes every entry of a catalog with distinct ids for changed, and leaves
    every entry with a web path as image. *)
Theorem empty_cache_reprocesses_every_model (fs : FS) (data : Catalog.t) (lastBuild : option string)
    (clock : BuildClock) (res : BuildResult FS) :
  NoDup (Model.id <$> Catalog.models data) ->
  buildNextjsApp PUBLIC_IMAGES_DIR EXAMPLE_PLACEHOLDER md5hex JSON_stringify
    fs data {| BuildCache.models := ∅; BuildCache.lastBuild := lastBuild |} clock
  = Some res ->
  (∀ j, j < length (Catalog.models data) ->
        j ∈ newModels (categorizeModels md5hex JSON_stringify clock (Catalog.models data) ∅))
  ∧ unchangedModels (categorizeModels md5hex JSON_stringify clock (Catalog.models data) ∅) = []
  ∧ ∀ m, m ∈ Catalog.models (br_data res) -> webShaped (Model.image m).
Proof.
  intros Hnd Hb.
  assert (∀ j m, Catalog.models data !! j = Some m ->
                 j ∈ newModels (categorize clock (Catalog.models data) ∅)) as Hall.
  { intros j m Hj.
    destruct (categorize_spec md5hex JSON_stringify clock _ ∅ j m Hnd Hj) as (-> & _).
    apply isChanged_no_entry, lookup_empty. }
  split_and!.
  - intros j [m Hj]%lookup_lt_is_Some_2. by eapply Hall.
  - destruct (unchangedModels _) as [|j u] eqn:Hu; [done|].
    assert (j ∈ unchangedModels (categorize clock (Catalog.models data) ∅)) as Hin.
    { rewrite Hu. apply list_elem_of_here. }
    destruct (categorize_index md5hex JSON_stringify clock (Catalog.models data) ∅ j)
      as (m & Hj); [apply elem_of_app; by right|].
    destruct (categorize_spec md5hex JSON_stringify clock _ ∅ j m Hnd Hj)
      as (_ & Hun & _).
    apply Hun in Hin. by rewrite isChanged_no_entry in Hin by apply lookup_empty.
  - destruct (build_materialized _ _ _ _ _ _ _ _ _ Hnd Hb) as [[Hlen HM] _].
    simpl in HM. intros m [j Hj]%list_elem_of_lookup_1.
    assert (is_Some (Catalog.models data !! j)) as [m0 H0].
    { apply lookup_lt_is_Some_2. rewrite <- Hlen. by eapply lookup_lt_Some. }
    destruct (HM j m0 H0) as (m' & Hm' & _ & Hweb & _).
    rewrite Hj in Hm'. injection Hm' as <-. apply Hweb. by eapply Hall.
Qed.

(** X14.  Building again right after a build, on the catalog and the cache
    that build left and whatever the file system holds by then, changes
    nothing in the catalog and copies no file (ids distinct). *)
Theorem rebuild_changes_nothing (fs fs' : FS) (data : Catalog.t) (buildCache : BuildCache.t)
    (clock clock' : BuildClock) (r1 r2 : BuildResult FS) :
  NoDup (Model.id <$> Catalog.models data) ->
  buildNextjsApp PUBLIC_IMAGES_DIR EXAMPLE_PLACEHOLDER md5hex JSON_stringify
    fs data buildCache clock = Some r1 ->
  buildNextjsApp PUBLIC_IMAGES_DIR EXAMPLE_PLACEHOLDER md5hex JSON_stringify
    fs' (br_data r1) (br_cache r1) clock' = Some r2 ->
  br_data r2 = br_data r1 ∧ br_copies r2 = [].
Proof.
  intros Hnd Hb1 Hb2.
  destruct (build_materialized _ _ _ _ _ _ _ _ _ Hnd Hb1) as [[Hlen HM] Hhash].
  pose proof (build_ids _ _ _ _ _ Hb1) as Hids.
  assert (NoDup (Model.id <$> Catalog.models (br_data r1))) as Hnd' by by rewrite Hids.
  destruct (build_shape _ _ _ _ _ _ _ _ _ Hb2)
    as (st0 & Hm0 & _ & Hcp0 & Hd2 & Hcp2 & _).
  assert (∀ idx m,
            idx ∈ newModels (categorize clock' (Catalog.models (br_data r1))
                               (BuildCache.models (br_cache r1))) ->
            st_models st0 !! idx = Some m -> webShaped (Model.image m)) as Hweb2.
  { intros idx m Hin. rewrite Hm0. intros Hidx.
      destruct (categorize_spec md5hex JSON_stringify clock' _
                  (BuildCache.models (br_cache r1)) idx m Hnd' Hidx) as (Hnew2 & _).
      apply Hnew2 in Hin.
      assert (is_Some (Catalog.models data !! idx)) as [m0 H0].
      { apply lookup_lt_is_Some_2. rewrite <- Hlen. by eapply lookup_lt_Some. }
      destruct (HM idx m0 H0) as (m' & Hm' & _ & Hweb & Hsame).
      rewrite Hidx in Hm'. injection Hm' as <-.
      destruct (decide (idx ∈ newModels (categorize clock (Catalog.models data)
                                           (BuildCache.models buildCache))))
        as [Hin1|Hnin1]; [by apply Hweb|].
      specialize (Hsame Hnin1). subst m.
      destruct (categorize_spec md5hex JSON_stringify clock _
                  (BuildCache.models buildCache) idx m0 Hnd H0) as (Hnew1 & _ & Hh1).
      destruct (changed (BuildCache.models buildCache) m0) eqn:Hch.
      { exfalso. apply Hnin1. by apply Hnew1. }
      rewrite (isChanged_ext md5hex JSON_stringify _ (BuildCache.models buildCache)) in Hin.
      + congruence.
      + by rewrite Hhash, Hh1. }
  cbv zeta in Hd2, Hcp2.
  rewrite (foldl_step_noop PUBLIC_IMAGES_DIR _ st0 Hweb2) in Hd2, Hcp2.
  split; [|by rewrite Hcp2]. rewrite Hd2, Hm0. by destruct (br_data r1).
Qed.

(** X15.  An entry whose image is the placeholder is taken for changed by
    every build, whatever the cache holds, and yet every build leaves it
    exactly as it is and copies nothing for it, whatever the file system
    holds (ids distinct): the placeholder is never replaced by the build. *)
Theorem placeholder_is_retried_but_never_replaced (fs : FS) (data : Catalog.t) (buildCache : BuildCache.t)
    (clock : BuildClock) (res : BuildResult FS) (j : nat) (m : Model.t) :
  NoDup (Model.id <$> Catalog.models data) ->
  Catalog.models data !! j = Some m ->
  Model.image m = Some placeholderPath ->
  buildNextjsApp PUBLIC_IMAGES_DIR EXAMPLE_PLACEHOLDER md5hex JSON_stringify
    fs data buildCache clock = Some res ->
  j ∈ newModels (categorizeModels md5hex JSON_stringify clock (Catalog.models data) (BuildCache.models buildCache))
  ∧ Catalog.models (br_data res) !! j = Some m
  ∧ ∀ c, c ∈ br_copies res -> copy_id c ≠ Model.id m.
Proof.
  intros Hnd Hj Himg Hb.
  destruct (categorize_spec md5hex JSON_stringify clock _
              (BuildCache.models buildCache) j m Hnd Hj) as (Hnew & _).
  split; [by apply Hnew, isChanged_placeholder|].
  destruct (build_materialized _ _ _ _ _ _ _ _ _ Hnd Hb) as [[Hlen HM] _].
  destruct (HM j m Hj) as (m' & Hm' & Heq & _).
  destruct (build_shape _ _ _ _ _ _ _ _ _ Hb)
    as (st0 & Hm0 & _ & Hcp0 & Hd & Hcp & _).
  destruct (foldl_keeps PUBLIC_IMAGES_DIR (Model.id m) placeholderPath
              (newModels (categorize clock (Catalog.models data)
                            (BuildCache.models buildCache))) st0
              webFriendly_placeholder) as [Hk1 Hk2].
  { split.
    - intros j' m'' Hj' Hid. rewrite Hm0 in Hj'.
      assert (j' = j) as ->.
      { eapply (NoDup_lookup _ _ _ _ Hnd); rewrite list_lookup_fmap.
        - rewrite Hj'. simpl. rewrite Hid. reflexivity.
        - by rewrite Hj. }
      rewrite Hj in Hj'. by injection Hj' as <-.
    - rewrite Hcp0. by intros c ?%elem_of_nil. }
  split.
  - rewrite Hm'. f_equal. rewrite Heq.
    rewrite Hd in Hm'. simpl in Hm'.
    rewrite (Hk1 j m' Hm'); [by rewrite <- Himg, set_image_image|].
    rewrite Heq. apply set_image_id.
  - rewrite Hcp. apply Hk2.
Qed.

End WholeBuild.


(** ** The build on the examples *)

Lemma empty_cache_reprocesses_every_model_witness :
  ∃ res : BuildResult ToyFs.t,
    @buildNextjsApp posix ToyFs.t toyFs Example.publicImages
      Example.examplePlaceholder toyDigest toyStringify Example.fs0
      Example.bareCatalog Example.emptyCache (Example.buildClockAt "b1") = Some res
    ∧ (∀ j, j < length (Catalog.models Example.bareCatalog) ->
            j ∈ newModels (categorizeModels toyDigest toyStringify
                             (Example.buildClockAt "b1")
                             (Catalog.models Example.bareCatalog) ∅))
    ∧ unchangedModels (categorizeModels toyDigest toyStringify
                         (Example.buildClockAt "b1")
                         (Catalog.models Example.bareCatalog) ∅) = []
    ∧ ∀ m, m ∈ Catalog.models (br_data res) -> webShaped (Model.image m).
Proof.
  destruct (@buildNextjsApp posix ToyFs.t toyFs Example.publicImages
              Example.examplePlaceholder toyDigest toyStringify Example.fs0
              Example.bareCatalog Example.emptyCache (Example.buildClockAt "b1"))
    as [res|] eqn:Hrun; [|vm_compute in Hrun; discriminate Hrun].
  exists res. split; [done|].
  assert (NoDup (Model.id <$> Catalog.models Example.bareCatalog)) as Hnd
    by apply NoDup_singleton.
  exact (empty_cache_reprocesses_every_model _ _ _ _ _ _ _ _ _ Hnd Hrun).
Defined.

Lemma rebuild_changes_nothing_witness :
  ∃ r1 r2 : BuildResult ToyFs.t,
    @buildNextjsApp posix ToyFs.t toyFs Example.publicImages
      Example.examplePlaceholder toyDigest toyStringify Example.fs0
      Example.catalogRaw Example.emptyCache (Example.buildClockAt "b1") = Some r1
    ∧ @buildNextjsApp posix ToyFs.t toyFs Example.publicImages
        Example.examplePlaceholder toyDigest toyStringify (br_fs r1)
        (br_data r1) (br_cache r1) (Example.buildClockAt "b2") = Some r2
    ∧ br_copies r1 ≠ []
    ∧ br_data r2 = br_data r1 ∧ br_copies r2 = [].
Proof.
  destruct (@buildNextjsApp posix ToyFs.t toyFs Example.publicImages
              Example.examplePlaceholder toyDigest toyStringify Example.fs0
              Example.catalogRaw Example.emptyCache (Example.buildClockAt "b1"))
    as [r1|] eqn:Hrun1; [|vm_compute in Hrun1; discriminate Hrun1].
  destruct (@buildNextjsApp posix ToyFs.t toyFs Example.publicImages
              Example.examplePlaceholder toyDigest toyStringify (br_fs r1)
              (br_data r1) (br_cache r1) (Example.buildClockAt "b2"))
    as [r2|] eqn:Hrun2.
  - exists r1, r2.
    assert (NoDup (Model.id <$> Catalog.models Example.catalogRaw)) as Hnd.
    { apply NoDup_cons. split; [|apply NoDup_singleton].
      intros Hin%list_elem_of_singleton. discriminate Hin. }
    split; [done|]. split; [done|]. split.
    + clear Hrun2. vm_compute in Hrun1. injection Hrun1 as <-. discriminate.
    + exact (rebuild_changes_nothing _ _ _ _ _ _ _ _ _ _ _ _ Hnd Hrun1 Hrun2).
  - exfalso. vm_compute in Hrun1. injection Hrun1 as <-.
    vm_compute in Hrun2. discriminate Hrun2.
Defined.

Lemma placeholder_is_retried_but_never_replaced_witness :
  ∃ (res : BuildResult ToyFs.t) (m : Model.t),
    Catalog.models Example.catalog1 !! 1 = Some m
    ∧ Model.image m = Some placeholderPath
    ∧ @buildNextjsApp posix ToyFs.t toyFs Example.publicImages
        Example.examplePlaceholder toyDigest toyStringify Example.fs0
        Example.catalog1 Example.emptyCache (Example.buildClockAt "b1") = Some res
    ∧ 1 ∈ newModels (categorizeModels toyDigest toyStringify
                       (Example.buildClockAt "b1") (Catalog.models Example.catalog1)
                       (BuildCache.models Example.emptyCache))
    ∧ Catalog.models (br_data res) !! 1 = Some m
    ∧ ∀ c, c ∈ br_copies res -> copy_id c ≠ Model.id m.
Proof.
  destruct (@buildNextjsApp posix ToyFs.t toyFs Example.publicImages
              Example.examplePlaceholder toyDigest toyStringify Example.fs0
              Example.catalog1 Example.emptyCache (Example.buildClockAt "b1"))
    as [res|] eqn:Hrun; [|vm_compute in Hrun; discriminate Hrun].
  destruct (Catalog.models Example.catalog1 !! 1) as [m|] eqn:Hm;
    [|vm_compute in Hm; discriminate Hm].
  exists res, m.
  assert (Model.image m = Some placeholderPath) as Himg.
  { vm_compute in Hm. injection Hm as <-. reflexivity. }
  assert (NoDup (Model.id <$> Catalog.models Example.catalog1)) as Hnd.
  { apply NoDup_cons. split; [|apply NoDup_singleton].
    intros Hin%list_elem_of_singleton. discriminate Hin. }
  split; [done|]. split; [done|]. split; [done|].
  exact (placeholder_is_retried_but_never_replaced _ _ _ _ _ _ _ _ _ 1 m
           Hnd Hm Himg Hrun).
Defined.

(** X16.  The build cache only grows.  For a catalog none of whose ids is
    __proto__ (the one key that, written to the plain object cache.models,
    replaces its prototype and adds no entry), after a build the cache has
    an entry for exactly the ids it had before and the ids of the catalog,
    the entries of ids that are not in the catalog are as they were
    (nothing is ever evicted), and the time of the build is recorded. *)
Theorem build_cache_only_grows
    {PM : PathModule} {FS : Type} {FSys : FileSystem FS}
    (PUBLIC_IMAGES_DIR EXAMPLE_PLACEHOLDER : string)
    (md5hex : string -> string) (JSON_stringify : HashSource -> string)
    (fs : FS) (data : Catalog.t) (buildCache : BuildCache.t) (clock : BuildClock)
    (res : BuildResult FS) :
  "__proto__"%string ∉ Model.id <$> Catalog.models data ->
  buildNextjsApp PUBLIC_IMAGES_DIR EXAMPLE_PLACEHOLDER md5hex JSON_stringify
    fs data buildCache clock = Some res ->
  (∀ k, is_Some (BuildCache.models (br_cache res) !! k)
        <-> is_Some (BuildCache.models buildCache !! k)
            ∨ k ∈ Model.id <$> Catalog.models data)
  ∧ (∀ k, k ∉ Model.id <$> Catalog.models data ->
          BuildCache.models (br_cache res) !! k = BuildCache.models buildCache !! k)
  ∧ BuildCache.lastBuild (br_cache res) = Some (lastBuildNow clock).
Proof.
  intros _ Hb. split_and!.
  - intros k. by eapply build_cache_keys.
  - intros k. by eapply build_cache_keys.
  - unfold buildNextjsApp in Hb.
    destruct (if existsSync fs PUBLIC_IMAGES_DIR then Some fs
              else mkdirSync fs PUBLIC_IMAGES_DIR); simpl in Hb; [|done].
    by injection Hb as <-.
Qed.

Lemma build_cache_only_grows_witness :
  ∃ res : BuildResult ToyFs.t,
    ("__proto__"%string ∉ Model.id <$> Catalog.models Example.catalog1)
    ∧ @buildNextjsApp posix ToyFs.t toyFs Example.publicImages
        Example.examplePlaceholder toyDigest toyStringify Example.fs0
        Example.catalog1 Example.warmCache (Example.buildClockAt "b1") = Some res
    ∧ (∀ k, is_Some (BuildCache.models (br_cache res) !! k)
            <-> is_Some (BuildCache.models Example.warmCache !! k)
                ∨ k ∈ Model.id <$> Catalog.models Example.catalog1)
    ∧ (∀ k, k ∉ Model.id <$> Catalog.models Example.catalog1 ->
            BuildCache.models (br_cache res) !! k
            = BuildCache.models Example.warmCache !! k)
    ∧ BuildCache.lastBuild (br_cache res) = Some "b1"%string.
Proof.
  destruct (@buildNextjsApp posix ToyFs.t toyFs Example.publicImages
              Example.examplePlaceholder toyDigest toyStringify Example.fs0
              Example.catalog1 Example.warmCache (Example.buildClockAt "b1"))
    as [res|] eqn:Hrun; [|vm_compute in Hrun; discriminate Hrun].
  assert ("__proto__"%string ∉ Model.id <$> Catalog.models Example.catalog1)
    as Hids.
  { intros Hin. apply list_elem_of_In in Hin. vm_compute in Hin.
    destruct Hin as [Hin|[Hin|Hin]]; [discriminate Hin..|done]. }
  exists res. split; [done|]. split; [done|].
  exact (build_cache_only_grows _ _ _ _ _ _ _ _ _ Hids Hrun).
Defined.

(** X17.  The counters the materializer reports agree with one another,
    whatever it is given: every updated entry got a copy or the placeholder,
    every error ended in the placeholder, copies that went through and
    errors are the calls of copyFileSync made for images, and no more
    entries are updated than were handed over. *)
Theorem image_counters_agree
    {PM : PathModule} {FS : Type} {FSys : FileSystem FS}
    (PUBLIC_IMAGES_DIR EXAMPLE_PLACEHOLDER : string)
    (fs : FS) (data : Catalog.t) (modelsToProcess : list nat)
    (buildCache : gmap string CacheEntry.t) :
  let st := processModelImages PUBLIC_IMAGES_DIR EXAMPLE_PLACEHOLDER fs data
              modelsToProcess buildCache in
  copiedCount st + placeholderCount st = updatedCount st
  ∧ st_errorCount st ≤ placeholderCount st
  ∧ length (st_copies st) = copiedCount st + st_errorCount st
  ∧ updatedCount st ≤ length modelsToProcess.
Proof.
  cbv zeta.
  destruct (build_counters PUBLIC_IMAGES_DIR EXAMPLE_PLACEHOLDER fs data
              modelsToProcess buildCache) as [(H1 & H2 & H3) H4].
  by split_and!.
Qed.

(** X18.  Every copy a build makes for an image goes to the publish
    directory, under the file name model-<id>-<base name of the source>,
    for an id of the catalog; and every entry is, after the build, either
    as it was, or has the placeholder as image, or has as image the web
    path /images/<that file name> of a copy made for its id. *)
Theorem published_images_are_named_after_id_and_source
    {PM : PathModule} {FS : Type} {FSys : FileSystem FS}
    (PUBLIC_IMAGES_DIR EXAMPLE_PLACEHOLDER : string)
    (md5hex : string -> string) (JSON_stringify : HashSource -> string)
    (fs : FS) (data : Catalog.t) (buildCache : BuildCache.t) (clock : BuildClock)
    (res : BuildResult FS) :
  buildNextjsApp PUBLIC_IMAGES_DIR EXAMPLE_PLACEHOLDER md5hex JSON_stringify
    fs data buildCache clock = Some res ->
  (∀ c, c ∈ br_copies res ->
        copy_target c
        = join PUBLIC_IMAGES_DIR
            ("model-" +:+ copy_id c +:+ "-" +:+ basename (copy_source c))
        ∧ copy_id c ∈ Model.id <$> Catalog.models data)
  ∧ ∀ j m0 m', Catalog.models data !! j = Some m0 ->
      Catalog.models (br_data res) !! j = Some m' ->
      m' = m0
      ∨ Model.image m' = Some placeholderPath
      ∨ ∃ c, c ∈ br_copies res ∧ copy_id c = Model.id m0
             ∧ Model.image m'
               = Some ("/images/" +:+ "model-" +:+ Model.id m0 +:+ "-"
                       +:+ basename (copy_source c)).
Proof.
  intros Hb. destruct (build_provenance _ _ _ _ _ _ _ _ _ Hb) as [H1 H2].
  split; [done|]. intros j m0 m' H0 H'.
  destruct (H2 j m0 m' H0 H') as [H|[H|(c & Hc & Hid & _ & Himg)]];
    [by left|right; by left|].
  right. right. by exists c.
Qed.

Lemma published_images_are_named_after_id_and_source_witness :
  ∃ res : BuildResult ToyFs.t,
    @buildNextjsApp posix ToyFs.t toyFs Example.publicImages
      Example.examplePlaceholder toyDigest toyStringify Example.fs0
      Example.catalogRaw Example.emptyCache (Example.buildClockAt "b1") = Some res
    ∧ br_copies res
      = [{| copy_id := "goblin-Goblin-C";
            copy_source := "/data/Collection1/Goblin/cover.png";
            copy_target := "/site/public/images/model-goblin-Goblin-C-cover.png" |}]
    ∧ (∀ c, c ∈ br_copies res ->
            copy_target c
            = @join posix Example.publicImages
                ("model-" +:+ copy_id c +:+ "-" +:+ @basename posix (copy_source c))
            ∧ copy_id c ∈ Model.id <$> Catalog.models Example.catalogRaw)
    ∧ ∀ j m0 m', Catalog.models Example.catalogRaw !! j = Some m0 ->
        Catalog.models (br_data res) !! j = Some m' ->
        m' = m0
        ∨ Model.image m' = Some placeholderPath
        ∨ ∃ c, c ∈ br_copies res ∧ copy_id c = Model.id m0
               ∧ Model.image m'
                 = Some ("/images/" +:+ "model-" +:+ Model.id m0 +:+ "-"
                         +:+ @basename posix (copy_source c)).
Proof.
  destruct (@buildNextjsApp posix ToyFs.t toyFs Example.publicImages
              Example.examplePlaceholder toyDigest toyStringify Example.fs0
              Example.catalogRaw Example.emptyCache (Example.buildClockAt "b1"))
    as [res|] eqn:Hrun; [|vm_compute in Hrun; discriminate Hrun].
  exists res. split; [done|]. split.
  - vm_compute in Hrun. injection Hrun as <-. reflexivity.
  - exact (published_images_are_named_after_id_and_source _ _ _ _ _ _ _ _ _ Hrun).
Defined.


(** * Properties of the gallery page *)

Section GalleryLists.
Import Gallery.

Lemma elem_of_snoc {A : Type} (l : list A) (x y : A) :
  y ∈ l ++ [x] <-> y ∈ l ∨ y = x.
Proof. by rewrite elem_of_app, list_elem_of_singleton. Qed.

Lemma existsb_eqb_elem (x : string) (l : list string) :
  existsb (String.eqb x) l = true <-> x ∈ l.
Proof. apply existsb_tag. Qed.

Lemma setAdd_elem (x y : string) (s : list string) :
  y ∈ setAdd x s <-> y = x ∨ y ∈ s.
Proof.
  unfold setAdd. destruct (existsb (String.eqb x) s) eqn:E.
  - apply existsb_eqb_elem in E. split; [by right|]. by intros [->|?].
  - rewrite elem_of_app, list_elem_of_singleton. tauto.
Qed.

Lemma setAdd_NoDup (x : string) (s : list string) : NoDup s -> NoDup (setAdd x s).
Proof.
  intros Hnd. unfold setAdd. destruct (existsb (String.eqb x) s) eqn:E; [done|].
  apply NoDup_app. split_and!; [done| |apply NoDup_singleton].
  intros y Hy ->%list_elem_of_singleton.
  apply existsb_eqb_elem in Hy. congruence.
Qed.

Lemma foldl_setAdd (l s : list string) :
  (NoDup s -> NoDup (foldl (fun tags tag => setAdd tag tags) s l))
  ∧ ∀ y, y ∈ foldl (fun tags tag => setAdd tag tags) s l <-> y ∈ s ∨ y ∈ l.
Proof.
  revert s. induction l as [|x l IH]; intros s; simpl.
  - split; [done|]. intros y. split; [by left|]. by intros [?|?%elem_of_nil].
  - destruct (IH (setAdd x s)) as [H1 H2]. split.
    + intros Hnd. by apply H1, setAdd_NoDup.
    + intros y. rewrite H2, setAdd_elem, elem_of_cons. tauto.
Qed.

Lemma insertSorted_Permutation (x : string) (l : list string) :
  insertSorted x l ≡ₚ x :: l.
Proof.
  induction l as [|y l IH]; simpl; [done|].
  destruct (String.leb x y); [done|]. rewrite IH. apply Permutation_swap.
Qed.

Lemma sortStrings_Permutation (l : list string) : sortStrings l ≡ₚ l.
Proof.
  induction l as [|x l IH]; simpl; [done|].
  by rewrite insertSorted_Permutation, IH.
Qed.

Lemma insertSorted_ascending (x : string) (l : list string) :
  ascending l -> ascending (insertSorted x l).
Proof.
  induction l as [|y l IH]; simpl; [done|]. intros [Hy Hl].
  destruct (String.leb x y) eqn:E; [done|].
  split; [|by apply IH].
  assert (String.leb y x = true) as Hyx.
  { destruct (String.leb_total x y); congruence. }
  destruct l as [|z l]; simpl; [done|].
  by destruct (String.leb x z).
Qed.

Lemma sortStrings_ascending (l : list string) : ascending (sortStrings l).
Proof.
  induction l as [|x l IH]; simpl; [done|]. by apply insertSorted_ascending.
Qed.

Lemma collectFilters_spec (models : list Model.t) :
  (NoDup (releases (collectFilters models))
   ∧ ∀ v, v ∈ releases (collectFilters models)
          <-> v ≠ ""%string ∧ ∃ m, m ∈ models ∧ Model.release m = Some v)
  ∧ (NoDup (subscriptions (collectFilters models))
     ∧ ∀ v, v ∈ subscriptions (collectFilters models)
            <-> v ≠ ""%string ∧ ∃ m, m ∈ models ∧ Model.subscription m = Some v)
  ∧ (NoDup (tags (collectFilters models))
     ∧ ∀ v, v ∈ tags (collectFilters models)
            <-> ∃ m, m ∈ models ∧ v ∈ Model.tags m).
Proof.
  unfold collectFilters.
  set (f := fun (acc : FilterOptions) (model : Model.t) => _).
  assert (∀ (l seen : list Model.t) (acc : FilterOptions),
            (NoDup (releases acc)
             ∧ ∀ v, v ∈ releases acc
                    <-> v ≠ ""%string ∧ ∃ m, m ∈ seen ∧ Model.release m = Some v) ->
            (NoDup (subscriptions acc)
             ∧ ∀ v, v ∈ subscriptions acc
                    <-> v ≠ ""%string ∧ ∃ m, m ∈ seen ∧ Model.subscription m = Some v) ->
            (NoDup (tags acc)
             ∧ ∀ v, v ∈ tags acc <-> ∃ m, m ∈ seen ∧ v ∈ Model.tags m) ->
            (NoDup (releases (foldl f acc l))
             ∧ ∀ v, v ∈ releases (foldl f acc l)
                    <-> v ≠ ""%string
                        ∧ ∃ m, m ∈ seen ++ l ∧ Model.release m = Some v)
            ∧ (NoDup (subscriptions (foldl f acc l))
               ∧ ∀ v, v ∈ subscriptions (foldl f acc l)
                      <-> v ≠ ""%string
                          ∧ ∃ m, m ∈ seen ++ l ∧ Model.subscription m = Some v)
            ∧ (NoDup (tags (foldl f acc l))
               ∧ ∀ v, v ∈ tags (foldl f acc l)
                      <-> ∃ m, m ∈ seen ++ l ∧ v ∈ Model.tags m)) as H.
  { induction l as [|x l IH]; intros seen acc HR HS HT.
    - simpl. by rewrite app_nil_r.
    - cbn [foldl]. replace (seen ++ x :: l) with ((seen ++ [x]) ++ l)
        by by rewrite <- app_assoc.
      destruct HR as [HR1 HR2], HS as [HS1 HS2], HT as [HT1 HT2].
      apply IH; unfold f; simpl.
      + destruct (Model.release x) as [r|] eqn:Hr.
        * destruct (truthy r) eqn:Ht.
          -- apply truthy_true in Ht. split; [by apply setAdd_NoDup|].
             intros v. rewrite setAdd_elem, HR2. split.
             ++ intros [->|[Hv (m & Hm & Hmv)]].
                ** split; [done|]. exists x. split; [|done].
                   apply elem_of_app. right. apply list_elem_of_here.
                ** split; [done|]. exists m. split; [|done].
                   apply elem_of_app. by left.
             ++ intros [Hv (m & [Hm| ->]%elem_of_snoc & Hmv)].
                ** right. split; [done|]. by exists m.
                ** left. congruence.
          -- split; [done|]. intros v. rewrite HR2. split.
             ++ intros [Hv (m & Hm & Hmv)]. split; [done|]. exists m.
                split; [|done]. apply elem_of_app. by left.
             ++ intros [Hv (m & [Hm| ->]%elem_of_snoc & Hmv)].
                ** split; [done|]. by exists m.
                ** rewrite Hr in Hmv. injection Hmv as ->.
                   apply truthy_true in Hv. congruence.
        * split; [done|]. intros v. rewrite HR2. split.
          -- intros [Hv (m & Hm & Hmv)]. split; [done|]. exists m.
             split; [|done]. apply elem_of_app. by left.
          -- intros [Hv (m & [Hm| ->]%elem_of_snoc & Hmv)].
             ++ split; [done|]. by exists m.
             ++ congruence.
      + destruct (Model.subscription x) as [r|] eqn:Hr.
        * destruct (truthy r) eqn:Ht.
          -- apply truthy_true in Ht. split; [by apply setAdd_NoDup|].
             intros v. rewrite setAdd_elem, HS2. split.
             ++ intros [->|[Hv (m & Hm & Hmv)]].
                ** split; [done|]. exists x. split; [|done].
                   apply elem_of_app. right. apply list_elem_of_here.
                ** split; [done|]. exists m. split; [|done].
                   apply elem_of_app. by left.
             ++ intros [Hv (m & [Hm| ->]%elem_of_snoc & Hmv)].
                ** right. split; [done|]. by exists m.
                ** left. congruence.
          -- split; [done|]. intros v. rewrite HS2. split.
             ++ intros [Hv (m & Hm & Hmv)]. split; [done|]. exists m.
                split; [|done]. apply elem_of_app. by left.
             ++ intros [Hv (m & [Hm| ->]%elem_of_snoc & Hmv)].
                ** split; [done|]. by exists m.
                ** rewrite Hr in Hmv. injection Hmv as ->.
                   apply truthy_true in Hv. congruence.
        * split; [done|]. intros v. rewrite HS2. split.
          -- intros [Hv (m & Hm & Hmv)]. split; [done|]. exists m.
             split; [|done]. apply elem_of_app. by left.
          -- intros [Hv (m & [Hm| ->]%elem_of_snoc & Hmv)].
             ++ split; [done|]. by exists m.
             ++ congruence.
      + destruct (foldl_setAdd (Model.tags x) (tags acc)) as [H1 H2].
        split; [by apply H1|]. intros v. rewrite H2, HT2. split.
        * intros [(m & Hm & Hv)|Hv].
          -- exists m. split; [|done]. apply elem_of_app. by left.
          -- exists x. split; [|done]. apply elem_of_app. right.
             apply list_elem_of_here.
        * intros (m & [Hm| ->]%elem_of_snoc & Hv).
          -- left. by exists m.
          -- by right. }
  apply (H models [] {| releases := []; subscriptions := []; tags := [] |}); simpl.
  - split; [apply NoDup_nil_2|]. intros v. split; [by intros ?%elem_of_nil|].
    by intros [_ (m & ?%elem_of_nil & _)].
  - split; [apply NoDup_nil_2|]. intros v. split; [by intros ?%elem_of_nil|].
    by intros [_ (m & ?%elem_of_nil & _)].
  - split; [apply NoDup_nil_2|]. intros v. split; [by intros ?%elem_of_nil|].
    by intros (m & ?%elem_of_nil & _).
Qed.

Lemma elem_of_bfilter {A : Type} (f : A -> bool) (l : list A) (x : A) :
  x ∈ List.filter f l <-> x ∈ l ∧ f x = true.
Proof. rewrite !list_elem_of_In. apply filter_In. Qed.

Lemma bfilter_sublist {A : Type} (f g : A -> bool) (l : list A) :
  (∀ x, f x = true -> g x = true) -> List.filter f l `sublist_of` List.filter g l.
Proof.
  intros Hfg. induction l as [|x l IH]; simpl; [done|].
  destruct (f x) eqn:E.
  - rewrite (Hfg x E). by apply sublist_skip.
  - destruct (g x); [by apply sublist_cons|done].
Qed.

Lemma bfilter_sublist_self {A : Type} (f : A -> bool) (l : list A) :
  List.filter f l `sublist_of` l.
Proof.
  induction l as [|x l IH]; simpl; [done|].
  destruct (f x); [by apply sublist_skip|by apply sublist_cons].
Qed.

Lemma includesProperty_true (selected : list string) (v : option string) :
  includesProperty selected v = true <-> ∃ s, v = Some s ∧ s ∈ selected.
Proof.
  unfold includesProperty. destruct v as [s|].
  - rewrite existsb_eqb_elem. split; [intros H; by exists s|].
    by intros (s' & [= <-] & H).
  - split; [done|]. by intros (s & H & _).
Qed.

Lemma length_eqb_0 {A : Type} (l : list A) : Nat.eqb (length l) 0 = true <-> l = [].
Proof. destruct l; simpl; split; done. Qed.

(** what the filter lets through, clause by clause *)
Lemma passesFilters_true (fo : FilterOptions) (m : Model.t) :
  passesFilters fo m = true
  <-> (releases fo = [] ∨ includesProperty (releases fo) (Model.release m) = true)
      ∧ (subscriptions fo = []
         ∨ includesProperty (subscriptions fo) (Model.subscription m) = true)
      ∧ (∀ t, t ∈ tags fo -> t ∈ Model.tags m).
Proof.
  unfold passesFilters.
  assert (forallb (fun tag => existsb (String.eqb tag) (Model.tags m)) (tags fo) = true
          <-> ∀ t, t ∈ tags fo -> t ∈ Model.tags m) as Htags.
  { rewrite forallb_forall. split.
    - intros H t Ht. apply existsb_eqb_elem, H. by apply list_elem_of_In.
    - intros H t Ht. apply existsb_eqb_elem, H. by apply list_elem_of_In. }
  destruct (releases fo) as [|r rs] eqn:ER; simpl.
  - destruct (subscriptions fo) as [|s ss] eqn:ES; simpl.
    + destruct (tags fo) as [|t ts] eqn:ET; simpl.
      * split; [|done]. intros _. split_and!; [by left|by left|].
        by intros t ?%elem_of_nil.
      * rewrite <- Htags. cbn [forallb].
        destruct (existsb (String.eqb t) (Model.tags m) && forallb _ ts); simpl.
        -- split; [|done]. intros _. split_and!; [by left|by left|done].
        -- split; [done|]. by intros (_ & _ & ?).
    + destruct (includesProperty (s :: ss) (Model.subscription m)) eqn:EI; simpl.
      * destruct (tags fo) as [|t ts] eqn:ET; simpl.
        -- split; [|done]. intros _. split_and!; [by left|by right|].
           by intros t ?%elem_of_nil.
        -- rewrite <- Htags. cbn [forallb].
           destruct (existsb (String.eqb t) (Model.tags m) && forallb _ ts); simpl.
           ++ split; [|done]. intros _. split_and!; [by left|by right|done].
           ++ split; [done|]. by intros (_ & _ & ?).
      * split; [done|]. by intros (_ & [?|?] & _).
  - destruct (includesProperty (r :: rs) (Model.release m)) eqn:EI; simpl.
    + destruct (subscriptions fo) as [|s ss] eqn:ES; simpl.
      * destruct (tags fo) as [|t ts] eqn:ET; simpl.
        -- split; [|done]. intros _. split_and!; [by right|by left|].
           by intros t ?%elem_of_nil.
        -- rewrite <- Htags. cbn [forallb].
           destruct (existsb (String.eqb t) (Model.tags m) && forallb _ ts); simpl.
           ++ split; [|done]. intros _. split_and!; [by right|by left|done].
           ++ split; [done|]. by intros (_ & _ & ?).
      * destruct (includesProperty (s :: ss) (Model.subscription m)) eqn:EI'; simpl.
        -- destruct (tags fo) as [|t ts] eqn:ET; simpl.
           ++ split; [|done]. intros _. split_and!; [by right|by right|].
              by intros t ?%elem_of_nil.
           ++ rewrite <- Htags. cbn [forallb].
              destruct (existsb (String.eqb t) (Model.tags m) && forallb _ ts); simpl.
              ** split; [|done]. intros _. split_and!; [by right|by right|done].
              ** split; [done|]. by intros (_ & _ & ?).
        -- split; [done|]. by intros (_ & [?|?] & _).
    + split; [done|]. by intros ([?|?] & _).
Qed.

End GalleryLists.


(** X19.  The filter values the page offers are, for releases and for
    subscriptions, the non-empty values that occur in the catalog, and for
    tags all tags that occur; each list is in ascending order and free of
    repetition. *)
Theorem offered_filter_values_are_the_sorted_values_in_use (models : list Model.t) :
  let offered := Gallery.availableFilters models in
  (Gallery.ascending (Gallery.releases offered)
   ∧ NoDup (Gallery.releases offered)
   ∧ ∀ v, v ∈ Gallery.releases offered
          <-> v ≠ ""%string ∧ ∃ m, m ∈ models ∧ Model.release m = Some v)
  ∧ (Gallery.ascending (Gallery.subscriptions offered)
     ∧ NoDup (Gallery.subscriptions offered)
     ∧ ∀ v, v ∈ Gallery.subscriptions offered
            <-> v ≠ ""%string ∧ ∃ m, m ∈ models ∧ Model.subscription m = Some v)
  ∧ (Gallery.ascending (Gallery.tags offered)
     ∧ NoDup (Gallery.tags offered)
     ∧ ∀ v, v ∈ Gallery.tags offered <-> ∃ m, m ∈ models ∧ v ∈ Model.tags m).
Proof.
  cbv zeta. unfold Gallery.availableFilters. simpl.
  destruct (collectFilters_spec models) as ((R1 & R2) & (S1 & S2) & (T1 & T2)).
  split_and!; try apply sortStrings_ascending.
  - by rewrite sortStrings_Permutation.
  - intros v. by rewrite sortStrings_Permutation.
  - by rewrite sortStrings_Permutation.
  - intros v. by rewrite sortStrings_Permutation.
  - by rewrite sortStrings_Permutation.
  - intros v. by rewrite sortStrings_Permutation.
Qed.

(** X20.  No offered filter value is dead: selecting any one release,
    subscription or tag the page offers, and nothing else, leaves at least
    one model. *)
Theorem every_offered_filter_value_selects_a_model
    (models : list Model.t) (v : string) :
  (v ∈ Gallery.releases (Gallery.availableFilters models) ->
   Gallery.applyFilters
     {| Gallery.releases := [v]; Gallery.subscriptions := []; Gallery.tags := [] |}
     models ≠ [])
  ∧ (v ∈ Gallery.subscriptions (Gallery.availableFilters models) ->
     Gallery.applyFilters
       {| Gallery.releases := []; Gallery.subscriptions := [v]; Gallery.tags := [] |}
       models ≠ [])
  ∧ (v ∈ Gallery.tags (Gallery.availableFilters models) ->
     Gallery.applyFilters
       {| Gallery.releases := []; Gallery.subscriptions := []; Gallery.tags := [v] |}
       models ≠ []).
Proof.
  unfold Gallery.availableFilters. simpl.
  destruct (collectFilters_spec models) as ((_ & R2) & (_ & S2) & (_ & T2)).
  assert (∀ fo m, m ∈ models -> Gallery.passesFilters fo m = true ->
                  Gallery.applyFilters fo models ≠ []) as Hne.
  { intros fo m Hm Hp Hnil.
    assert (m ∈ Gallery.applyFilters fo models) as Hin by by apply elem_of_bfilter.
    rewrite Hnil in Hin. by apply elem_of_nil in Hin. }
  split_and!.
  - rewrite sortStrings_Permutation, R2. intros [_ (m & Hm & Hv)].
    apply (Hne _ m Hm), passesFilters_true. simpl. split_and!.
    + right. apply includesProperty_true. exists v. split; [done|].
      apply list_elem_of_here.
    + by left.
    + by intros t ?%elem_of_nil.
  - rewrite sortStrings_Permutation, S2. intros [_ (m & Hm & Hv)].
    apply (Hne _ m Hm), passesFilters_true. simpl. split_and!.
    + by left.
    + right. apply includesProperty_true. exists v. split; [done|].
      apply list_elem_of_here.
    + by intros t ?%elem_of_nil.
  - rewrite sortStrings_Permutation, T2. intros (m & Hm & Hv).
    apply (Hne _ m Hm), passesFilters_true. simpl. split_and!.
    + by left.
    + by left.
    + by intros t ->%list_elem_of_singleton.
Qed.

(** X21.  The filter only ever takes models away, in catalog order; with
    no value selected it takes none away; selected tags must all be
    present, so selecting one more tag never adds a model; selected
    releases (and subscriptions) are alternatives, so selecting one more,
    once one is selected, never removes a model. *)
Theorem tags_narrow_and_values_widen
    (filterOptions : Gallery.FilterOptions) (models : list Model.t) (v : string) :
  Gallery.applyFilters filterOptions models `sublist_of` models
  ∧ Gallery.applyFilters Gallery.clearFilters models = models
  ∧ Gallery.applyFilters
      (Gallery.setFilter Gallery.Tags (Gallery.tags filterOptions ++ [v]) filterOptions)
      models
    `sublist_of` Gallery.applyFilters filterOptions models
  ∧ (Gallery.releases filterOptions ≠ [] ->
     Gallery.applyFilters filterOptions models
     `sublist_of`
     Gallery.applyFilters
       (Gallery.setFilter Gallery.Releases (Gallery.releases filterOptions ++ [v])
          filterOptions) models)
  ∧ (Gallery.subscriptions filterOptions ≠ [] ->
     Gallery.applyFilters filterOptions models
     `sublist_of`
     Gallery.applyFilters
       (Gallery.setFilter Gallery.Subscriptions
          (Gallery.subscriptions filterOptions ++ [v]) filterOptions) models).
Proof.
  split_and!.
  - apply bfilter_sublist_self.
  - unfold Gallery.applyFilters. apply forallb_filter_id, forallb_forall.
    intros m _. done.
  - apply bfilter_sublist. intros m. rewrite !passesFilters_true. simpl.
    intros (HR & HS & HT). split_and!; [done|done|].
    intros t Ht. apply HT, elem_of_app. by left.
  - intros Hne. apply bfilter_sublist. intros m. rewrite !passesFilters_true. simpl.
    intros ([HR|HR] & HS & HT); [done|]. split_and!; [|done|done].
    right. apply includesProperty_true in HR as (s & Hs & Hin).
    apply includesProperty_true. exists s. split; [done|]. apply elem_of_app. by left.
  - intros Hne. apply bfilter_sublist. intros m. rewrite !passesFilters_true. simpl.
    intros (HR & [HS|HS] & HT); [done|]. split_and!; [done| |done].
    right. apply includesProperty_true in HS as (s & Hs & Hin).
    apply includesProperty_true. exists s. split; [done|]. apply elem_of_app. by left.
Qed.

(** ** Toggling a filter value *)

Lemma indexOf_None (v : string) (l : list string) :
  Gallery.indexOf v l = None <-> v ∉ l.
Proof.
  induction l as [|x l IH]; simpl.
  - split; [intros _; apply not_elem_of_nil|done].
  - destruct (String.eqb x v) eqn:E.
    + apply string_eqb_true in E as ->. split; [done|].
      intros H. exfalso. apply H, list_elem_of_here.
    + apply string_eqb_false in E. rewrite fmap_None, IH, not_elem_of_cons.
      split; [by intros ?|by intros [_ ?]].
Qed.

Lemma indexOf_Some (v : string) (l : list string) (i : nat) :
  Gallery.indexOf v l = Some i -> l !! i = Some v.
Proof.
  revert i. induction l as [|x l IH]; intros i; simpl; [done|].
  destruct (String.eqb x v) eqn:E.
  - apply string_eqb_true in E as ->. by intros [= <-].
  - intros (j & Hj & ->)%fmap_Some. simpl. by apply IH.
Qed.

Lemma getFilter_setFilter (ft ft' : Gallery.FilterType) (v : list string)
    (fo : Gallery.FilterOptions) :
  Gallery.getFilter ft' (Gallery.setFilter ft v fo)
  = if decide (ft' = ft) then v else Gallery.getFilter ft' fo.
Proof. by destruct ft, ft'. Qed.

Lemma toggle_values (ft : Gallery.FilterType) (v : string) (prev : Gallery.FilterOptions) :
  NoDup (Gallery.getFilter ft prev) ->
  ((v ∉ Gallery.getFilter ft prev)
   ∧ Gallery.getFilter ft (Gallery.toggleFilter ft v prev)
     = Gallery.getFilter ft prev ++ [v])
  ∨ (v ∈ Gallery.getFilter ft prev
     ∧ (v ∉ Gallery.getFilter ft (Gallery.toggleFilter ft v prev))
     ∧ Gallery.getFilter ft prev
       ≡ₚ v :: Gallery.getFilter ft (Gallery.toggleFilter ft v prev)).
Proof.
  intros Hnd. unfold Gallery.toggleFilter. cbv zeta.
  destruct (Gallery.indexOf v (Gallery.getFilter ft prev)) as [i|] eqn:E.
  - right. apply indexOf_Some in E.
    rewrite getFilter_setFilter, decide_True by done.
    pose proof (delete_Permutation _ _ _ E) as Hp.
    rewrite Hp in Hnd. apply NoDup_cons in Hnd as [Hnin _].
    split_and!; [by eapply list_elem_of_lookup_2|done|done].
  - left. apply indexOf_None in E.
    by rewrite getFilter_setFilter, decide_True.
Qed.

(** X22.  Toggling a value of a filter flips whether it is selected and
    touches nothing else: the selection stays free of repetition, every
    other value and the other two filters are as before, and toggling the
    same value again restores the selection (up to the order of its
    values). *)
Theorem toggling_flips_one_value
    (filterType : Gallery.FilterType) (value : string) (prev : Gallery.FilterOptions) :
  NoDup (Gallery.getFilter filterType prev) ->
  let next := Gallery.toggleFilter filterType value prev in
  NoDup (Gallery.getFilter filterType next)
  ∧ (value ∈ Gallery.getFilter filterType next
     <-> value ∉ Gallery.getFilter filterType prev)
  ∧ (∀ x, x ≠ value ->
          (x ∈ Gallery.getFilter filterType next
           <-> x ∈ Gallery.getFilter filterType prev))
  ∧ (∀ other, other ≠ filterType ->
              Gallery.getFilter other next = Gallery.getFilter other prev)
  ∧ Gallery.getFilter filterType (Gallery.toggleFilter filterType value next)
    ≡ₚ Gallery.getFilter filterType prev.
Proof.
  intros Hnd. cbv zeta.
  assert (∀ other, other ≠ filterType ->
            Gallery.getFilter other (Gallery.toggleFilter filterType value prev)
            = Gallery.getFilter other prev) as Hother.
  { intros other Hne. unfold Gallery.toggleFilter. cbv zeta.
    destruct (Gallery.indexOf _ _);
      by rewrite getFilter_setFilter, decide_False. }
  destruct (toggle_values filterType value prev Hnd)
    as [[Hnin Heq]|(Hin & Hnin & Hp)].
  - assert (NoDup (Gallery.getFilter filterType
                     (Gallery.toggleFilter filterType value prev))) as Hnd'.
    { rewrite Heq. apply NoDup_app. split_and!; [done| |apply NoDup_singleton].
      by intros x Hx ->%list_elem_of_singleton. }
    split_and!; [done| | |done|].
    + rewrite Heq, elem_of_snoc. split; [done|]. by right.
    + intros x Hx. rewrite Heq, elem_of_snoc. split; [by intros [?|?]|by left].
    + destruct (toggle_values filterType value _ Hnd')
        as [[Hnin' _]|(_ & _ & Hp')].
      * exfalso. apply Hnin'. rewrite Heq. apply elem_of_snoc. by right.
      * rewrite Heq in Hp'. rewrite <- Permutation_cons_append in Hp'.
        by apply Permutation_cons_inv in Hp'.
  - assert (NoDup (Gallery.getFilter filterType
                     (Gallery.toggleFilter filterType value prev))) as Hnd'.
    { rewrite Hp in Hnd. by apply NoDup_cons in Hnd as [_ ?]. }
    split_and!; [done| | |done|].
    + split; [done|]. by intros ?.
    + intros x Hx. rewrite Hp, elem_of_cons. split; [by right|by intros [?|?]].
    + destruct (toggle_values filterType value _ Hnd')
        as [[_ Heq']|(Hin' & _ & _)]; [|done].
      rewrite Heq', <- Permutation_cons_append. by symmetry.
Qed.

Lemma toggling_flips_one_value_witness :
  let prev := {| Gallery.releases := ["Winter2024"; "Spring2025"]%string;
                 Gallery.subscriptions := []; Gallery.tags := ["orc"]%string |} in
  let next := Gallery.toggleFilter Gallery.Releases "Winter2024" prev in
  Gallery.releases next = ["Spring2025"]%string
  ∧ Gallery.releases (Gallery.toggleFilter Gallery.Releases "Winter2024" next)
    = ["Spring2025"; "Winter2024"]%string
  ∧ NoDup (Gallery.getFilter Gallery.Releases next)
  ∧ Gallery.getFilter Gallery.Releases
      (Gallery.toggleFilter Gallery.Releases "Winter2024" next)
    ≡ₚ Gallery.getFilter Gallery.Releases prev.
Proof.
  cbv zeta. split; [reflexivity|]. split; [reflexivity|].
  assert (NoDup (Gallery.getFilter Gallery.Releases
                   {| Gallery.releases := ["Winter2024"; "Spring2025"]%string;
                      Gallery.subscriptions := [];
                      Gallery.tags := ["orc"]%string |})) as Hnd.
  { apply NoDup_cons. split; [|apply NoDup_singleton].
    intros Hin%list_elem_of_singleton. discriminate Hin. }
  destruct (toggling_flips_one_value Gallery.Releases "Winter2024" _ Hnd)
    as (H1 & _ & _ & _ & H5).
  split; [exact H1|exact H5].
Defined.

(** ** Stepping through the models *)

Lemma navigate_index (direction : Gallery.Direction) (selected : Model.t)
    (filtered : list Model.t) (cur : nat) :
  NoDup (Model.id <$> filtered) ->
  filtered !! cur = Some selected ->
  1 < length filtered ->
  let len := Z.of_nat (length filtered) in
  let next :=
    Z.to_nat (match direction with
              | Gallery.Next => (Z.of_nat cur + 1) mod len
              | Gallery.Prev => (Z.of_nat cur - 1 + len) mod len
              end)%Z in
  next < length filtered
  ∧ Gallery.navigateModel direction (Some selected) filtered = filtered !! next.
Proof.
  intros Hnd Hcur Hlen. cbv zeta. split.
  - assert (0 <= match direction with
                 | Gallery.Next => (Z.of_nat cur + 1) mod Z.of_nat (length filtered)
                 | Gallery.Prev =>
                     (Z.of_nat cur - 1 + Z.of_nat (length filtered))
                       mod Z.of_nat (length filtered)
                 end < Z.of_nat (length filtered))%Z as H;
      [destruct direction; apply Z.mod_pos_bound; lia|lia].
  - unfold Gallery.navigateModel.
    destruct (length filtered <=? 1)%nat eqn:E; [apply Nat.leb_le in E; lia|].
    by rewrite (findIndex_NoDup _ _ _ Hnd Hcur).
Qed.

(** X23.  In a list of models with distinct ids, stepping to the next model
    and then to the previous one, or the other way round, comes back to the
    selected model; and a step always lands on a model of the list. *)
Theorem next_then_prev_comes_back
    (filteredModels : list Model.t) (selected : Model.t) :
  NoDup (Model.id <$> filteredModels) ->
  selected ∈ filteredModels ->
  Gallery.navigateModel Gallery.Prev
    (Gallery.navigateModel Gallery.Next (Some selected) filteredModels)
    filteredModels = Some selected
  ∧ Gallery.navigateModel Gallery.Next
      (Gallery.navigateModel Gallery.Prev (Some selected) filteredModels)
      filteredModels = Some selected
  ∧ ∀ direction, ∃ m,
      Gallery.navigateModel direction (Some selected) filteredModels = Some m
      ∧ m ∈ filteredModels.
Proof.
  intros Hnd [cur Hcur]%list_elem_of_lookup_1.
  pose proof (lookup_lt_Some _ _ _ Hcur) as Hlt.
  destruct (decide (length filteredModels ≤ 1)) as [Hsmall|Hbig].
  { assert (∀ d, Gallery.navigateModel d (Some selected) filteredModels
                 = Some selected) as Hstay.
    { intros d. unfold Gallery.navigateModel.
      by rewrite (proj2 (Nat.leb_le _ _) Hsmall). }
    rewrite !Hstay. split_and!; [done|done|].
    intros d. exists selected. split; [done|]. by eapply list_elem_of_lookup_2. }
  assert (1 < length filteredModels) as Hlen by lia.
  assert (∀ d, ∃ next m,
            Gallery.navigateModel d (Some selected) filteredModels = Some m
            ∧ filteredModels !! next = Some m
            ∧ Z.of_nat next
              = match d with
                | Gallery.Next =>
                    (Z.of_nat cur + 1) mod Z.of_nat (length filteredModels)
                | Gallery.Prev =>
                    (Z.of_nat cur - 1 + Z.of_nat (length filteredModels))
                      mod Z.of_nat (length filteredModels)
                end%Z) as Hstep.
  { intros d. destruct (navigate_index d selected filteredModels cur Hnd Hcur Hlen)
      as [Hb ->].
    destruct (lookup_lt_is_Some_2 _ _ Hb) as [m Hm].
    eexists _, m. split_and!; [done|done|].
    rewrite Z2Nat.id; [done|]. destruct d; apply Z.mod_pos_bound; lia. }
  split_and!.
  - destruct (Hstep Gallery.Next) as (next & m & -> & Hm & Hnext).
    destruct (navigate_index Gallery.Prev m filteredModels next Hnd Hm Hlen)
      as [_ ->].
    rewrite <- Hcur. f_equal. rewrite Hnext.
    destruct (decide (cur + 1 = length filteredModels)) as [Heq|Hne].
    + replace (Z.of_nat cur + 1)%Z with (Z.of_nat (length filteredModels)) by lia.
      rewrite Z_mod_same_full, Z.mod_small by lia. lia.
    + rewrite (Z.mod_small (Z.of_nat cur + 1)) by lia.
      replace (Z.of_nat cur + 1 - 1 + Z.of_nat (length filteredModels))%Z
        with (Z.of_nat cur + 1 * Z.of_nat (length filteredModels))%Z by lia.
      rewrite Z_mod_plus_full, Z.mod_small by lia. lia.
  - destruct (Hstep Gallery.Prev) as (next & m & -> & Hm & Hnext).
    destruct (navigate_index Gallery.Next m filteredModels next Hnd Hm Hlen)
      as [_ ->].
    rewrite <- Hcur. f_equal. rewrite Hnext.
    destruct (decide (cur = 0)) as [->|Hne].
    + replace (Z.of_nat 0 - 1 + Z.of_nat (length filteredModels))%Z
        with (Z.of_nat (length filteredModels) - 1)%Z by lia.
      rewrite (Z.mod_small (Z.of_nat (length filteredModels) - 1)) by lia.
      replace (Z.of_nat (length filteredModels) - 1 + 1)%Z
        with (Z.of_nat (length filteredModels)) by lia.
      by rewrite Z_mod_same_full.
    + replace (Z.of_nat cur - 1 + Z.of_nat (length filteredModels))%Z
        with (Z.of_nat cur - 1 + 1 * Z.of_nat (length filteredModels))%Z by lia.
      rewrite Z_mod_plus_full, (Z.mod_small (Z.of_nat cur - 1)) by lia.
      replace (Z.of_nat cur - 1 + 1)%Z with (Z.of_nat cur) by lia.
      rewrite Z.mod_small by lia. lia.
  - intros d. destruct (Hstep d) as (next & m & Hnav & Hm & _).
    exists m. split; [done|]. by eapply list_elem_of_lookup_2.
Qed.

Lemma next_then_prev_comes_back_witness :
  ∃ selected other : Model.t,
    Catalog.models Example.catalog1 !! 1 = Some selected
    ∧ Catalog.models Example.catalog1 !! 0 = Some other
    ∧ Gallery.navigateModel Gallery.Next (Some selected)
        (Catalog.models Example.catalog1) = Some other
    ∧ Gallery.navigateModel Gallery.Prev
        (Gallery.navigateModel Gallery.Next (Some selected)
           (Catalog.models Example.catalog1))
        (Catalog.models Example.catalog1) = Some selected.
Proof.
  destruct (Catalog.models Example.catalog1 !! 1) as [selected|] eqn:H1;
    [|vm_compute in H1; discriminate H1].
  destruct (Catalog.models Example.catalog1 !! 0) as [other|] eqn:H0;
    [|vm_compute in H0; discriminate H0].
  exists selected, other. split; [done|]. split; [done|]. split.
  - vm_compute in H1. injection H1 as <-. vm_compute in H0. injection H0 as <-.
    vm_compute. reflexivity.
  - assert (NoDup (Model.id <$> Catalog.models Example.catalog1)) as Hnd.
    { apply NoDup_cons. split; [|apply NoDup_singleton].
      intros Hin%list_elem_of_singleton. discriminate Hin. }
    assert (selected ∈ Catalog.models Example.catalog1) as Hin
      by by eapply list_elem_of_lookup_2.
    exact (proj1 (next_then_prev_comes_back _ _ Hnd Hin)).
Defined.


(** ** Grouping *)

Section Grouping.
Import Gallery.
Variable groupBy : GroupBy.

Local Abbreviation addToGroup :=
  (fun (acc : option (gmap string (list Model.t))) model =>
     groups ← acc;
     let key := groupKey groupBy model in
     match groups !! key with
     | Some group => Some (<[key := group ++ [model]]> groups)
     | None =>
         if existsb (String.eqb key) objectPrototypeKeys then None
         else Some (<[key := [model]]> groups)
     end).

Lemma addToGroup_None (l : list Model.t) : foldl addToGroup None l = None.
Proof. induction l as [|x l IH]; [done|]. simpl. apply IH. Qed.

Lemma groupOf_snoc (k : string) (seen : list Model.t) (x : Model.t) :
  groupOf groupBy k (seen ++ [x])
  = groupOf groupBy k seen ++ (if decide (groupKey groupBy x = k) then [x] else []).
Proof.
  unfold groupOf. by rewrite filter_app.
Qed.

Lemma addToGroup_fold (l seen : list Model.t) (groups : gmap string (list Model.t)) :
  GroupsOf groupBy seen groups ->
  (∀ m, m ∈ seen -> groupKey groupBy m ∉ objectPrototypeKeys) ->
  match foldl addToGroup (Some groups) l with
  | Some groups' =>
      GroupsOf groupBy (seen ++ l) groups'
      ∧ ∀ m, m ∈ seen ++ l -> groupKey groupBy m ∉ objectPrototypeKeys
  | None => ∃ m, m ∈ l ∧ groupKey groupBy m ∈ objectPrototypeKeys
  end.
Proof.
  revert seen groups. induction l as [|x l IH]; intros seen groups Hinv Hseen.
  - simpl. by rewrite app_nil_r.
  - cbn [foldl]. replace (seen ++ x :: l) with ((seen ++ [x]) ++ l)
      by by rewrite <- app_assoc.
    cbn [mbind option_bind]. cbv zeta.
    pose proof (Hinv (groupKey groupBy x)) as Hkey.
    destruct (groups !! groupKey groupBy x) as [group|] eqn:Hg.
    + assert (groupOf groupBy (groupKey groupBy x) seen = group ∧ group ≠ []) as [Hgo Hne].
      { revert Hkey. destruct (groupOf groupBy (groupKey groupBy x) seen); [done|].
        by intros [= ->]. }
      assert (groupKey groupBy x ∉ objectPrototypeKeys) as Hx.
      { destruct group as [|y group]; [done|].
        assert (y ∈ groupOf groupBy (groupKey groupBy x) seen) as Hy
          by (rewrite Hgo; apply list_elem_of_here).
        apply list_elem_of_filter in Hy as [<- Hy]. by apply Hseen. }
      specialize (IH (seen ++ [x]) (<[groupKey groupBy x := group ++ [x]]> groups)).
      destruct (foldl _ _ l) as [groups'|].
      * apply IH.
        -- intros k. rewrite groupOf_snoc.
           destruct (decide (groupKey groupBy x = k)) as [<-|Hk].
           ++ rewrite lookup_insert_eq, Hgo. by destruct group.
           ++ rewrite lookup_insert_ne, app_nil_r by done. apply Hinv.
        -- intros m [Hm| ->]%elem_of_snoc; [by apply Hseen|done].
      * destruct IH as (m & Hm & Hp).
        -- intros k. rewrite groupOf_snoc.
           destruct (decide (groupKey groupBy x = k)) as [<-|Hk].
           ++ rewrite lookup_insert_eq, Hgo. by destruct group.
           ++ rewrite lookup_insert_ne, app_nil_r by done. apply Hinv.
        -- intros m [Hm| ->]%elem_of_snoc; [by apply Hseen|done].
        -- exists m. split; [by apply list_elem_of_further|done].
    + destruct (existsb (String.eqb (groupKey groupBy x)) objectPrototypeKeys) eqn:Hp.
      * rewrite addToGroup_None. exists x. split; [apply list_elem_of_here|].
        by apply existsb_eqb_elem.
      * assert (groupKey groupBy x ∉ objectPrototypeKeys) as Hx.
        { intros Hin%existsb_eqb_elem. congruence. }
        assert (groupOf groupBy (groupKey groupBy x) seen = []) as Hgo.
        { revert Hkey. by destruct (groupOf groupBy (groupKey groupBy x) seen). }
        specialize (IH (seen ++ [x]) (<[groupKey groupBy x := [x]]> groups)).
        destruct (foldl _ _ l) as [groups'|].
        -- apply IH.
           ++ intros k. rewrite groupOf_snoc.
              destruct (decide (groupKey groupBy x = k)) as [<-|Hk].
              ** by rewrite lookup_insert_eq, Hgo.
              ** rewrite lookup_insert_ne, app_nil_r by done. apply Hinv.
           ++ intros m [Hm| ->]%elem_of_snoc; [by apply Hseen|done].
        -- destruct IH as (m & Hm & Hp').
           ++ intros k. rewrite groupOf_snoc.
              destruct (decide (groupKey groupBy x = k)) as [<-|Hk].
              ** by rewrite lookup_insert_eq, Hgo.
              ** rewrite lookup_insert_ne, app_nil_r by done. apply Hinv.
           ++ intros m [Hm| ->]%elem_of_snoc; [by apply Hseen|done].
           ++ exists m. split; [by apply list_elem_of_further|done].
Qed.

Lemma groupModels_spec (models : list Model.t) :
  groupBy ≠ GroupNone ->
  match groupModels models groupBy with
  | Some groups =>
      GroupsOf groupBy models groups
      ∧ ∀ m, m ∈ models -> groupKey groupBy m ∉ objectPrototypeKeys
  | None => ∃ m, m ∈ models ∧ groupKey groupBy m ∈ objectPrototypeKeys
  end.
Proof.
  intros Hg.
  assert (groupModels models groupBy = foldl addToGroup (Some ∅) models) as ->.
  { unfold groupModels. by destruct groupBy. }
  apply (addToGroup_fold models [] ∅).
  - intros k. by rewrite lookup_empty.
  - by intros m ?%elem_of_nil.
Qed.

End Grouping.

(** X24.  Grouping by release or by subscription splits the models: when
    it returns, every group is non-empty and holds, in their order, exactly
    the models with the group's key (the property's value, or Uncategorized
    for a missing or empty one), so every model is in exactly one group.
    It fails, with a TypeError, exactly when the key of some model is the
    name of a property that objects inherit, such as constructor. *)
Theorem grouping_splits_the_models
    (models : list Model.t) (groupBy : Gallery.GroupBy) :
  groupBy ≠ Gallery.GroupNone ->
  (∀ groups, Gallery.groupModels models groupBy = Some groups ->
     (∀ k group, groups !! k = Some group
                 <-> group ≠ []
                     ∧ group = filter (fun m => Gallery.groupKey groupBy m = k) models)
     ∧ ∀ m, m ∈ models ->
            ∃ group, groups !! Gallery.groupKey groupBy m = Some group ∧ m ∈ group)
  ∧ (Gallery.groupModels models groupBy = None
     <-> ∃ m, m ∈ models
              ∧ Gallery.groupKey groupBy m ∈ Gallery.objectPrototypeKeys).
Proof.
  intros Hg. pose proof (groupModels_spec groupBy models Hg) as H.
  destruct (Gallery.groupModels models groupBy) as [groups|].
  - destruct H as [Hinv Hsafe]. split.
    + intros ? [= <-].
      assert (∀ k group, groups !! k = Some group
                <-> group ≠ []
                    ∧ group = filter (fun m => Gallery.groupKey groupBy m = k) models)
        as Hgroups.
      { intros k group. rewrite (Hinv k). unfold Gallery.groupOf.
        destruct (filter _ models) as [|y l].
        - split; [done|]. by intros [? ->].
        - split; [by intros [= <-]|by intros [_ ->]]. }
      split; [done|].
      intros m Hm.
      exists (filter (fun m' => Gallery.groupKey groupBy m' = Gallery.groupKey groupBy m)
                models).
      assert (m ∈ filter (fun m' => Gallery.groupKey groupBy m'
                                    = Gallery.groupKey groupBy m) models) as Hin
        by by apply list_elem_of_filter.
      split; [|done]. apply Hgroups. split; [|done].
      intros Hnil. rewrite Hnil in Hin. by apply elem_of_nil in Hin.
    + split; [done|]. intros (m & Hm & Hp). by apply Hsafe in Hm.
  - split; [done|]. by split.
Qed.

Lemma grouping_splits_the_models_witness :
  (∃ groups, Gallery.groupModels (Catalog.models Example.catalog1)
               Gallery.GroupRelease = Some groups
             ∧ groups !! "Winter2024"%string = Some (Catalog.models Example.catalog1))
  ∧ Gallery.groupModels
      [Model.set_release (Some "constructor"%string) Example.bareModel]
      Gallery.GroupRelease = None.
Proof.
  assert (Gallery.GroupRelease ≠ Gallery.GroupNone) as Hg by discriminate.
  split.
  - destruct (grouping_splits_the_models (Catalog.models Example.catalog1)
                Gallery.GroupRelease Hg) as [Hsome _].
    destruct (Gallery.groupModels (Catalog.models Example.catalog1)
                Gallery.GroupRelease) as [groups|] eqn:Hrun;
      [|vm_compute in Hrun; discriminate Hrun].
    exists groups. split; [done|].
    apply (Hsome groups eq_refl). split; [|reflexivity]. discriminate.
  - apply (grouping_splits_the_models
             [Model.set_release (Some "constructor"%string) Example.bareModel]
             Gallery.GroupRelease Hg).
    eexists. split; [apply list_elem_of_here|].
    vm_compute. apply list_elem_of_here.
Defined.


(** ** The entries of the catalog *)

Section CatalogEntries.
Context {PM : PathModule} {FS : Type} {FSys : FileSystem FS}.
Variable ORYNT3D_DIRECTORY : string.
Variable md5hex : string -> string.
Variable readConfig : string -> option Config.t.

Local Abbreviation entry := (entryOf ORYNT3D_DIRECTORY md5hex readConfig).
Local Abbreviation extract :=
  (mainExtractModelData ORYNT3D_DIRECTORY md5hex readConfig).

(** an entry is the release merge over a base that is made of the model's
    own document and path *)
Lemma entryOf_shape rcs em (fs : FS) clock i p m :
  entry rcs em fs clock i p = Some m ->
  ∃ doc mm base,
    readConfig p = Some doc
    ∧ classify doc = IsModel
    ∧ Config.modelmeta doc = Some mm
    ∧ p ≠ ""%string
    ∧ m = foldl applyReleaseConfig base (findApplicableReleaseConfigs rcs p)
    ∧ Model.id base
      = generateStableId ORYNT3D_DIRECTORY md5hex (Model.name base) p
    ∧ Model.sourcePath base = p
    ∧ Model.relativeSourcePath base = relative ORYNT3D_DIRECTORY p
    ∧ Model.directoryCollection base
      = match head (split sep (dirname (relative ORYNT3D_DIRECTORY p))) with
        | Some d => if truthy d then Some d else None
        | None => None
        end
    ∧ Model.attributes base = default [] (ModelMeta.attributes mm)
    ∧ Model.tags base = default [] (ModelMeta.tags mm)
    ∧ Model.release base = None
    ∧ Model.subscription base = None.
Proof.
  unfold entryOf.
  destruct (readConfig p) as [doc|] eqn:Hread; [|done].
  destruct (isReleaseConfig doc) eqn:Hrel; [done|].
  destruct (isValidModelConfig doc) eqn:Hval; [|done].
  unfold processModelConfig.
  destruct (truthy p) eqn:Htp; [|done]. apply truthy_true in Htp. cbn [negb].
  destruct (Config.modelmeta doc) as [mm|] eqn:Hmm; [|done].
  intros [= <-]. eexists doc, mm, _.
  split_and!; [done| |done|done|reflexivity|done..].
  unfold classify. by rewrite Hrel, Hval.
Qed.

Lemma extract_entry (fs : FS) (prior : option Catalog.t) (scan : Scan)
    (clock : ExtractClock) (data : Catalog.t) (m : Model.t) :
  extract fs prior scan clock = Some data ->
  m ∈ Catalog.models data ->
  ∃ i p, p ∈ configFiles scan
         ∧ entry (analyzeConfigFiles readConfig (configFiles scan))
             (loadExistingDataFile prior) fs clock i p = Some m.
Proof.
  intros Hrun Hm.
  destruct (extract_shape _ _ _ _ _ _ _ _ Hrun) as (Hmodels & _).
  rewrite Hmodels in Hm. by apply entriesFrom_inv in Hm.
Qed.

(** X25.  Every entry of the catalog describes itself: its source path is
    one of the config files of the scan, its id is the stable id of its own
    name and source path, its relative source path is the source path
    relative to the scan root, and its directory collection is the first
    segment of the relative directory, when that is not empty. *)
Theorem catalog_entry_describes_itself (fs : FS) (prior : option Catalog.t) (scan : Scan)
    (clock : ExtractClock) (data : Catalog.t) (m : Model.t) :
  mainExtractModelData ORYNT3D_DIRECTORY md5hex readConfig fs prior scan clock
  = Some data ->
  m ∈ Catalog.models data ->
  Model.sourcePath m ∈ configFiles scan
  ∧ Model.sourcePath m ≠ ""%string
  ∧ Model.id m
    = generateStableId ORYNT3D_DIRECTORY md5hex (Model.name m) (Model.sourcePath m)
  ∧ Model.relativeSourcePath m = relative ORYNT3D_DIRECTORY (Model.sourcePath m)
  ∧ Model.directoryCollection m
    = match head (split sep (dirname (Model.relativeSourcePath m))) with
      | Some d => if truthy d then Some d else None
      | None => None
      end.
Proof.
  intros Hrun Hm. destruct (extract_entry _ _ _ _ _ _ Hrun Hm) as (i & p & Hp & He).
  destruct (entryOf_shape _ _ _ _ _ _ _ He)
    as (doc & mm & base & _ & _ & _ & Hne & -> & Hid & Hsp & Hrel & Hdc & _).
  destruct (unmerged_fields _ _
              (foldl_applyReleaseConfig_unmerged
                 (findApplicableReleaseConfigs
                    (analyzeConfigFiles readConfig (configFiles scan)) p) base))
    as (-> & -> & _ & _ & -> & -> & _ & -> & _).
  rewrite Hsp, Hrel. by split_and!.
Qed.

(** X26.  Every entry of the catalog carries what the extractor's two
    passes give it together: first the attributes and tags of its own
    document, then, free of repetition, those of the release configs of the
    same scan that pass the test of the code for the entry's directory (it
    is the release config's directory, or starts with that directory
    followed by the separator), in the order the scan found them; its
    top-level release and subscription are the last ones these release
    configs offer. *)
Theorem catalog_entry_inherits_from_governing_release_configs (fs : FS) (prior : option Catalog.t) (scan : Scan)
    (clock : ExtractClock) (data : Catalog.t) (m : Model.t) :
  mainExtractModelData ORYNT3D_DIRECTORY md5hex readConfig fs prior scan clock
  = Some data ->
  m ∈ Catalog.models data ->
  ∃ doc mm,
    readConfig (Model.sourcePath m) = Some doc
    ∧ classify doc = IsModel
    ∧ Config.modelmeta doc = Some mm
    ∧ let governing :=
        config <$>
          filter (fun info =>
                    appliesTo (dirPath info) (dirname (Model.sourcePath m)) = true)
                 (analyzeConfigFiles readConfig (configFiles scan)).*2 in
      MergedInto key (default [] (ModelMeta.attributes mm)) (releaseAttrs governing)
        (Model.attributes m)
      ∧ MergedInto (fun t : string => t) (default [] (ModelMeta.tags mm))
          (releaseTags governing) (Model.tags m)
      ∧ Model.release m = lastValueOf "release" (releaseAttrs governing)
      ∧ Model.subscription m = lastValueOf "subscription" (releaseAttrs governing).
Proof.
  intros Hrun Hm. destruct (extract_entry _ _ _ _ _ _ Hrun Hm) as (i & p & Hp & He).
  destruct (entryOf_shape _ _ _ _ _ _ _ He)
    as (doc & mm & base & Hread & Hcl & Hmm & Hne & -> & _ & Hsp & _ & _
        & Hattrs & Htags & Hr & Hs).
  set (rcs := findApplicableReleaseConfigs
                (analyzeConfigFiles readConfig (configFiles scan)) p).
  destruct (unmerged_fields _ _ (foldl_applyReleaseConfig_unmerged rcs base))
    as (_ & _ & _ & _ & Hsp' & _).
  rewrite Hsp', Hsp. exists doc, mm. split_and!; [done|done|done|].
  assert (rcs = config <$>
                  filter (fun info => appliesTo (dirPath info) (dirname p) = true)
                         (analyzeConfigFiles readConfig (configFiles scan)).*2)
    as Hrcs.
  { unfold rcs. apply findApplicable_filter. }
  cbv zeta. rewrite <- Hrcs.
  destruct (foldl_applyReleaseConfig rcs base (Model.attributes base) []
              (Model.tags base) [] (MergedInto_nil _ _) (MergedInto_nil _ _))
    as (HA & HT & _).
  destruct (foldl_applyReleaseConfig_release rcs base) as [Hrel Hsub].
  rewrite Hattrs in HA. rewrite Htags in HT. simpl in HA, HT.
  split_and!; [done|done| |].
  - rewrite Hrel, Hr. by destruct (lastValueOf "release" _).
  - rewrite Hsub, Hs. by destruct (lastValueOf "subscription" _).
Qed.

End CatalogEntries.

Lemma catalog_entry_inherits_from_governing_release_configs_witness :
  ∃ (data : Catalog.t) (m : Model.t),
    @mainExtractModelData posix ToyFs.t toyFs Example.root toyDigest
      Example.readConfig Example.fs0 None Example.scan (Example.clockAt "t1")
    = Some data
    ∧ Catalog.models data !! 1 = Some m
    ∧ Model.sourcePath m = Example.orcPath
    ∧ Model.tags m = ["winter"; "orc"]%string
    ∧ ∃ doc mm,
        Example.readConfig (Model.sourcePath m) = Some doc
        ∧ classify doc = IsModel
        ∧ Config.modelmeta doc = Some mm
        ∧ let governing :=
            config <$>
              filter (fun info =>
                        @appliesTo posix (dirPath info)
                          (@dirname posix (Model.sourcePath m)) = true)
                     (@analyzeConfigFiles posix Example.readConfig
                        (configFiles Example.scan)).*2 in
          MergedInto key (default [] (ModelMeta.attributes mm))
            (releaseAttrs governing) (Model.attributes m)
          ∧ MergedInto (fun t : string => t) (default [] (ModelMeta.tags mm))
              (releaseTags governing) (Model.tags m)
          ∧ Model.release m = lastValueOf "release" (releaseAttrs governing)
          ∧ Model.subscription m
            = lastValueOf "subscription" (releaseAttrs governing).
Proof.
  destruct (@mainExtractModelData posix ToyFs.t toyFs Example.root toyDigest
              Example.readConfig Example.fs0 None Example.scan (Example.clockAt "t1"))
    as [data|] eqn:Hrun; [|vm_compute in Hrun; discriminate Hrun].
  destruct (Catalog.models data !! 1) as [m|] eqn:Hm.
  - exists data, m. split; [done|]. split; [done|].
    assert (m ∈ Catalog.models data) as Hin by by eapply list_elem_of_lookup_2.
    pose proof (catalog_entry_inherits_from_governing_release_configs _ _ _ _ _ _ _ _ _
                  Hrun Hin) as H.
    vm_compute in Hrun. injection Hrun as <-.
    vm_compute in Hm. injection Hm as <-.
    split; [reflexivity|]. split; [reflexivity|]. exact H.
  - exfalso. vm_compute in Hrun. injection Hrun as <-.
    vm_compute in Hm. discriminate Hm.
Defined.

Lemma catalog_entry_describes_itself_witness :
  ∃ (data : Catalog.t) (m : Model.t),
    @mainExtractModelData posix ToyFs.t toyFs Example.root toyDigest
      Example.readConfig Example.fs0 None Example.scan (Example.clockAt "t1")
    = Some data
    ∧ Catalog.models data !! 0 = Some m
    ∧ Model.id m = "goblin-Goblin-C"%string
    ∧ Model.directoryCollection m = Some "Collection1"%string
    ∧ Model.sourcePath m ∈ configFiles Example.scan
    ∧ Model.id m
      = @generateStableId posix Example.root toyDigest (Model.name m)
          (Model.sourcePath m).
Proof.
  destruct (@mainExtractModelData posix ToyFs.t toyFs Example.root toyDigest
              Example.readConfig Example.fs0 None Example.scan (Example.clockAt "t1"))
    as [data|] eqn:Hrun; [|vm_compute in Hrun; discriminate Hrun].
  destruct (Catalog.models data !! 0) as [m|] eqn:Hm.
  - exists data, m. split; [done|]. split; [done|].
    assert (m ∈ Catalog.models data) as Hin by by eapply list_elem_of_lookup_2.
    destruct (catalog_entry_describes_itself _ _ _ _ _ _ _ _ _ Hrun Hin)
      as (H1 & _ & H3 & _).
    vm_compute in Hrun. injection Hrun as <-.
    vm_compute in Hm. injection Hm as <-.
    split; [reflexivity|]. split; [reflexivity|]. split; [exact H1|exact H3].
  - exfalso. vm_compute in Hrun. injection Hrun as <-.
    vm_compute in Hm. discriminate Hm.
Defined.
